(** * The per-tab session coordinator of fast-playwright-mcp

    A shallow embedding of [src/tab.ts] (class [Tab]) and of the element
    resolution and snapshot helpers ([resolveFirstElement],
    [resolveDragElements], [handleSnapshotExpectation]), followed by the
    properties the specification states about them (C1 to C10) and by
    further properties of the code (X1 and the following).

    Conventions of the embedding.
    - A JavaScript string is the list of its UTF-16 code units ([list N]).
    - JavaScript numbers that count characters or list positions are [nat];
      wall-clock readings ([Date.now()]) and durations in milliseconds are [Z].
    - Asynchronous code is run against an explicit schedule: the list of
      things the event loop delivers, one at a time and each handled to
      completion (the promise reactions it triggers run before the next one
      is delivered). *)

From Stdlib Require Import ZArith NArith Lia Bool Ascii String.
From Stdlib Require DecimalN.
From stdpp Require Import base list gmap.

Local Open Scope nat_scope.

(* ===================================================================== *)
(** * Part I: the embedding *)
(* ===================================================================== *)

(** ** JavaScript strings *)

Module JS.

Abbreviation jsstring := (list N).

(** A literal of the source, as code units (source literals are ASCII). *)
Definition lit (s : string) : jsstring :=
  List.map N_of_ascii (list_ascii_of_string s).

Definition SPACE : N := 32.
Definition LF : N := 10.

(** ECMAScript [WhiteSpace] and [LineTerminator] code points: what
    [trim], [trimStart] and the regular expression class [\s] strip or
    match. *)
Definition isWhiteSpace (c : N) : bool :=
  ((9 <=? c) && (c <=? 13) || (c =? 32) || (c =? 160) || (c =? 5760)
   || (8192 <=? c) && (c <=? 8202) || (c =? 8232) || (c =? 8233)
   || (c =? 8239) || (c =? 8287) || (c =? 12288) || (c =? 65279))%N.

(** [s.trimStart()] *)
Fixpoint trimStart (s : jsstring) : jsstring :=
  match s with
  | [] => []
  | c :: r => if isWhiteSpace c then trimStart r else s
  end.

(** [s.trimEnd()] *)
Definition trimEnd (s : jsstring) : jsstring := rev (trimStart (rev s)).

(** [s.trim()] *)
Definition trim (s : jsstring) : jsstring := trimEnd (trimStart s).

(** [s.substring(0, n)] for a non-negative integer [n] (clamped to the
    length of [s]). *)
Definition substring0 (s : jsstring) (n : nat) : jsstring := take n s.

(** [s[i]]: [None] is JavaScript's [undefined] (index out of range). *)
Definition charAt (s : jsstring) (i : nat) : option N := s !! i.

(** [' '.repeat(n)] *)
Definition repeatSpace (n : nat) : jsstring := replicate n SPACE.

(** [s.split('\n')]: never empty, [''.split('\n')] is [['']]. *)
Fixpoint split_lines (s : jsstring) : list jsstring :=
  match s with
  | [] => [[]]
  | c :: r =>
      if (c =? LF)%N then [] :: split_lines r
      else match split_lines r with
           | [] => [[c]]
           | l :: ls => (c :: l) :: ls
           end
  end.

(** [lines.join('\n')] *)
Fixpoint join_lines (ls : list jsstring) : jsstring :=
  match ls with
  | [] => []
  | [l] => l
  | l :: ls' => l ++ LF :: join_lines ls'
  end.

(** [ls.join(sep)] for an arbitrary separator. *)
Fixpoint join (sep : jsstring) (ls : list jsstring) : jsstring :=
  match ls with
  | [] => []
  | [l] => l
  | l :: ls' => l ++ sep ++ join sep ls'
  end.

(** [s.startsWith(p)] *)
Fixpoint startsWith (s p : jsstring) : bool :=
  match p, s with
  | [], _ => true
  | _ :: _, [] => false
  | a :: p', b :: s' => (a =? b)%N && startsWith s' p'
  end.

(** [s.includes(sub)] *)
Fixpoint includes (s sub : jsstring) : bool :=
  startsWith s sub ||
  match s with
  | [] => false
  | _ :: s' => includes s' sub
  end.

End JS.

(** ** The snapshot text operations of [Tab] *)

Module Snapshot.
Import JS.

(** *** [_truncateAtWordBoundary] *)

(** [text[i] === ' ' || text[i] === '\n'] *)
Definition isBoundary (c : N) : bool := ((c =? SPACE) || (c =? LF))%N.

(** The loop [for (let i = n - 1; i >= 0; i--)] that stops at the first
    [i] with a boundary character: [Some i] when it breaks at [i], [None]
    when it runs to the end without finding one. *)
Fixpoint lastBoundaryBefore (text : jsstring) (n : nat) : option nat :=
  match n with
  | O => None
  | S i =>
      match charAt text i with
      | Some c => if isBoundary c then Some i else lastBoundaryBefore text i
      | None => lastBoundaryBefore text i
      end
  end.

(** The value of [truncateIndex] when the result is cut. *)
Definition truncateIndex (text : jsstring) (maxLength : nat) : nat :=
  match charAt text maxLength with
  | Some c =>
      (* a one-character string is truthy, whatever the character *)
      if negb (c =? SPACE)%N && negb (c =? LF)%N then
        let found :=
          match lastBoundaryBefore text maxLength with
          | Some i => i
          | None => maxLength
          end in
        if 20 <? maxLength - found then maxLength else found
      else maxLength
  | None => maxLength
  end.

Definition _truncateAtWordBoundary (text : jsstring) (maxLength : nat)
  : jsstring :=
  if length text <=? maxLength then text
  else
    let result := trim (substring0 text (truncateIndex text maxLength)) in
    if maxLength <? length result then substring0 result maxLength
    else result.

(** [i] is the position of the nearest space or line break before
    position [n] of [text]. *)
Definition nearestBoundaryBefore (text : jsstring) (n i : nat) : Prop :=
  i < n /\
  (exists c, text !! i = Some c /\ isBoundary c = true) /\
  (forall j c, i < j < n -> text !! j = Some c -> isBoundary c = false).

(** There is no space or line break before position [n] of [text]. *)
Definition noBoundaryBefore (text : jsstring) (n : nat) : Prop :=
  forall j c, j < n -> text !! j = Some c -> isBoundary c = false.

(** *** Regular expressions, as far as [_extractPartialSnapshot] needs them *)

Inductive regex :=
| Empty                       (* matches nothing *)
| Eps                         (* matches the empty string *)
| Chr (c : N)                 (* a literal character *)
| Class (p : N -> bool)       (* a character class *)
| Seq (r1 r2 : regex)
| Alt (r1 r2 : regex)
| Star (r : regex).

Definition Opt (r : regex) : regex := Alt r Eps.

Fixpoint nullable (r : regex) : bool :=
  match r with
  | Empty => false
  | Eps => true
  | Chr _ => false
  | Class _ => false
  | Seq r1 r2 => nullable r1 && nullable r2
  | Alt r1 r2 => nullable r1 || nullable r2
  | Star _ => true
  end.

(** The derivative of [r] by the character [c]. *)
Fixpoint deriv (c : N) (r : regex) : regex :=
  match r with
  | Empty => Empty
  | Eps => Empty
  | Chr a => if (a =? c)%N then Eps else Empty
  | Class p => if p c then Eps else Empty
  | Seq r1 r2 =>
      if nullable r1 then Alt (Seq (deriv c r1) r2) (deriv c r2)
      else Seq (deriv c r1) r2
  | Alt r1 r2 => Alt (deriv c r1) (deriv c r2)
  | Star r1 => Seq (deriv c r1) (Star r1)
  end.

(** [new RegExp('^' + r).test(s)]: some prefix of [s] matches [r]. *)
Fixpoint test (r : regex) (s : jsstring) : bool :=
  nullable r ||
  match s with
  | [] => false
  | c :: s' => test (deriv c r) s'
  end.

(** A literal string followed by [r]. *)
Definition seqLit (p : jsstring) (r : regex) : regex :=
  foldr (fun a acc => Seq (Chr a) acc) r p.

(** The characters with a meaning of their own in a pattern. A role
    interpolated into the pattern stands for itself only when it has none
    of them. *)
Definition isRegexMeta (c : N) : bool :=
  existsb (N.eqb c) (lit "\^$.|?*+()[]{}").

(** [\s*(?:\[[^\]]*\])*\s*:?], the part of the pattern after the role. *)
Definition rolePatternTail : regex :=
  Seq (Star (Class isWhiteSpace))
    (Seq (Star (Seq (Chr 91) (Seq (Star (Class (fun c => negb (c =? 93)%N)))
                                  (Chr 93))))
       (Seq (Star (Class isWhiteSpace)) (Opt (Chr 58)))).

(** [new RegExp(`^- ${expectedRole}\\s*(?:\\[[^\\]]*\\])*\\s*:?`)], for an
    [expectedRole] without pattern characters. *)
Definition rolePattern (expectedRole : jsstring) : regex :=
  seqLit (lit "- " ++ expectedRole) rolePatternTail.

(** *** [_extractPartialSnapshot] *)

Definition selectorToRole : list (jsstring * jsstring) :=
  [ (lit "main", lit "main");
    (lit "header", lit "banner");
    (lit "footer", lit "contentinfo");
    (lit "nav", lit "navigation");
    (lit "aside", lit "complementary");
    (lit "section", lit "region");
    (lit "article", lit "article") ].

(** The own properties of the object literal above ([None]: no such
    property). *)
Fixpoint lookupRole (table : list (jsstring * jsstring)) (key : jsstring)
  : option jsstring :=
  match table with
  | [] => None
  | (k, v) :: rest => if decide (k = key) then Some v else lookupRole rest key
  end.

(** The properties an object literal inherits from [Object.prototype]. *)
Definition objectPrototypeKeys : list jsstring :=
  [ lit "constructor"; lit "toString"; lit "toLocaleString"; lit "valueOf";
    lit "hasOwnProperty"; lit "isPrototypeOf"; lit "propertyIsEnumerable";
    lit "__proto__"; lit "__defineGetter__"; lit "__defineSetter__";
    lit "__lookupGetter__"; lit "__lookupSetter__" ].

(** [selectorToRole[selector] ?? selector]. [None] for a selector that
    names an inherited property: the source then interpolates that
    property (a function or an object) into the pattern, which this
    embedding does not describe. *)
Definition expectedRole (selector : jsstring) : option jsstring :=
  match lookupRole selectorToRole selector with
  | Some role => Some role
  | None =>
      if bool_decide (selector ∈ objectPrototypeKeys) then None
      else Some selector
  end.

(** [line.length - line.trimStart().length] *)
Definition indentOf (line : jsstring) : Z :=
  Z.of_nat (length line - length (trimStart line)).

(** The [for (const line of lines)] loop: [capturing], [captureIndent] and
    [capturedLines] are its three variables; the result is [capturedLines]
    when the loop ends or breaks. *)
Fixpoint captureLoop (pattern : regex) (lines : list jsstring)
    (capturing : bool) (captureIndent : Z) (capturedLines : list jsstring)
  : list jsstring :=
  match lines with
  | [] => capturedLines
  | line :: rest =>
      let indent := indentOf line in
      let trimmedLine := trim line in
      if negb capturing && test pattern trimmedLine then
        captureLoop pattern rest true indent (capturedLines ++ [line])
      else if capturing then
        if (captureIndent <? indent)%Z then
          captureLoop pattern rest capturing captureIndent
            (capturedLines ++ [line])
        else capturedLines
      else captureLoop pattern rest capturing captureIndent capturedLines
  end.

(** The body of [capturedLines.map((line) => ...)]. *)
Definition normalizeLine (minIndent : Z) (line : jsstring) : jsstring :=
  match trim line with
  | [] => line
  | _ :: _ =>
      let currentIndent := indentOf line in
      let newIndent := Z.max 0 (currentIndent - minIndent) in
      repeatSpace (Z.to_nat newIndent) ++ trimStart line
  end.

(** [new RegExp(...)] on the pattern text built from [expectedRole].
    [None] when the role has pattern characters: the source then builds
    another pattern (or fails to build one), which this embedding does not
    describe. *)
Definition compileRolePattern (expectedRole : jsstring) : option regex :=
  if existsb isRegexMeta expectedRole then None
  else Some (rolePattern expectedRole).

(** The body of [_extractPartialSnapshot], given its pattern. *)
Definition extractWith (pattern : regex) (fullSnapshot : jsstring)
  : jsstring :=
  let lines := split_lines fullSnapshot in
  let capturedLines := captureLoop pattern lines false (-1) [] in
  match capturedLines with
  | first :: _ =>
      let minIndent := indentOf first in
      join_lines (List.map (normalizeLine minIndent) capturedLines)
  | [] => fullSnapshot
  end.

(** The pattern [_extractPartialSnapshot] builds for [selector], when
    this embedding describes it. *)
Definition selectorRolePattern (selector : jsstring) : option regex :=
  match expectedRole selector with
  | Some role => compileRolePattern role
  | None => None
  end.

(** [_extractPartialSnapshot(fullSnapshot, selector)] *)
Definition _extractPartialSnapshot (fullSnapshot selector : jsstring)
  : option jsstring :=
  match selectorRolePattern selector with
  | Some pattern => Some (extractWith pattern fullSnapshot)
  | None => None
  end.

(** *** Vocabulary of the statements about extraction *)


(** The line, trimmed, starts with ["- "] and the role: this is when the
    pattern of the source matches it (see [test_rolePattern] below). *)
Definition roleLine (role line : jsstring) : bool :=
  startsWith (trim line) (lit "- " ++ role).





(** The lines [rest] that follow a captured subtree end it: there is
    none, or the first is not indented deeper than [captureIndent]. *)
Definition endsSubtree (captureIndent : Z) (rest : list jsstring) : Prop :=
  match rest with
  | [] => True
  | l :: _ => (indentOf l <= captureIndent)%Z
  end.


End Snapshot.


(** ** Element resolution helpers *)

Module Selectors.
Import JS.

(** One entry of what [tab.resolveElementLocators] resolves to: the
    handle of the located element, when there is one, and the error text,
    when there is one. *)
Record SelectorResolutionResult := {
  locator : option nat;
  error : option jsstring
}.

(** Truthiness of [r.error]: a defined, non-empty string. *)
Definition truthy (e : option jsstring) : bool :=
  match e with
  | Some (_ :: _) => true
  | _ => false
  end.

(** [(r) => r.locator && !r.error] *)
Definition successful (r : SelectorResolutionResult) : bool :=
  match locator r with
  | Some _ => negb (truthy (error r))
  | None => false
  end.

(** [(r) => r.error || 'Unknown error'] *)
Definition errorText (r : SelectorResolutionResult) : jsstring :=
  match error r with
  | Some (c :: e) => c :: e
  | _ => lit "Unknown error"
  end.

(** [`${errorMessage}: ${errors}`] with [errors] the error texts joined
    by [', ']. *)
Definition failureMessage (errorMessage : jsstring)
    (results : list SelectorResolutionResult) : jsstring :=
  errorMessage ++ lit ": " ++ join (lit ", ") (List.map errorText results).

Definition defaultErrorMessage : jsstring :=
  lit "Failed to resolve element selectors".

(** [resolveFirstElement], from the value [tab.resolveElementLocators]
    resolved to on: [inl] is the message of the thrown [Error], [inr] the
    [locator] field of the returned object. *)
Definition resolveFirstElement
    (resolutionResults : list SelectorResolutionResult)
    (errorMessage : jsstring) : jsstring + option nat :=
  let successfulResults := List.filter successful resolutionResults in
  match successfulResults with
  | [] => inl (failureMessage errorMessage resolutionResults)
  | first :: _ => inr (locator first)
  end.

(** [resolveDragElements], from the two values [Promise.all] resolved to
    on. *)
Definition resolveDragElements
    (startResults endResults : list SelectorResolutionResult)
  : jsstring + (option nat * option nat) :=
  let startSuccessful := List.filter successful startResults in
  let endSuccessful := List.filter successful endResults in
  match startSuccessful with
  | [] =>
      inl (failureMessage (lit "Failed to resolve start element selectors")
             startResults)
  | s0 :: _ =>
      match endSuccessful with
      | [] =>
          inl (failureMessage (lit "Failed to resolve end element selectors")
                 endResults)
      | e0 :: _ => inr (locator s0, locator e0)
      end
  end.

End Selectors.

(** ** Configuration constants *)

Module Config.

(** The entries of [TIMEOUTS] ([config/constants.ts]) that [tab.ts] reads,
    in milliseconds. Their values are not fixed here: every operation that
    reads one takes the table as an argument. *)
Record Timeouts := {
  DEFAULT_PAGE_TIMEOUT : Z;
  LONG_DELAY : Z;
  SHORT_DELAY : Z;
  LOAD_STATE_TIMEOUT : Z
}.

(** A table for examples: a page timeout of 5 seconds, delays of 3 and
    0.5 seconds, and the load-state ceiling of 5 seconds that the comment
    in [navigate] names. *)
Definition sampleTimeouts : Timeouts :=
  {| DEFAULT_PAGE_TIMEOUT := 5000;
     LONG_DELAY := 3000;
     SHORT_DELAY := 500;
     LOAD_STATE_TIMEOUT := 5000 |}.

End Config.

(** ** The navigation tracker *)

Module Navigation.
Import Config.

Local Open Scope Z_scope.

Record NavigationTimeouts := {
  navigationTimeout : Z;
  checkInterval : Z;
  staleTimeout : Z
}.

Definition getNavigationTimeouts (T : Timeouts) : NavigationTimeouts :=
  {| navigationTimeout := DEFAULT_PAGE_TIMEOUT T;
     checkInterval := 100;
     staleTimeout := 10000 |}.

(** [_navigationState]. The promise of [navigationPromise] is named by
    the position of its watcher among the watchers created so far. *)
Record NavigationState := {
  ns_isNavigating : bool;
  lastNavigationStart : Z;
  navigationPromise : option nat
}.

Definition set_isNavigating (b : bool) (s : NavigationState)
  : NavigationState :=
  {| ns_isNavigating := b;
     lastNavigationStart := lastNavigationStart s;
     navigationPromise := navigationPromise s |}.

(** A promise made by [_createNavigationPromise]: either its
    [setTimeout(checkComplete, ...)] is pending and due at [due], or
    [resolve()] was called at [at_time]. *)
Inductive Watcher :=
| Polling (due : Z)
| Resolved (at_time : Z).

(** The tracker in its event loop: the clock ([Date.now()]), the state
    object, and the watchers in creation order. *)
Record World := {
  now : Z;
  state : NavigationState;
  watchers : list Watcher
}.

Definition init (t0 : Z) : World :=
  {| now := t0;
     state := {| ns_isNavigating := false;
                 lastNavigationStart := 0;
                 navigationPromise := None |};
     watchers := [] |}.

(** One run of [checkComplete] at time [t]: the state it leaves, and
    whether it called [resolve()] (otherwise it re-armed its timer). *)
Definition checkComplete (T : Timeouts) (t : Z) (s : NavigationState)
  : NavigationState * bool :=
  if negb (ns_isNavigating s) then (s, true)
  else if navigationTimeout (getNavigationTimeouts T)
            <? t - lastNavigationStart s
  then (set_isNavigating false s, true)
  else (s, false).

(** The timers that are due at time [t] fire, oldest watcher first. *)
Fixpoint runTimers (T : Timeouts) (t : Z) (s : NavigationState)
    (ws : list Watcher) : NavigationState * list Watcher :=
  match ws with
  | [] => (s, [])
  | Resolved r :: rest =>
      let '(s', rest') := runTimers T t s rest in (s', Resolved r :: rest')
  | Polling due :: rest =>
      if due <=? t then
        let '(s1, resolved) := checkComplete T t s in
        let w := if resolved then Resolved t
                 else Polling (t + checkInterval (getNavigationTimeouts T)) in
        let '(s', rest') := runTimers T t s1 rest in (s', w :: rest')
      else
        let '(s', rest') := runTimers T t s rest in
        (s', Polling due :: rest')
  end.

(** One millisecond passes. *)
Definition tick (T : Timeouts) (w : World) : World :=
  let t := now w + 1 in
  let '(s, ws) := runTimers T t (state w) (watchers w) in
  {| now := t; state := s; watchers := ws |}.

Fixpoint elapse (T : Timeouts) (ms : nat) (w : World) : World :=
  match ms with
  | O => w
  | S n => elapse T n (tick T w)
  end.

(** [_createNavigationPromise] arms the first timer of a new watcher. *)
Definition _createNavigationPromise (T : Timeouts) (t : Z) : Watcher :=
  Polling (t + checkInterval (getNavigationTimeouts T)).

Definition _handleNavigationStart (T : Timeouts) (w : World) : World :=
  {| now := now w;
     state := {| ns_isNavigating := true;
                 lastNavigationStart := now w;
                 navigationPromise := Some (length (watchers w)) |};
     watchers := watchers w ++ [_createNavigationPromise T (now w)] |}.

Definition _handleNavigationComplete (w : World) : World :=
  {| now := now w;
     state := set_isNavigating false (state w);
     watchers := watchers w |}.

(** The [domcontentloaded] listener of the constructor. *)
Definition onDomContentLoaded (w : World) : World :=
  {| now := now w;
     state := set_isNavigating true (state w);
     watchers := watchers w |}.

(** [isNavigating()]: the value returned and the world it leaves. *)
Definition isNavigating (T : Timeouts) (w : World) : bool * World :=
  let isStale :=
    staleTimeout (getNavigationTimeouts T)
      <? now w - lastNavigationStart (state w) in
  let s := if isStale && ns_isNavigating (state w)
           then set_isNavigating false (state w)
           else state w in
  (ns_isNavigating s, {| now := now w; state := s; watchers := watchers w |}).

(** What happens to the tracker, in order. *)
Inductive Item :=
| Elapse (ms : Z)            (* [ms] milliseconds pass *)
| FrameNavigated             (* main frame [framenavigated] *)
| Load                       (* page [load] *)
| DomContentLoaded           (* page [domcontentloaded] *)
| CallIsNavigating.          (* somebody calls [isNavigating()] *)

Definition step (T : Timeouts) (w : World) (i : Item) : World :=
  match i with
  | Elapse ms => elapse T (Z.to_nat ms) w
  | FrameNavigated => _handleNavigationStart T w
  | Load => _handleNavigationComplete w
  | DomContentLoaded => onDomContentLoaded w
  | CallIsNavigating => snd (isNavigating T w)
  end.

Definition run (T : Timeouts) (items : list Item) (w : World) : World :=
  fold_left (step T) items w.

(** [waitForNavigationComplete()] called in world [w], with [future] what
    then happens: the time at which the caller resumes, [None] when it is
    still suspended after [future]. *)
Definition waitForNavigationComplete (T : Timeouts) (w : World)
    (future : list Item) : option Z :=
  match navigationPromise (state w) with
  | None => Some (now w)
  | Some k =>
      match watchers w !! k with
      | Some (Resolved _) => Some (now w)
      | _ =>
          match watchers (run T future w) !! k with
          | Some (Resolved r) => Some r
          | _ => None
          end
      end
  end.

(** *** The specification's reading of [isNavigating()] *)

(** A navigation is open after [items]: a navigation start occurred and
    no completion event followed the last one. *)
Definition navigationOpen (items : list Item) : bool :=
  fold_left (fun open i =>
               match i with
               | FrameNavigated => true
               | Load => false
               | _ => open
               end) items false.

(** Milliseconds since the last navigation start ([None] before the
    first). *)
Definition sinceLastStart (items : list Item) : option Z :=
  fold_left (fun acc i =>
               match i with
               | FrameNavigated => Some 0
               | Elapse ms => option_map (fun e => e + Z.max 0 ms) acc
               | _ => acc
               end) items None.

(** What the specification says [isNavigating()] returns after [items]:
    true between a navigation start and the earlier of its completion and
    the staleness threshold. *)
Definition spec_isNavigating (items : list Item) : bool :=
  navigationOpen items &&
  match sinceLastStart items with
  | Some e => e <=? 10000
  | None => false
  end.

(** The flag [isNavigating] was set and no completion event followed:
    a navigation start or a [domcontentloaded] occurred, and no [load]
    after the last of them. *)
Definition flagOpen (items : list Item) : bool :=
  fold_left (fun open i =>
               match i with
               | FrameNavigated => true
               | DomContentLoaded => true
               | Load => false
               | _ => open
               end) items false.

(** A [domcontentloaded] occurred and no navigation start followed it. *)
Definition dclSinceStart (items : list Item) : bool :=
  fold_left (fun seen i =>
               match i with
               | FrameNavigated => false
               | DomContentLoaded => true
               | _ => seen
               end) items false.

(** Total time that passes in [items]. *)
Definition duration (items : list Item) : Z :=
  fold_right (fun i acc =>
                match i with
                | Elapse ms => Z.max 0 ms + acc
                | _ => acc
                end) 0 items.

(** *** Invariants of the tracker *)

(** What holds of a watcher at time [t], the last navigation start being
    [last] and the navigation timeout [timeout]: a pending timer is due
    within the next polling interval and its previous run was not yet past
    the timeout; a resolution happened in the past, at the latest one
    polling interval after the timeout. *)
Definition watcherOk (timeout t last : Z) (x : Watcher) : Prop :=
  match x with
  | Polling due => t < due <= t + 100 /\ due - 100 - last <= timeout
  | Resolved r => r <= t /\ r <= last + timeout + 100
  end.

Definition wellFormed (T : Timeouts) (w : World) : Prop :=
  lastNavigationStart (state w) <= now w /\
  Forall (watcherOk (DEFAULT_PAGE_TIMEOUT T) (now w)
            (lastNavigationStart (state w))) (watchers w) /\
  match navigationPromise (state w) with
  | Some k => (k < length (watchers w))%nat
  | None => True
  end.

(** How a watcher may change from time [t] on: a resolution stays, a
    pending timer is re-armed or resolves later than [t], and when it
    resolves [isNavigating] is false afterwards. *)
Definition pollStep (t : Z) (flagAfter : bool) (x x' : Watcher) : Prop :=
  match x, x' with
  | Resolved r, _ => x' = Resolved r
  | Polling _, Polling _ => True
  | Polling _, Resolved r => t < r /\ flagAfter = false
  end.

Definition evolves (t : Z) (x x' : Watcher) : Prop :=
  match x, x' with
  | Resolved r, _ => x' = Resolved r
  | Polling _, Polling _ => True
  | Polling _, Resolved r => t < r
  end.

(** The watchers [ws] evolve into [ws'] from time [t] on, each at its
    position. *)
Definition watchersStep (t : Z) (flagAfter : bool) (ws ws' : list Watcher)
  : Prop :=
  forall k x, ws !! k = Some x ->
              exists x', ws' !! k = Some x' /\ pollStep t flagAfter x x'.

(** The watchers [ws] evolve into [ws'] from time [t] on, whatever
    happens to [isNavigating]. *)
Definition watchersEvolve (t : Z) (ws ws' : list Watcher) : Prop :=
  forall k x, ws !! k = Some x ->
              exists x', ws' !! k = Some x' /\ evolves t x x'.

(** What one step of the tracker preserves and changes. *)
Record stepFacts (T : Timeouts) (w w' : World) : Prop := {
  sf_wellFormed : wellFormed T w';
  sf_now : now w <= now w';
  sf_last : lastNavigationStart (state w) <= lastNavigationStart (state w');
  sf_watchers :
    watchersStep (now w) (ns_isNavigating (state w')) (watchers w) (watchers w')
}.

(** What a run of the tracker preserves and changes. *)
Record runFacts (T : Timeouts) (w w' : World) : Prop := {
  rf_wellFormed : wellFormed T w';
  rf_now : now w <= now w';
  rf_last : lastNavigationStart (state w) <= lastNavigationStart (state w');
  rf_watchers : watchersEvolve (now w) (watchers w) (watchers w')
}.

(** No navigation start among the items. *)
Definition noFrameNavigated (items : list Item) : Prop :=
  Forall (fun i => i <> FrameNavigated) items.

(** Neither a navigation start nor a [domcontentloaded] among the
    items: nothing that sets [isNavigating]. *)
Definition quiet (items : list Item) : Prop :=
  Forall (fun i => i <> FrameNavigated /\ i <> DomContentLoaded) items.

(** What becomes of a watcher by time [t] while [isNavigating] is false:
    its timer, once due, resolves it. *)
Definition idleUntil (t : Z) (x : Watcher) : Watcher :=
  match x with
  | Polling due => if due <=? t then Resolved due else Polling due
  | Resolved r => Resolved r
  end.

(** The timers pending in [w] are due in the future. *)
Definition timersAhead (w : World) : Prop :=
  Forall (fun x => match x with
                   | Polling due => now w < due
                   | Resolved _ => True
                   end) (watchers w).


End Navigation.

(** ** The tab session: buffers, modal states, snapshots, navigation *)

Module Session.
Import JS Config.

(** [ConsoleMessage]: [cm_rendered] is what [toString()] returns. *)
Record ConsoleMessage := {
  cm_type : option jsstring;
  cm_text : jsstring;
  cm_rendered : jsstring
}.

Inductive ModalType := dialog | fileChooser.

(** [ModalState]: [ms_handle] names the driver's dialog or file chooser
    object, which is what tells two modal states apart. *)
Record ModalState := {
  ms_type : ModalType;
  ms_description : jsstring;
  ms_handle : nat
}.

(** An entry of [_downloads]. *)
Record DownloadEntry := {
  download : nat;
  finished : bool;
  outputFile : jsstring
}.

#[global] Instance ConsoleMessage_eq_dec : EqDecision ConsoleMessage.
Proof. solve_decision. Defined.

#[global] Instance ModalType_eq_dec : EqDecision ModalType.
Proof. solve_decision. Defined.

#[global] Instance ModalState_eq_dec : EqDecision ModalState.
Proof. solve_decision. Defined.

Module TabSnapshot.
Record t := {
  url : jsstring;
  title : jsstring;
  ariaSnapshot : jsstring;
  modalStates : list ModalState;
  consoleMessages : list ConsoleMessage;
  downloads : list DownloadEntry
}.
End TabSnapshot.

(** The fields of [Tab] the operations below read or write; requests and
    responses are named by the driver's handles. [pageUrl] is what
    [this.page.url()] returns. *)
Record Tab := {
  _lastTitle : jsstring;
  _consoleMessages : list ConsoleMessage;
  _recentConsoleMessages : list ConsoleMessage;
  _requests : gmap nat (option nat);
  _modalStates : list ModalState;
  _downloads : list DownloadEntry;
  pageUrl : jsstring
}.

Definition set_lastTitle (v : jsstring) (t : Tab) : Tab :=
  {| _lastTitle := v;
     _consoleMessages := _consoleMessages t;
     _recentConsoleMessages := _recentConsoleMessages t;
     _requests := _requests t;
     _modalStates := _modalStates t;
     _downloads := _downloads t;
     pageUrl := pageUrl t |}.

Definition set_recentConsoleMessages (v : list ConsoleMessage) (t : Tab)
  : Tab :=
  {| _lastTitle := _lastTitle t;
     _consoleMessages := _consoleMessages t;
     _recentConsoleMessages := v;
     _requests := _requests t;
     _modalStates := _modalStates t;
     _downloads := _downloads t;
     pageUrl := pageUrl t |}.

Definition set_requests (v : gmap nat (option nat)) (t : Tab) : Tab :=
  {| _lastTitle := _lastTitle t;
     _consoleMessages := _consoleMessages t;
     _recentConsoleMessages := _recentConsoleMessages t;
     _requests := v;
     _modalStates := _modalStates t;
     _downloads := _downloads t;
     pageUrl := pageUrl t |}.

Definition set_modalStates (v : list ModalState) (t : Tab) : Tab :=
  {| _lastTitle := _lastTitle t;
     _consoleMessages := _consoleMessages t;
     _recentConsoleMessages := _recentConsoleMessages t;
     _requests := _requests t;
     _modalStates := v;
     _downloads := _downloads t;
     pageUrl := pageUrl t |}.

(** [modalStates()] *)
Definition modalStates (t : Tab) : list ModalState := _modalStates t.

(** [consoleMessages()] *)
Definition consoleMessages (t : Tab) : list ConsoleMessage :=
  _consoleMessages t.

(** [clearModalState] *)
Definition clearModalState (m : ModalState) (t : Tab) : Tab :=
  set_modalStates
    (List.filter (fun state => negb (bool_decide (state = m))) (_modalStates t))
    t.

Definition _handleConsoleMessage (message : ConsoleMessage) (t : Tab) : Tab :=
  {| _lastTitle := _lastTitle t;
     _consoleMessages := _consoleMessages t ++ [message];
     _recentConsoleMessages := _recentConsoleMessages t ++ [message];
     _requests := _requests t;
     _modalStates := _modalStates t;
     _downloads := _downloads t;
     pageUrl := pageUrl t |}.

Definition _clearCollectedArtifacts (t : Tab) : Tab :=
  {| _lastTitle := _lastTitle t;
     _consoleMessages := [];
     _recentConsoleMessages := [];
     _requests := ∅;
     _modalStates := _modalStates t;
     _downloads := _downloads t;
     pageUrl := pageUrl t |}.

(** *** The event loop around the tab *)

(** What the driver answers to the call an action is waiting for. *)
Inductive Answer :=
| AnsSnapshot (full url title : jsstring)   (* [_snapshotForAI()], [url()], [title()] *)
| AnsTitle (title : jsstring)               (* [page.title()] *)
| AnsDone.

(** How the promise of an action settles. *)
Inductive Settlement :=
| Fulfilled (a : Answer)
| Rejected (e : jsstring).

(** What the event loop delivers to the tab. *)
Inductive Event :=
| EvConsole (m : ConsoleMessage)     (* page [console] or [pageerror] *)
| EvRequest (rq : nat)               (* page [request] *)
| EvResponse (rq rs : nat)           (* page [response] *)
| EvModal (m : ModalState)           (* page [dialog] or [filechooser] *)
| EvClose                            (* page [close] *)
| EvSettled (call : nat) (s : Settlement).
                                     (* the action started by [call] settles *)

(** Calls the tab makes to its collaborators. *)
Inductive Effect :=
| FxActionStarted (call : nat)       (* [action()] *)
| FxPageClosed                       (* [this._onPageClose(this)] *)
| FxWaitForDownload                  (* [page.waitForEvent('download')] *)
| FxGoto (url : jsstring)            (* [page.goto(url, ...)] *)
| FxWaitForLoadState (timeout : Z).  (* [page.waitForLoadState('load', ...)] *)

(** The rest of an action's body, run when the driver answers: what it
    does to the fields of the tab, and the value it assigns to the
    variable [tabSnapshot] of the call that started it, if it assigns
    one. *)
Definition Continuation : Type :=
  Answer -> Tab -> Tab * option TabSnapshot.t.

(** The tab in its event loop: its fields; the [once] listeners
    registered for its [modalState] event, each named by the call that
    registered it; the actions started and not yet settled; the calls made
    to collaborators so far; the number of actions started so far (which
    names the next one). *)
Record World := {
  tab : Tab;
  modalStateListeners : list nat;
  running : gmap nat Continuation;
  effects : list Effect;
  calls : nat
}.

Definition set_tab (t : Tab) (w : World) : World :=
  {| tab := t; modalStateListeners := modalStateListeners w;
     running := running w; effects := effects w; calls := calls w |}.

(** [setModalState]: the push, then the [emit], which runs every
    registered listener and, all of them being [once] listeners, leaves
    none registered. *)
Definition setModalState (m : ModalState) (w : World) : World :=
  {| tab := set_modalStates (_modalStates (tab w) ++ [m]) (tab w);
     modalStateListeners := [];
     running := running w; effects := effects w; calls := calls w |}.

(** [_onClose] *)
Definition _onClose (w : World) : World :=
  {| tab := _clearCollectedArtifacts (tab w);
     modalStateListeners := modalStateListeners w;
     running := running w;
     effects := effects w ++ [FxPageClosed];
     calls := calls w |}.

(** The listeners of the constructor, and the settlement of an action
    nobody is racing any more: its continuation still runs, the value it
    assigns to its caller's variable is never read. *)
Definition dispatch (w : World) (ev : Event) : World :=
  match ev with
  | EvConsole m => set_tab (_handleConsoleMessage m (tab w)) w
  | EvRequest rq =>
      set_tab (set_requests (<[rq := None]> (_requests (tab w))) (tab w)) w
  | EvResponse rq rs =>
      set_tab (set_requests (<[rq := Some rs]> (_requests (tab w))) (tab w)) w
  | EvModal m => setModalState m w
  | EvClose => _onClose w
  | EvSettled call s =>
      match running w !! call with
      | None => w
      | Some k =>
          let t := match s with
                   | Fulfilled a => fst (k a (tab w))
                   | Rejected _ => tab w
                   end in
          {| tab := t; modalStateListeners := modalStateListeners w;
             running := delete call (running w);
             effects := effects w; calls := calls w |}
      end
  end.

(** *** [_raceAgainstModalStates] *)

Inductive RaceResult :=
| RaceReturned (modalStates : list ModalState)
| RaceThrew (e : jsstring)
| RacePending.                  (* neither promise settled on this schedule *)

(** [this.once(TabEvents.modalState, listener)], then [action()]: the
    call is given the next number. *)
Definition startRace (action : Continuation) (w : World) : World :=
  {| tab := tab w;
     modalStateListeners := modalStateListeners w ++ [calls w];
     running := <[calls w := action]> (running w);
     effects := effects w ++ [FxActionStarted (calls w)];
     calls := S (calls w) |}.

(** The action of [call] fulfilled and left the fields [t]: the callback
    of [then] removes the listener of [call]. *)
Definition actionWon (call : nat) (t : Tab) (w : World) : World :=
  {| tab := t;
     modalStateListeners :=
       List.filter (fun c => negb (c =? call)) (modalStateListeners w);
     running := delete call (running w);
     effects := effects w; calls := calls w |}.

(** The action of [call] rejected. *)
Definition actionFailed (call : nat) (w : World) : World :=
  {| tab := tab w;
     modalStateListeners := modalStateListeners w;
     running := delete call (running w);
     effects := effects w; calls := calls w |}.

(** The call suspended on [Promise.race]: events are delivered until its
    own listener fires or its own action settles. [var] is the variable
    [tabSnapshot] of the caller. The result comes with what is left of the
    schedule. *)
Fixpoint raceLoop (call : nat) (var : option TabSnapshot.t) (w : World)
    (schedule : list Event)
  : RaceResult * option TabSnapshot.t * World * list Event :=
  match schedule with
  | [] => (RacePending, var, w, [])
  | ev :: rest =>
      match ev with
      | EvModal m =>
          let listening := bool_decide (call ∈ modalStateListeners w) in
          let w' := dispatch w ev in
          if listening then (RaceReturned [m], var, w', rest)
          else raceLoop call var w' rest
      | EvSettled c s =>
          if bool_decide (c = call) then
            match running w !! call, s with
            | Some k, Fulfilled a =>
                let '(t, v) := k a (tab w) in
                (RaceReturned [], v, actionWon call t w, rest)
            | Some k, Rejected e => (RaceThrew e, var, actionFailed call w, rest)
            | None, _ => raceLoop call var w rest
            end
          else raceLoop call var (dispatch w ev) rest
      | _ => raceLoop call var (dispatch w ev) rest
      end
  end.

(** [_raceAgainstModalStates(action)], [action] given by its
    continuation. *)
Definition _raceAgainstModalStates (action : Continuation) (w : World)
    (schedule : list Event)
  : RaceResult * option TabSnapshot.t * World * list Event :=
  match modalStates (tab w) with
  | _ :: _ => (RaceReturned (modalStates (tab w)), None, w, schedule)
  | [] => raceLoop (calls w) None (startRace action w) schedule
  end.

(** [updateTitle]'s action: [this._lastTitle = await ...page.title()]. *)
Definition updateTitleAction : Continuation :=
  fun a t =>
    match a with
    | AnsTitle title => (set_lastTitle title t, None)
    | _ => (t, None)
    end.

Definition updateTitle (w : World) (schedule : list Event)
  : RaceResult * World * list Event :=
  let '(r, _, w', rest) := _raceAgainstModalStates updateTitleAction w schedule in
  (r, w', rest).

(** *** [_captureSnapshotInternal] *)

(** The pattern a call with [selector] extracts with: [Some None] when
    [if (selector)] fails (no selector, or the empty one), [None] when the
    pattern is not described (see [Snapshot.selectorRolePattern]). *)
Definition selectorPattern (selector : option jsstring)
  : option (option Snapshot.regex) :=
  match selector with
  | Some (c :: sel) =>
      match Snapshot.selectorRolePattern (c :: sel) with
      | Some pattern => Some (Some pattern)
      | None => None
      end
  | _ => Some None
  end.

(** The action of [_captureSnapshotInternal]. The snapshot takes the
    downloads list as it is then (the source shares the array). *)
Definition captureAction (pattern : option Snapshot.regex)
    (maxLength : option nat) : Continuation :=
  fun a t =>
    match a with
    | AnsSnapshot full url title =>
        let snapshot :=
          match pattern with
          | Some pat => Snapshot.extractWith pat full
          | None => full
          end in
        let snapshot :=
          match maxLength with
          | Some (S n) =>
              if S n <? length snapshot
              then Snapshot._truncateAtWordBoundary snapshot (S n)
              else snapshot
          | _ => snapshot
          end in
        (t, Some {| TabSnapshot.url := url;
                    TabSnapshot.title := title;
                    TabSnapshot.ariaSnapshot := snapshot;
                    TabSnapshot.modalStates := [];
                    TabSnapshot.consoleMessages := [];
                    TabSnapshot.downloads := _downloads t |})
    | _ => (t, None)
    end.

Inductive CaptureResult :=
| Captured (snapshot : TabSnapshot.t)
| CaptureThrew (e : jsstring)
| CapturePending.

(** [_captureSnapshotInternal], its action given. *)
Definition captureWith (action : Continuation) (w : World)
    (schedule : list Event) : CaptureResult * World * list Event :=
  let '(r, tabSnapshot, w', rest) :=
    _raceAgainstModalStates action w schedule in
  match r with
  | RaceReturned modalStates =>
      match tabSnapshot with
      | Some snap =>
          (Captured
             {| TabSnapshot.url := TabSnapshot.url snap;
                TabSnapshot.title := TabSnapshot.title snap;
                TabSnapshot.ariaSnapshot := TabSnapshot.ariaSnapshot snap;
                TabSnapshot.modalStates := TabSnapshot.modalStates snap;
                TabSnapshot.consoleMessages := _recentConsoleMessages (tab w');
                TabSnapshot.downloads := TabSnapshot.downloads snap |},
           set_tab (set_recentConsoleMessages [] (tab w')) w', rest)
      | None =>
          (Captured
             {| TabSnapshot.url := pageUrl (tab w');
                TabSnapshot.title := [];
                TabSnapshot.ariaSnapshot := [];
                TabSnapshot.modalStates := modalStates;
                TabSnapshot.consoleMessages := [];
                TabSnapshot.downloads := [] |},
           w', rest)
      end
  | RaceThrew e => (CaptureThrew e, w', rest)
  | RacePending => (CapturePending, w', rest)
  end.

(** [_captureSnapshotInternal(selector, maxLength)]. [None]: the call
    starts an action whose pattern is not described. With a modal state
    present the action is not started, whatever its pattern. *)
Definition _captureSnapshotInternal (selector : option jsstring)
    (maxLength : option nat) (w : World) (schedule : list Event)
  : option (CaptureResult * World * list Event) :=
  match selectorPattern selector with
  | Some pattern => Some (captureWith (captureAction pattern maxLength) w schedule)
  | None =>
      match modalStates (tab w) with
      | _ :: _ => Some (captureWith (captureAction None maxLength) w schedule)
      | [] => None
      end
  end.

Definition captureSnapshot (w : World) (schedule : list Event) :=
  _captureSnapshotInternal None None w schedule.

Definition capturePartialSnapshot (selector : option jsstring)
    (maxLength : option nat) (w : World) (schedule : list Event) :=
  _captureSnapshotInternal selector maxLength w schedule.

(** *** [navigate] *)

(** How the promise [downloadEvent] settles, in milliseconds after the
    rejection of [page.goto] (negative: before it): with a download, or
    with [undefined] when [waitForEvent] failed and the failure was
    logged. *)
Inductive DownloadWait :=
| DownloadSettled (after : Z) (download : option nat)
| DownloadNever.

(** What the driver does during one [navigate]. [gotoRejects] is the
    message of the error [page.goto] rejects with, [None] when it
    resolves; [duringGoto] is delivered while [page.goto] is awaited;
    [loadAfter] is when the [load] state is reached, in milliseconds
    after [page.goto] resolved; [afterGoto] is delivered while [navigate]
    awaits what it awaits after [page.goto] settled (the race of the
    download event with the [LONG_DELAY] timer and the [SHORT_DELAY]
    timer, or [waitForLoadState]), until it returns or throws. *)
Record NavigateEnv := {
  gotoRejects : option jsstring;
  duringGoto : list Event;
  downloadEvent : DownloadWait;
  loadAfter : option Z;
  afterGoto : list Event
}.

(** [waitForLoadState('load', { timeout })]: the time until it resolves.
    The driver resolves when the state is reached and rejects when
    [timeout] milliseconds have passed ([0] switches the timeout off); the
    rejection is caught and logged. [None]: it never resolves. *)
Definition waitForLoadState (timeout : Z) (loadAfter : option Z) : option Z :=
  match loadAfter with
  | Some d =>
      if (timeout =? 0)%Z || (d <=? timeout)%Z then Some (Z.max 0 d)
      else Some timeout
  | None => if (timeout =? 0)%Z then None else Some timeout
  end.

(** [NavigateReturned waited]: [navigate] returned, having waited
    [waited] milliseconds after [page.goto] settled. *)
Inductive NavigateResult :=
| NavigateReturned (waited : Z)
| NavigateThrew (message : jsstring)
| NavigatePending.

(** [mightBeDownload] *)
Definition mightBeDownload (message : jsstring) : bool :=
  includes message (lit "net::ERR_ABORTED")
  || includes message (lit "Download is starting").

(** [navigate] throws as soon as [page.goto] rejected: the error is not
    one that a download may have caused. *)
Definition throwsAtOnce (env : NavigateEnv) : bool :=
  match gotoRejects env with
  | Some message => negb (mightBeDownload message)
  | None => false
  end.

(** The events delivered while [navigate] is under way. *)
Definition navigateEvents (env : NavigateEnv) : list Event :=
  duringGoto env ++ (if throwsAtOnce env then [] else afterGoto env).

Definition set_effects (fx : list Effect) (w : World) : World :=
  {| tab := tab w; modalStateListeners := modalStateListeners w;
     running := running w; effects := fx; calls := calls w |}.

Definition navigate (T : Timeouts) (url : jsstring) (env : NavigateEnv)
    (w : World) : NavigateResult * World :=
  let w1 := {| tab := _clearCollectedArtifacts (tab w);
               modalStateListeners := modalStateListeners w;
               running := running w;
               effects := effects w ++ [FxWaitForDownload; FxGoto url];
               calls := calls w |} in
  let w2 := fold_left dispatch (duringGoto env) w1 in
  match gotoRejects env with
  | Some message =>
      if negb (mightBeDownload message) then (NavigateThrew message, w2)
      else
        (* [Promise.race] of [downloadEvent] and the [LONG_DELAY] timer,
           then the [SHORT_DELAY] timer *)
        let w3 := fold_left dispatch (afterGoto env) w2 in
        match downloadEvent env with
        | DownloadSettled after (Some _) =>
            if (after <? LONG_DELAY T)%Z
            then (NavigateReturned (Z.max 0 after + SHORT_DELAY T)%Z, w3)
            else (NavigateThrew message, w3)
        | _ => (NavigateThrew message, w3)
        end
  | None =>
      let w3 := set_effects
                  (effects w2 ++ [FxWaitForLoadState (LOAD_STATE_TIMEOUT T)])
                  w2 in
      let w4 := fold_left dispatch (afterGoto env) w3 in
      match waitForLoadState (LOAD_STATE_TIMEOUT T) (loadAfter env) with
      | Some waited => (NavigateReturned waited, w4)
      | None => (NavigatePending, w4)
      end
  end.

(** *** Sessions *)

(** What a caller and the page do to a tab, in order. The events of a
    capture are delivered while the call is suspended; those it leaves are
    delivered after it returned. *)
Inductive Step :=
| Deliver (ev : Event)
| Capture (selector : option jsstring) (maxLength : option nat)
          (during : list Event)
| ClearModal (m : ModalState)
| Navigate (url : jsstring) (env : NavigateEnv).

(** One step: the world it leaves and the snapshot it returned, if it
    returned one; [None] for a capture that is not described. *)
Definition sessionStep (T : Timeouts) (w : World) (s : Step)
  : option (World * option TabSnapshot.t) :=
  match s with
  | Deliver ev => Some (dispatch w ev, None)
  | Capture selector maxLength during =>
      match _captureSnapshotInternal selector maxLength w during with
      | Some (Captured snap, w', rest) =>
          Some (fold_left dispatch rest w', Some snap)
      | Some (_, w', rest) => Some (fold_left dispatch rest w', None)
      | None => None
      end
  | ClearModal m => Some (set_tab (clearModalState m (tab w)) w, None)
  | Navigate url env => Some (snd (navigate T url env w), None)
  end.

(** A session: the world it leaves and the snapshots it returned, oldest
    first. *)
Fixpoint session (T : Timeouts) (w : World) (steps : list Step)
  : option (World * list TabSnapshot.t) :=
  match steps with
  | [] => Some (w, [])
  | s :: rest =>
      match sessionStep T w s with
      | None => None
      | Some (w1, out) =>
          match session T w1 rest with
          | None => None
          | Some (w2, outs) =>
              Some (w2, match out with
                        | Some snap => snap :: outs
                        | None => outs
                        end)
          end
      end
  end.

(** The console messages a list of events delivers. *)
Definition consoleOf (evs : list Event) : list ConsoleMessage :=
  flat_map (fun ev => match ev with EvConsole m => [m] | _ => [] end) evs.

(** The console messages a session delivers. *)
Definition arrivals (steps : list Step) : list ConsoleMessage :=
  flat_map (fun s =>
              match s with
              | Deliver ev => consoleOf [ev]
              | Capture _ _ during => consoleOf during
              | Navigate _ env => consoleOf (navigateEvents env)
              | ClearModal _ => []
              end) steps.

(** The fields of a tab as the constructor leaves them, on a page at
    [url]. *)
Definition newTab (url : jsstring) : Tab :=
  {| _lastTitle := lit "about:blank";
     _consoleMessages := [];
     _recentConsoleMessages := [];
     _requests := ∅;
     _modalStates := [];
     _downloads := [];
     pageUrl := url |}.

Definition newWorld (url : jsstring) : World :=
  {| tab := newTab url; modalStateListeners := []; running := ∅;
     effects := []; calls := 0 |}.

(** *** Vocabulary of the statements about the session *)

(** Before the race of [call] is decided: no modal state is added and the
    action of [call] does not settle. *)
Definition undecided (call : nat) (evs : list Event) : Prop :=
  Forall (fun ev => match ev with
                    | EvModal _ => False
                    | EvSettled c _ => c <> call
                    | _ => True
                    end) evs.

(** The actions that are running leave the fields of the tab alone. *)
Definition bystanders (w : World) : Prop :=
  forall call k, running w !! call = Some k ->
                 forall a t, fst (k a t) = t.

(** The number of notifications of the owning context among the calls
    made. *)
Definition closeNotifications (fx : list Effect) : nat :=
  length (List.filter (fun e => match e with FxPageClosed => true | _ => false end)
            fx).

(** The number of [close] events among the events. *)
Definition closeEvents (evs : list Event) : nat :=
  length (List.filter (fun e => match e with EvClose => true | _ => false end)
            evs).

(** The console messages of the snapshot a capture returned, if it
    returned one. *)
Definition consoleOfResult (r : CaptureResult) : list ConsoleMessage :=
  match r with
  | Captured snap => TabSnapshot.consoleMessages snap
  | _ => []
  end.

(** Counting the occurrences of a console message. *)
Abbreviation occurrences l m := (count_occ ConsoleMessage_eq_dec l m).

(** The console messages attached to the snapshots. *)
Definition attached (snaps : list TabSnapshot.t) : list ConsoleMessage :=
  flat_map TabSnapshot.consoleMessages snaps.

End Session.

(** ** Lines of a snapshot text *)

Module Lines.
Import JS.

(** The line holds no line break, as every element of [s.split('\n')]. *)
Definition noLF (l : jsstring) : Prop := Forall (fun c => c <> LF) l.

End Lines.

(** ** Modal states: what they block and how they are shown *)

Module Modal.
Import JS Session.

Definition QUOTE : N := 34.

(** The modal state [_dialogShown] makes of a dialog: [type] and
    [message] are what [dialog.type()] and [dialog.message()] return. *)
Definition dialogState (type message : jsstring) (handle : nat) : ModalState :=
  {| ms_type := dialog;
     ms_description := QUOTE :: type ++ QUOTE :: lit " dialog with message "
                       ++ QUOTE :: message ++ [QUOTE];
     ms_handle := handle |}.

(** The [dialog] listener of the constructor, [_dialogShown]. *)
Definition _dialogShown (type message : jsstring) (handle : nat) (w : World)
  : World :=
  setModalState (dialogState type message handle) w.

(** The [filechooser] listener of the constructor. *)
Definition onFileChooser (handle : nat) (w : World) : World :=
  setModalState
    {| ms_type := fileChooser;
       ms_description := lit "File chooser";
       ms_handle := handle |} w.

(** [_javaScriptBlocked] *)
Definition _javaScriptBlocked (t : Tab) : bool :=
  existsb (fun state => bool_decide (ms_type state = dialog)) (_modalStates t).

(** Where [waitForTimeout] lets the time pass: in a timer of its own, or
    in a timer it has the page run ([page.evaluate]). *)
Inductive TimeoutWait :=
| LocalTimer (time : Z)
| PageTimer (time : Z).

Definition waitForTimeout (time : Z) (t : Tab) : TimeoutWait :=
  if _javaScriptBlocked t then LocalTimer time else PageTimer time.

(** A tool of [context.tools], as far as [renderModalStates] reads it:
    its [schema.name], and its [clearsModalState] when it has one that is
    the type of a modal state ([None] otherwise: such a tool is never the
    one found, whether or not it passes the filter). *)
Record Tool := {
  schema_name : jsstring;
  clearsModalState : option ModalType
}.

(** [context.tools.filter(...).find(...)] *)
Definition toolFor (tools : list Tool) (state : ModalState) : option Tool :=
  List.find (fun t => bool_decide (clearsModalState t = Some (ms_type state)))
    (List.filter (fun t => bool_decide (is_Some (clearsModalState t))) tools).

(** [`${tool?.schema.name}`] *)
Definition toolName (tool : option Tool) : jsstring :=
  match tool with
  | Some t => schema_name t
  | None => lit "undefined"
  end.

(** The line pushed for one modal state. *)
Definition renderModalState (tools : list Tool) (state : ModalState)
  : jsstring :=
  lit "- [" ++ ms_description state ++ lit "]: can be handled by the "
  ++ QUOTE :: toolName (toolFor tools state) ++ QUOTE :: lit " tool".

Definition renderModalStates (tools : list Tool)
    (modalStates : list ModalState) : list jsstring :=
  let result := [lit "### Modal state"] in
  let result :=
    if length modalStates =? 0
    then result ++ [lit "- There is no modal state present"]
    else result in
  fold_left (fun result state => result ++ [renderModalState tools state])
    modalStates result.

(** [modalStatesMarkdown] *)
Definition modalStatesMarkdown (tools : list Tool) (t : Tab) : list jsstring :=
  renderModalStates tools (modalStates t).

End Modal.

(** ** Properties of a tab that a session keeps *)

Module Invariants.
Import JS Config Session.

(** [I] is kept by what the listeners and the operations of a session do
    to the fields of a tab, [clearModalState] being called only with modal
    states that [mayClear] allows. *)
Record kept (I : Tab -> Prop) (mayClear : ModalState -> Prop) : Prop := {
  kept_console : forall m t, I t -> I (_handleConsoleMessage m t);
  kept_requests : forall v t, I t -> I (set_requests v t);
  kept_modal : forall m t, I t -> I (set_modalStates (_modalStates t ++ [m]) t);
  kept_artifacts : forall t, I t -> I (_clearCollectedArtifacts t);
  kept_drain : forall t, I t -> I (set_recentConsoleMessages [] t);
  kept_clearModal : forall m t, mayClear m -> I t -> I (clearModalState m t)
}.

(** The steps call [clearModalState] only with modal states that
    [mayClear] allows. *)
Definition clearsOnly (mayClear : ModalState -> Prop) (steps : list Step)
  : Prop :=
  Forall (fun s => match s with
                   | ClearModal m => mayClear m
                   | _ => True
                   end) steps.

(** The recent console messages are the last entries of the history. *)
Definition recentInHistory (t : Tab) : Prop :=
  _recentConsoleMessages t `suffix_of` _consoleMessages t.

(** The events neither close the page nor bring a request or a response
    event for the request [rq]. *)
Definition silentAbout (rq : nat) (evs : list Event) : Prop :=
  Forall (fun ev => match ev with
                    | EvClose => False
                    | EvRequest r => r <> rq
                    | EvResponse r _ => r <> rq
                    | _ => True
                    end) evs.

(** The page is not closed by any of the events. *)
Definition stayOpen (evs : list Event) : Prop :=
  Forall (fun ev => ev <> EvClose) evs.

(** The steps neither close the page nor navigate: nothing in them
    clears the console buffers. *)
Definition keepsConsole (steps : list Step) : Prop :=
  Forall (fun s => match s with
                   | Deliver ev => ev <> EvClose
                   | Capture _ _ during => stayOpen during
                   | ClearModal _ => True
                   | Navigate _ _ => False
                   end) steps.

(** The snapshot text is at most [n] characters long. *)
Definition ariaWithin (n : nat) (v : option TabSnapshot.t) : Prop :=
  match v with
  | Some snap => length (TabSnapshot.ariaSnapshot snap) <= n
  | None => True
  end.

End Invariants.

(** ** Custom element references *)

Module Refs.
Import JS.

Definition UNDERSCORE : N := 95.

(** The digits of a decimal numeral, as characters. *)
Fixpoint digitsOf (u : Decimal.uint) : jsstring :=
  match u with
  | Decimal.Nil => []
  | Decimal.D0 u => 48%N :: digitsOf u
  | Decimal.D1 u => 49%N :: digitsOf u
  | Decimal.D2 u => 50%N :: digitsOf u
  | Decimal.D3 u => 51%N :: digitsOf u
  | Decimal.D4 u => 52%N :: digitsOf u
  | Decimal.D5 u => 53%N :: digitsOf u
  | Decimal.D6 u => 54%N :: digitsOf u
  | Decimal.D7 u => 55%N :: digitsOf u
  | Decimal.D8 u => 56%N :: digitsOf u
  | Decimal.D9 u => 57%N :: digitsOf u
  end.

(** [`${n}`] for a number that holds a non-negative integer below 10^21:
    its decimal digits. *)
Definition numberToString (n : N) : jsstring := digitsOf (N.to_uint n).

(** The largest value [_customRefCounter] reaches: 2^53. *)
Definition COUNTER_LIMIT : N := 9007199254740992.

(** [n++] on a number that holds an integer between 0 and 2^53, which is
    what [_customRefCounter] holds: at 2^53 the sum 2^53 + 1 is rounded
    back to 2^53. *)
Definition increment (n : N) : N :=
  if (n <? COUNTER_LIMIT)%N then (n + 1)%N else n.

Record CustomRefOptions := {
  batchId : option jsstring
}.

(** The two fields of [Tab] that the custom reference operations use. *)
Record RefState := {
  _customRefMappings : gmap jsstring jsstring;
  _customRefCounter : N
}.

Definition newRefState : RefState :=
  {| _customRefMappings := ∅; _customRefCounter := 0 |}.

Definition registerCustomRef (ref selector : jsstring) (st : RefState)
  : RefState :=
  {| _customRefMappings := <[ref := selector]> (_customRefMappings st);
     _customRefCounter := _customRefCounter st |}.

Definition unregisterCustomRef (ref : jsstring) (st : RefState) : RefState :=
  {| _customRefMappings := delete ref (_customRefMappings st);
     _customRefCounter := _customRefCounter st |}.

Definition clearCustomRefs (st : RefState) : RefState :=
  {| _customRefMappings := ∅;
     _customRefCounter := _customRefCounter st |}.

(** [getNextCustomRefId(options)]: the identifier returned and the state
    left. *)
Definition getNextCustomRefId (options : option CustomRefOptions)
    (st : RefState) : jsstring * RefState :=
  let counter := increment (_customRefCounter st) in
  let st' := {| _customRefMappings := _customRefMappings st;
                _customRefCounter := counter |} in
  match options with
  | Some {| batchId := Some (c :: id) |} =>
      (lit "batch_" ++ (c :: id) ++ lit "_element_" ++ numberToString counter,
       st')
  | _ => (lit "element_" ++ numberToString counter, st')
  end.

(** Calls of the custom reference operations. *)
Inductive RefCall :=
| Register (ref selector : jsstring)
| Unregister (ref : jsstring)
| Clear
| NextId (options : option CustomRefOptions).

(** A sequence of calls: the identifiers [getNextCustomRefId] returned,
    oldest first, and the state left. *)
Fixpoint callAll (calls : list RefCall) (st : RefState)
  : list jsstring * RefState :=
  match calls with
  | [] => ([], st)
  | Register ref selector :: rest => callAll rest (registerCustomRef ref selector st)
  | Unregister ref :: rest => callAll rest (unregisterCustomRef ref st)
  | Clear :: rest => callAll rest (clearCustomRefs st)
  | NextId options :: rest =>
      let '(id, st1) := getNextCustomRefId options st in
      let '(ids, st2) := callAll rest st1 in
      (id :: ids, st2)
  end.

(** The identifier ends with an underscore followed by the digits of
    [n]. *)
Definition numbered (id : jsstring) (n : N) : Prop :=
  exists stem, id = stem ++ UNDERSCORE :: numberToString n.

End Refs.

(** ** Locators for the elements of a tool call *)

Module Locators.
Import JS.

(** An element of [params]: what the caller calls the element, and its
    selector, named by a handle ([None]: a selector that is not there). *)
Record LocatorParam := {
  element : jsstring;
  selector : option nat
}.

(** What the selector resolver resolves one selector to. [alternatives]
    is the text [JSON.stringify] makes of the field, when it is there. *)
Record EnhancedSelectorResult := {
  locator : option nat;
  error : option jsstring;
  alternatives : option jsstring
}.

(** [locator.describe(element)] *)
Record DescribedLocator := {
  described : nat;
  description : jsstring
}.

(** What is thrown: an [Error] with a message, or the [TypeError] of a
    property read from [undefined]. *)
Inductive Thrown :=
| ErrorMessage (message : jsstring)
| TypeError.

(** The callback of [params.map]. *)
Fixpoint selectorsOf (params : list LocatorParam) : Thrown + list nat :=
  match params with
  | [] => inr []
  | p :: rest =>
      match selector p with
      | None =>
          inl (ErrorMessage (lit "Missing selector for element: " ++ element p))
      | Some s =>
          match selectorsOf rest with
          | inl e => inl e
          | inr selectors => inr (s :: selectors)
          end
      end
  end.

(** [result.error || !result.locator] *)
Definition failed (result : EnhancedSelectorResult) : bool :=
  match error result, locator result with
  | Some (_ :: _), _ => true
  | _, None => true
  | _, Some _ => false
  end.

(** [errorMessage + alternativesMessage] *)
Definition failureText (elementName : jsstring)
    (result : EnhancedSelectorResult) : jsstring :=
  let errorMessage :=
    lit "Failed to resolve selector for element " ++ 34%N :: elementName
    ++ 34%N :: lit ": "
    ++ match error result with
       | Some (c :: e) => c :: e
       | _ => lit "Unknown error"
       end in
  let alternativesMessage :=
    match alternatives result with
    | Some json => lit ". Alternatives: " ++ json
    | None => []
    end in
  errorMessage ++ alternativesMessage.

(** [refLocator], from the result [resolveSingleSelector] resolved to
    on. *)
Definition refLocator (result : EnhancedSelectorResult) (param : LocatorParam)
  : Thrown + DescribedLocator :=
  if failed result then inl (ErrorMessage (failureText (element param) result))
  else
    match locator result with
    | Some l => inr {| described := l; description := element param |}
    | None => inl TypeError
    end.

(** The [for] loop of [refLocators] from index [i] on, [results] and
    [params] being what is left of the two arrays from there: the locators
    pushed from there on, unless something is thrown. *)
Fixpoint describeFrom (results : list EnhancedSelectorResult)
    (params : list LocatorParam) : Thrown + list DescribedLocator :=
  match results with
  | [] => inr []
  | result :: results' =>
      match params with
      | [] => inl TypeError          (* [param] is [undefined] *)
      | param :: params' =>
          match refLocator result param with
          | inl e => inl e
          | inr l =>
              match describeFrom results' params' with
              | inl e => inl e
              | inr ls => inr (l :: ls)
              end
          end
      end
  end.

(** [refLocators(params)]. [resolveSelectors] is the selector resolver:
    what it resolves the selectors to, or what it rejects with. *)
Definition refLocators
    (resolveSelectors : list nat -> Thrown + list EnhancedSelectorResult)
    (params : list LocatorParam) : Thrown + list DescribedLocator :=
  match selectorsOf params with
  | inl e => inl e
  | inr selectors =>
      match resolveSelectors selectors with
      | inl e => inl e
      | inr resolutionResults => describeFrom resolutionResults params
      end
  end.

End Locators.

(** ** Snapshots on request *)

Module Expectation.
Import JS Session.

(** [expectation.snapshotOptions] *)
Record SnapshotOptions := {
  selector : option jsstring;
  maxLength : option nat
}.

(** The [expectation] argument of [handleSnapshotExpectation]. *)
Record Expectation := {
  includeSnapshot : option bool;
  snapshotOptions : option SnapshotOptions
}.

(** [expectation?.includeSnapshot] as a condition. *)
Definition wantsSnapshot (expectation : option Expectation) : bool :=
  match expectation with
  | Some e =>
      match includeSnapshot e with
      | Some b => b
      | None => false
      end
  | None => false
  end.

(** [selector || maxLength] as a condition. *)
Definition anyOption (selector : option jsstring) (maxLength : option nat)
  : bool :=
  match selector, maxLength with
  | Some (_ :: _), _ => true
  | _, Some (S _) => true
  | _, _ => false
  end.

Inductive HandleResult :=
| Handled
| HandleThrew (e : jsstring)
| HandlePending.

(** [response.setTabSnapshot(newSnapshot)] after the [await]: the
    response is given by the snapshot it holds, if one was set on it. *)
Definition respond (response : option TabSnapshot.t)
    (capture : option (CaptureResult * World * list Event))
  : option (HandleResult * option TabSnapshot.t * World * list Event) :=
  match capture with
  | Some (Captured newSnapshot, w', rest) =>
      Some (Handled, Some newSnapshot, w', rest)
  | Some (CaptureThrew err, w', rest) =>
      Some (HandleThrew err, response, w', rest)
  | Some (CapturePending, w', rest) =>
      Some (HandlePending, response, w', rest)
  | None => None
  end.

(** [handleSnapshotExpectation(tab, expectation, response)]: the result
    comes with the response as it is left. [None]: the capture is not
    described. *)
Definition handleSnapshotExpectation (expectation : option Expectation)
    (response : option TabSnapshot.t) (w : World) (schedule : list Event)
  : option (HandleResult * option TabSnapshot.t * World * list Event) :=
  match expectation with
  | Some e =>
      if wantsSnapshot expectation then
        let '(selector, maxLength) :=
          match snapshotOptions e with
          | Some options => (selector options, maxLength options)
          | None => (None, None)
          end in
        respond response
          (if anyOption selector maxLength
           then capturePartialSnapshot selector maxLength w schedule
           else captureSnapshot w schedule)
      else Some (Handled, response, w, schedule)
  | None => Some (Handled, response, w, schedule)
  end.

(** The selector and the length limit an expectation asks for. *)
Definition requested (expectation : option Expectation)
  : option jsstring * option nat :=
  match expectation with
  | Some {| snapshotOptions := Some options |} =>
      (selector options, maxLength options)
  | _ => (None, None)
  end.

End Expectation.

(** ** Downloads *)

Module Downloads.
Import JS Session.

(** Where an invocation of [_downloadStarted] is suspended: on
    [context.outputFile(...)] for its download, or on [download.saveAs]
    for the entry it pushed, which is the one at [index]. *)
Inductive Stage :=
| AwaitingOutputFile (download : nat)
| AwaitingSave (index : nat).

(** The downloads list in its event loop: the list, the invocations of
    [_downloadStarted] that are suspended, each named by its number, and
    the number of invocations so far. *)
Record World := {
  _downloads : list DownloadEntry;
  suspended : gmap nat Stage;
  invocations : nat
}.

Definition newWorld : World :=
  {| _downloads := []; suspended := ∅; invocations := 0 |}.

(** What the event loop delivers: a [download] event of the page, and the
    settlements of the two promises an invocation awaits ([None] and
    [false]: a rejection, which the [catch] of the listener ignores). *)
Inductive Event :=
| EvDownload (download : nat)
| EvOutputFile (invocation : nat) (path : option jsstring)
| EvSaved (invocation : nat) (ok : bool).

(** [entry.finished = true] on the entry at [index]. *)
Definition finish (index : nat) (l : list DownloadEntry) : list DownloadEntry :=
  match l !! index with
  | Some entry =>
      <[index := {| download := download entry; finished := true;
                    outputFile := outputFile entry |}]> l
  | None => l
  end.

Definition dispatch (w : World) (ev : Event) : World :=
  match ev with
  | EvDownload d =>
      {| _downloads := _downloads w;
         suspended := <[invocations w := AwaitingOutputFile d]> (suspended w);
         invocations := S (invocations w) |}
  | EvOutputFile i path =>
      match suspended w !! i, path with
      | Some (AwaitingOutputFile d), Some file =>
          {| _downloads := _downloads w
                           ++ [{| download := d; finished := false;
                                  outputFile := file |}];
             suspended := <[i := AwaitingSave (length (_downloads w))]>
                            (suspended w);
             invocations := invocations w |}
      | Some (AwaitingOutputFile d), None =>
          {| _downloads := _downloads w;
             suspended := delete i (suspended w);
             invocations := invocations w |}
      | _, _ => w
      end
  | EvSaved i ok =>
      match suspended w !! i with
      | Some (AwaitingSave index) =>
          {| _downloads := if ok then finish index (_downloads w)
                           else _downloads w;
             suspended := delete i (suspended w);
             invocations := invocations w |}
      | _ => w
      end
  end.

(** The entry [e] has become the entry [e']: the same download saved to
    the same file, and finished if it was. *)
Definition sameDownload (e e' : DownloadEntry) : Prop :=
  download e' = download e /\ outputFile e' = outputFile e /\
  (finished e = true -> finished e' = true).

(** None of the events settles a promise of the invocation [i]. *)
Definition notFor (i : nat) (evs : list Event) : Prop :=
  Forall (fun ev => match ev with
                    | EvOutputFile j _ => j <> i
                    | EvSaved j _ => j <> i
                    | EvDownload _ => True
                    end) evs.

(** The number of entries marked as finished. *)
Definition finishedCount (l : list DownloadEntry) : nat :=
  length (List.filter finished l).

(** The number of output files handed out, and of saves that succeeded,
    among the events. *)
Definition filesGiven (evs : list Event) : nat :=
  length (List.filter (fun ev => match ev with
                                 | EvOutputFile _ (Some _) => true
                                 | _ => false
                                 end) evs).

Definition savesDone (evs : list Event) : nat :=
  length (List.filter (fun ev => match ev with
                                 | EvSaved _ true => true
                                 | _ => false
                                 end) evs).

End Downloads.

(* ===================================================================== *)
(** * Part II: properties *)
(* ===================================================================== *)

Section JSStringFacts.
Import JS.

Lemma trimStart_length (s : jsstring) : length (trimStart s) <= length s.
Proof.
  induction s as [|c r IH]; simpl; [lia|].
  destruct (isWhiteSpace c); simpl; lia.
Qed.

Lemma trimEnd_length (s : jsstring) : length (trimEnd s) <= length s.
Proof.
  unfold trimEnd. rewrite length_rev.
  pose proof (trimStart_length (rev s)) as H. rewrite length_rev in H. exact H.
Qed.

Lemma trim_length (s : jsstring) : length (trim s) <= length s.
Proof.
  unfold trim. pose proof (trimEnd_length (trimStart s)).
  pose proof (trimStart_length s). lia.
Qed.

Lemma trimStart_idem (s : jsstring) : trimStart (trimStart s) = trimStart s.
Proof.
  induction s as [|c r IH]; simpl; [reflexivity|].
  destruct (isWhiteSpace c) eqn:E; [exact IH|]. simpl. now rewrite E.
Qed.

Lemma trimEnd_idem (s : jsstring) : trimEnd (trimEnd s) = trimEnd s.
Proof.
  unfold trimEnd. rewrite rev_involutive, trimStart_idem. reflexivity.
Qed.

End JSStringFacts.

(** ** Truncation at a word boundary *)

Section Truncation.
Import JS Snapshot.

Lemma lastBoundaryBefore_Some text n i :
  lastBoundaryBefore text n = Some i -> nearestBoundaryBefore text n i.
Proof.
  induction n as [|k IH]; simpl; [discriminate|].
  unfold charAt. destruct (text !! k) as [c|] eqn:Hk.
  - destruct (isBoundary c) eqn:Hb.
    + intros [= <-]. split; [lia|]. split; [eauto|]. intros j c' Hj. lia.
    + intros H. destruct (IH H) as (Hlt & Hex & Hno).
      split; [lia|]. split; [exact Hex|].
      intros j c' Hj Hc'. destruct (decide (j = k)) as [->|Hne].
      * congruence.
      * apply (Hno j c'); [lia|exact Hc'].
  - intros H. destruct (IH H) as (Hlt & Hex & Hno).
    split; [lia|]. split; [exact Hex|].
    intros j c' Hj Hc'. destruct (decide (j = k)) as [->|Hne].
    + congruence.
    + apply (Hno j c'); [lia|exact Hc'].
Qed.

Lemma lastBoundaryBefore_None text n :
  lastBoundaryBefore text n = None -> noBoundaryBefore text n.
Proof.
  induction n as [|k IH]; simpl; intros H j c Hj Hc; [lia|].
  unfold charAt in H. destruct (decide (j = k)) as [->|Hne].
  - rewrite Hc in H. destruct (isBoundary c); [discriminate|reflexivity].
  - apply (IH ltac:(destruct (text !! k) as [c'|];
                    [destruct (isBoundary c'); [discriminate|exact H]|exact H])
              j c); [lia|exact Hc].
Qed.

Lemma nearestBoundaryBefore_found text n i :
  nearestBoundaryBefore text n i -> lastBoundaryBefore text n = Some i.
Proof.
  induction n as [|k IH]; intros (Hlt & (c & Hc & Hb) & Hno); [lia|].
  simpl. unfold charAt. destruct (decide (i = k)) as [->|Hne].
  - rewrite Hc, Hb. reflexivity.
  - assert (Hrec : lastBoundaryBefore text k = Some i).
    { apply IH. split; [lia|]. split; [eauto|].
      intros j c' Hj. apply Hno. lia. }
    destruct (text !! k) as [ck|] eqn:Hk; [|exact Hrec].
    rewrite (Hno k ck ltac:(lia) Hk). exact Hrec.
Qed.

Lemma noBoundaryBefore_found text n :
  noBoundaryBefore text n -> lastBoundaryBefore text n = None.
Proof.
  induction n as [|k IH]; intros Hno; [reflexivity|].
  simpl. unfold charAt.
  assert (Hrec : lastBoundaryBefore text k = None).
  { apply IH. intros j c Hj. apply Hno. lia. }
  destruct (text !! k) as [ck|] eqn:Hk; [|exact Hrec].
  rewrite (Hno k ck ltac:(lia) Hk). exact Hrec.
Qed.

Lemma isBoundary_split c :
  negb (c =? SPACE)%N && negb (c =? LF)%N = negb (isBoundary c).
Proof. unfold isBoundary. now rewrite negb_orb. Qed.

Lemma truncateIndex_le text maxLength : truncateIndex text maxLength <= maxLength.
Proof.
  unfold truncateIndex. destruct (charAt text maxLength) as [c|]; [|lia].
  destruct (negb (c =? SPACE)%N && negb (c =? LF)%N); [|lia].
  destruct (lastBoundaryBefore text maxLength) as [i|] eqn:Hi.
  - apply lastBoundaryBefore_Some in Hi. destruct Hi as [Hlt _].
    destruct (20 <? maxLength - i); lia.
  - destruct (20 <? maxLength - maxLength); lia.
Qed.

(** When the text is longer than [maxLength] the result is the prefix cut
    at [truncateIndex], trimmed: the last guard of the source never
    fires. *)
Lemma truncate_cut text maxLength :
  maxLength < length text ->
  _truncateAtWordBoundary text maxLength
  = trim (substring0 text (truncateIndex text maxLength)).
Proof.
  intros Hlen. unfold _truncateAtWordBoundary.
  destruct (length text <=? maxLength) eqn:E; [apply Nat.leb_le in E; lia|].
  set (r := trim _).
  assert (Hr : length r <= maxLength).
  { subst r. etransitivity; [apply trim_length|].
    unfold substring0. rewrite length_take.
    pose proof (truncateIndex_le text maxLength). lia. }
  destruct (maxLength <? length r) eqn:E2; [apply Nat.ltb_lt in E2; lia|].
  reflexivity.
Qed.

Lemma trim_no_trailing (s : jsstring) : trimEnd (trim s) = trim s.
Proof. unfold trim. apply trimEnd_idem. Qed.

Lemma trimStart_head (s : jsstring) c r :
  s = c :: r -> isWhiteSpace c = false -> trimStart s = s.
Proof. intros -> H. simpl. now rewrite H. Qed.

Lemma trim_all_black (s : jsstring) :
  Forall (fun c => isWhiteSpace c = false) s -> trim s = s.
Proof.
  intros Hs. assert (Hstart : forall l : jsstring,
    Forall (fun c => isWhiteSpace c = false) l -> trimStart l = l).
  { intros [|c l] Hl; [reflexivity|]. inversion Hl; subst.
    simpl. now rewrite H1. }
  unfold trim, trimEnd. rewrite (Hstart s Hs).
  rewrite Hstart; [apply rev_involutive|].
  now apply List.Forall_rev.
Qed.

Lemma isBoundary_white c : isBoundary c = true -> isWhiteSpace c = true.
Proof.
  unfold isBoundary, SPACE, LF. intros H. apply orb_true_iff in H.
  destruct H as [H|H]; apply N.eqb_eq in H; subst c; reflexivity.
Qed.

Lemma truncateIndex_boundary text maxLength c :
  text !! maxLength = Some c -> isBoundary c = true ->
  truncateIndex text maxLength = maxLength.
Proof.
  intros Hc Hb. unfold truncateIndex, charAt. rewrite Hc, isBoundary_split, Hb.
  reflexivity.
Qed.

Lemma truncateIndex_nearest text maxLength c i :
  text !! maxLength = Some c -> isBoundary c = false ->
  nearestBoundaryBefore text maxLength i ->
  truncateIndex text maxLength = if 20 <? maxLength - i then maxLength else i.
Proof.
  intros Hc Hb Hi. unfold truncateIndex, charAt.
  rewrite Hc, isBoundary_split, Hb. simpl.
  now rewrite (nearestBoundaryBefore_found _ _ _ Hi).
Qed.

Lemma truncateIndex_no_boundary text maxLength :
  noBoundaryBefore text maxLength ->
  truncateIndex text maxLength = maxLength.
Proof.
  intros Hno. unfold truncateIndex.
  destruct (charAt text maxLength) as [c|]; [|reflexivity].
  destruct (negb (c =? SPACE)%N && negb (c =? LF)%N); [|reflexivity].
  rewrite (noBoundaryBefore_found _ _ Hno).
  replace (maxLength - maxLength) with 0 by lia. reflexivity.
Qed.

(** C3 (amended). For a text longer than [maxLength], the result of
    [_truncateAtWordBoundary] is at most [maxLength] characters long and
    has no trailing whitespace. It is the trimmed prefix of the text cut
    at [maxLength] when the character at position [maxLength] is a space
    or a line break; otherwise it is cut at the nearest preceding space or
    line break, unless that one is more than 20 characters before
    [maxLength] or there is none, in which cases it is cut at [maxLength].
    A text of 100 characters none of which is whitespace gives, with
    [maxLength = 50], a result of length 50. The text
    "aaaa aaaa aaaa aaaa" gives "aaaa" with [maxLength = 8] (inside the
    second word) and "aaaa aaaa" with [maxLength = 9] (position 9 is a
    space). *)
Theorem truncate_at_word_boundary_spec (text : jsstring) (maxLength : nat) :
  maxLength < length text ->
  let result := _truncateAtWordBoundary text maxLength in
  length result <= maxLength /\
  trimEnd result = result /\
  (forall c, text !! maxLength = Some c -> isBoundary c = true ->
     result = trim (take maxLength text)) /\
  (forall c i, text !! maxLength = Some c -> isBoundary c = false ->
     nearestBoundaryBefore text maxLength i ->
     result = trim (take (if 20 <? maxLength - i then maxLength else i) text)) /\
  (forall c, text !! maxLength = Some c -> isBoundary c = false ->
     noBoundaryBefore text maxLength ->
     result = trim (take maxLength text)) /\
  (length text = 100 -> maxLength = 50 ->
     Forall (fun c => isWhiteSpace c = false) text -> length result = 50) /\
  (text = lit "aaaa aaaa aaaa aaaa" -> maxLength = 8 -> result = lit "aaaa") /\
  (text = lit "aaaa aaaa aaaa aaaa" -> maxLength = 9 ->
     result = lit "aaaa aaaa").
Proof.
  intros Hlen result. subst result. rewrite (truncate_cut _ _ Hlen).
  unfold substring0.
  split.
  { etransitivity; [apply trim_length|]. rewrite length_take.
    pose proof (truncateIndex_le text maxLength). lia. }
  split; [apply trim_no_trailing|].
  split.
  { intros c Hc Hb. now rewrite (truncateIndex_boundary _ _ _ Hc Hb). }
  split.
  { intros c i Hc Hb Hi. now rewrite (truncateIndex_nearest _ _ _ _ Hc Hb Hi). }
  split.
  { intros c _ _ Hno. now rewrite (truncateIndex_no_boundary _ _ Hno). }
  split.
  { intros H100 -> Hblack.
    assert (Hno : noBoundaryBefore text 50).
    { intros j c _ Hj. destruct (isBoundary c) eqn:Hb; [|reflexivity].
      apply isBoundary_white in Hb.
      rewrite Forall_forall in Hblack.
      rewrite (Hblack c) in Hb; [discriminate|].
      eapply list_elem_of_lookup_2; eauto. }
    rewrite (truncateIndex_no_boundary _ _ Hno).
    rewrite trim_all_black by now apply Forall_take.
    rewrite length_take. lia. }
  split.
  - intros -> ->. vm_compute. reflexivity.
  - intros -> ->. vm_compute. reflexivity.
Qed.

(** The theorem at the text "aaaa aaaa aaaa aaaa" and [maxLength = 8]. *)
Lemma truncate_at_word_boundary_spec_witness :
  8 < length (lit "aaaa aaaa aaaa aaaa") /\
  _truncateAtWordBoundary (lit "aaaa aaaa aaaa aaaa") 8 = lit "aaaa".
Proof.
  assert (H : 8 < length (lit "aaaa aaaa aaaa aaaa")) by (vm_compute; lia).
  split; [exact H|].
  exact (proj1 (proj2 (proj2 (proj2 (proj2 (proj2 (proj2
           (truncate_at_word_boundary_spec _ 8 H)))))))
           eq_refl eq_refl).
Defined.

(** C3, as stated, fails on its second example: position 9 of
    "aaaa aaaa aaaa aaaa" holds a space, so with [maxLength = 9] nothing
    is searched and the result is the 9 characters "aaaa aaaa", not
    "aaaa". *)
Lemma truncate_example_9_counterexample :
  length (lit "aaaa aaaa aaaa aaaa") = 19 /\
  lit "aaaa aaaa aaaa aaaa" !! 9 = Some SPACE /\
  _truncateAtWordBoundary (lit "aaaa aaaa aaaa aaaa") 9 <> lit "aaaa" /\
  length (_truncateAtWordBoundary (lit "aaaa aaaa aaaa aaaa") 9) = 9.
Proof. vm_compute. repeat split; congruence. Qed.

End Truncation.

(** ** Extraction of a landmark's subtree *)

Section Extraction.
Import JS Snapshot.

Lemma test_Empty_seq r s : test (Seq Empty r) s = false.
Proof. induction s as [|c s IH]; simpl; [reflexivity|exact IH]. Qed.

Lemma test_Alt r1 r2 s : test (Alt r1 r2) s = test r1 s || test r2 s.
Proof.
  revert r1 r2. induction s as [|c s IH]; intros r1 r2; simpl.
  - now rewrite !orb_false_r.
  - rewrite IH. destruct (nullable r1), (nullable r2),
      (test (deriv c r1) s), (test (deriv c r2) s); reflexivity.
Qed.

Lemma test_Eps_seq r s : test (Seq Eps r) s = test r s.
Proof.
  destruct s as [|c s]; simpl; [now rewrite !orb_false_r|].
  now rewrite test_Alt, test_Empty_seq.
Qed.

Lemma test_nullable r s : nullable r = true -> test r s = true.
Proof. intros H. destruct s; simpl; now rewrite H. Qed.

Lemma test_seqLit p r s :
  nullable r = true -> test (seqLit p r) s = startsWith s p.
Proof.
  intros Hr. revert s. induction p as [|a p IH]; intros s.
  - simpl. rewrite test_nullable by exact Hr. now destruct s.
  - destruct s as [|c s]; [reflexivity|].
    change (seqLit (a :: p) r) with (Seq (Chr a) (seqLit p r)).
    cbn [test nullable deriv andb orb startsWith].
    destruct (a =? c)%N eqn:E.
    + now rewrite test_Eps_seq, IH.
    + now rewrite test_Empty_seq.
Qed.

(** The pattern of the source matches a trimmed line exactly when the
    line starts with ["- "] and the role: all that follows the role in the
    pattern may match nothing. *)
Lemma test_rolePattern role line :
  test (rolePattern role) (trim line) = roleLine role line.
Proof. unfold rolePattern, roleLine. now apply test_seqLit. Qed.

Lemma captureLoop_searching P pre tail ci acc :
  Forall (fun l => test P (trim l) = false) pre ->
  captureLoop P (pre ++ tail) false ci acc = captureLoop P tail false ci acc.
Proof.
  induction 1 as [|l pre Hl _ IH]; [reflexivity|].
  simpl. now rewrite Hl.
Qed.

Lemma captureLoop_no_match P lines ci acc :
  Forall (fun l => test P (trim l) = false) lines ->
  captureLoop P lines false ci acc = acc.
Proof.
  induction 1 as [|l lines Hl _ IH]; [reflexivity|].
  simpl. now rewrite Hl.
Qed.

Lemma captureLoop_capturing P sub rest ci acc :
  Forall (fun l => (ci < indentOf l)%Z) sub ->
  endsSubtree ci rest ->
  captureLoop P (sub ++ rest) true ci acc = acc ++ sub.
Proof.
  intros Hsub Hrest. revert acc.
  induction Hsub as [|l sub Hl _ IH]; intros acc.
  - rewrite app_nil_r. destruct rest as [|l rest]; [reflexivity|].
    simpl in *. destruct (ci <? indentOf l)%Z eqn:E; [|reflexivity].
    apply Z.ltb_lt in E. lia.
  - simpl. apply Z.ltb_lt in Hl. rewrite Hl, IH, <- app_assoc. reflexivity.
Qed.

Lemma captureLoop_found P pre l0 sub rest :
  Forall (fun l => test P (trim l) = false) pre ->
  test P (trim l0) = true ->
  Forall (fun l => (indentOf l0 < indentOf l)%Z) sub ->
  endsSubtree (indentOf l0) rest ->
  captureLoop P (pre ++ l0 :: sub ++ rest) false (-1) [] = l0 :: sub.
Proof.
  intros Hpre Hl0 Hsub Hrest.
  rewrite captureLoop_searching by exact Hpre.
  simpl. rewrite Hl0. simpl.
  now rewrite captureLoop_capturing.
Qed.

(** Every list of lines has a first matching line or none. *)
Lemma first_match_or_none (f : jsstring -> bool) (lines : list jsstring) :
  Forall (fun l => f l = false) lines \/
  exists pre l0 tail,
    lines = pre ++ l0 :: tail /\ Forall (fun l => f l = false) pre /\
    f l0 = true.
Proof.
  induction lines as [|l lines IH]; [left; constructor|].
  destruct (f l) eqn:E.
  - right. exists [], l, lines. repeat split; [constructor|exact E].
  - destruct IH as [IH|(pre & l0 & tail & -> & Hpre & Hl0)].
    + left. now constructor.
    + right. exists (l :: pre), l0, tail. repeat split; [now constructor|exact Hl0].
Qed.

(** Every list of lines splits into its deeper-indented prefix and a
    rest that ends the subtree. *)
Lemma subtree_split (ci : Z) (tail : list jsstring) :
  exists sub rest,
    tail = sub ++ rest /\ Forall (fun l => (ci < indentOf l)%Z) sub /\
    endsSubtree ci rest.
Proof.
  induction tail as [|l tail (sub & rest & -> & Hsub & Hrest)].
  - exists [], []. repeat split; constructor.
  - destruct (Z_lt_le_dec ci (indentOf l)) as [Hlt|Hle].
    + exists (l :: sub), rest. repeat split; [now constructor|exact Hrest].
    + exists [], (l :: sub ++ rest). repeat split; [constructor|exact Hle].
Qed.

Lemma trimStart_spaces n (s : jsstring) :
  trimStart (repeatSpace n ++ s) = trimStart s.
Proof. induction n as [|n IH]; [reflexivity|exact IH]. Qed.


Lemma indentOf_nonneg (l : jsstring) : (0 <= indentOf l)%Z.
Proof. unfold indentOf. lia. Qed.

Lemma indentOf_spaces n (l : jsstring) :
  indentOf (repeatSpace n ++ trimStart l) = Z.of_nat n.
Proof.
  unfold indentOf. rewrite trimStart_spaces, trimStart_idem, length_app.
  unfold repeatSpace. rewrite length_replicate. lia.
Qed.

Lemma normalizeLine_blank minIndent (l : jsstring) :
  trim l = [] -> normalizeLine minIndent l = l.
Proof. unfold normalizeLine. now intros ->. Qed.


Lemma roleLine_nonblank role (l : jsstring) :
  roleLine role l = true -> trim l <> [].
Proof.
  unfold roleLine. destruct (trim l); [|congruence].
  simpl. discriminate.
Qed.

Lemma extract_with_role fullSnapshot selector role :
  expectedRole selector = Some role ->
  existsb isRegexMeta role = false ->
  _extractPartialSnapshot fullSnapshot selector
  = Some (extractWith (rolePattern role) fullSnapshot).
Proof.
  intros Hrole Hmeta.
  unfold _extractPartialSnapshot, selectorRolePattern, compileRolePattern.
  now rewrite Hrole, Hmeta.
Qed.

Lemma roleLine_Forall role (lines : list jsstring) :
  Forall (fun l => roleLine role l = false) lines ->
  Forall (fun l => test (rolePattern role) (trim l) = false) lines.
Proof.
  intros H. eapply Forall_impl; [exact H|].
  intros l Hl. now rewrite test_rolePattern.
Qed.

Lemma extractWith_no_match role fullSnapshot :
  Forall (fun l => roleLine role l = false) (split_lines fullSnapshot) ->
  extractWith (rolePattern role) fullSnapshot = fullSnapshot.
Proof.
  intros H. unfold extractWith.
  now rewrite captureLoop_no_match by now apply roleLine_Forall.
Qed.

Lemma extractWith_found role fullSnapshot pre l0 sub rest :
  split_lines fullSnapshot = pre ++ l0 :: sub ++ rest ->
  Forall (fun l => roleLine role l = false) pre ->
  roleLine role l0 = true ->
  Forall (fun l => (indentOf l0 < indentOf l)%Z) sub ->
  endsSubtree (indentOf l0) rest ->
  extractWith (rolePattern role) fullSnapshot
  = join_lines (List.map (normalizeLine (indentOf l0)) (l0 :: sub)).
Proof.
  intros Hlines Hpre Hl0 Hsub Hrest. unfold extractWith. rewrite Hlines.
  rewrite captureLoop_found; try assumption.
  - reflexivity.
  - now apply roleLine_Forall.
  - now rewrite test_rolePattern.
Qed.













End Extraction.

(** ** Resolution of alternative selectors *)

Section Resolution.
Import JS Selectors.

Lemma startsWith_app (sub post : jsstring) : startsWith (sub ++ post) sub = true.
Proof.
  induction sub as [|a sub IH]; [now destruct post|].
  simpl. now rewrite N.eqb_refl.
Qed.

Lemma includes_app (pre sub post : jsstring) :
  includes (pre ++ sub ++ post) sub = true.
Proof.
  induction pre as [|a pre IH].
  - pose proof (startsWith_app sub post) as H. cbn [app].
    destruct (sub ++ post); cbn [includes]; now rewrite H.
  - cbn [app includes]. rewrite IH. apply orb_true_r.
Qed.

Lemma join_includes (sep x : jsstring) (xs : list jsstring) :
  In x xs -> exists pre post, join sep xs = pre ++ x ++ post.
Proof.
  induction xs as [|y xs IH]; [intros []|].
  intros [->|Hin].
  - destruct xs as [|z xs].
    + exists [], []. simpl. now rewrite app_nil_r.
    + exists [], (sep ++ join sep (z :: xs)). reflexivity.
  - destruct (IH Hin) as (pre & post & Hj).
    destruct xs as [|z xs]; [destruct Hin|].
    exists (y ++ sep ++ pre), post.
    change (join sep (y :: z :: xs)) with (y ++ sep ++ join sep (z :: xs)).
    rewrite Hj. now rewrite <- !app_assoc.
Qed.

Lemma failureMessage_includes errorMessage results r :
  In r results ->
  includes (failureMessage errorMessage results) (errorText r) = true.
Proof.
  intros Hin. unfold failureMessage.
  destruct (join_includes (lit ", ") (errorText r) (List.map errorText results))
    as (pre & post & Hj); [now apply in_map|].
  rewrite Hj.
  replace (errorMessage ++ lit ": " ++ pre ++ errorText r ++ post)
    with ((errorMessage ++ lit ": " ++ pre) ++ errorText r ++ post)
    by now rewrite <- !app_assoc.
  apply includes_app.
Qed.

Lemma includes_nil (s : jsstring) : includes s [] = true.
Proof. destruct s; reflexivity. Qed.

Lemma errorText_error r e : error r = Some e -> e = [] \/ errorText r = e.
Proof.
  unfold errorText. intros ->. destruct e; [now left|now right].
Qed.

Lemma filter_nil_Forall (results : list SelectorResolutionResult) :
  List.filter successful results = [] <->
  Forall (fun x => successful x = false) results.
Proof.
  induction results as [|r rs IH]; simpl.
  - split; [constructor|reflexivity].
  - destruct (successful r) eqn:E.
    + split; [discriminate|]. intros H. inversion H; congruence.
    + rewrite IH. split; [now constructor|]. intros H. now inversion H.
Qed.

Lemma filter_first (pre post : list SelectorResolutionResult) r :
  Forall (fun x => successful x = false) pre -> successful r = true ->
  List.filter successful (pre ++ r :: post)
  = r :: List.filter successful post.
Proof.
  intros Hpre Hr. rewrite List.filter_app.
  rewrite (proj2 (filter_nil_Forall pre) Hpre). simpl. now rewrite Hr.
Qed.

Lemma successful_locator r :
  successful r = true -> exists l, locator r = Some l.
Proof. unfold successful. destruct (locator r); [eauto|discriminate]. Qed.

Lemma resolveFirstElement_first pre r post errorMessage :
  Forall (fun x => successful x = false) pre -> successful r = true ->
  resolveFirstElement (pre ++ r :: post) errorMessage = inr (locator r).
Proof.
  intros Hpre Hr. unfold resolveFirstElement. now rewrite filter_first.
Qed.

Lemma resolveFirstElement_fails results errorMessage :
  Forall (fun x => successful x = false) results ->
  resolveFirstElement results errorMessage
  = inl (failureMessage errorMessage results).
Proof.
  intros H. unfold resolveFirstElement.
  now rewrite (proj2 (filter_nil_Forall results) H).
Qed.

Lemma resolveFirstElement_inl results errorMessage msg :
  resolveFirstElement results errorMessage = inl msg ->
  Forall (fun x => successful x = false) results /\
  msg = failureMessage errorMessage results.
Proof.
  unfold resolveFirstElement.
  destruct (List.filter successful results) eqn:E; [|discriminate].
  intros [= <-]. split; [now apply filter_nil_Forall|reflexivity].
Qed.

(** [resolveDragElements] resolves its two groups as [resolveFirstElement]
    does, the start group being examined first. *)
Lemma resolveDragElements_two_groups startResults endResults :
  resolveDragElements startResults endResults
  = match resolveFirstElement startResults
            (lit "Failed to resolve start element selectors") with
    | inl msg => inl msg
    | inr s =>
        match resolveFirstElement endResults
                (lit "Failed to resolve end element selectors") with
        | inl msg => inl msg
        | inr e => inr (s, e)
        end
    end.
Proof.
  unfold resolveDragElements, resolveFirstElement.
  destruct (List.filter successful startResults); [reflexivity|].
  destruct (List.filter successful endResults); reflexivity.
Qed.

Lemma successful_true (r : SelectorResolutionResult) :
  successful r = true <->
  exists l, locator r = Some l /\ (error r = None \/ error r = Some []).
Proof.
  unfold successful, truthy. destruct r as [[l|] [[|c e]|]]; cbn; split;
    try discriminate; try (intros _; eauto; fail).
  - intros (l' & _ & [H|H]); discriminate H.
  - intros (l' & H & _). discriminate H.
  - intros (l' & H & _). discriminate H.
  - intros (l' & H & _). discriminate H.
Qed.

Lemma successful_false (r : SelectorResolutionResult) :
  successful r = false <->
  locator r = None \/ exists c e, error r = Some (c :: e).
Proof.
  unfold successful, truthy. destruct r as [[l|] [[|c e]|]]; cbn; split;
    try discriminate; try (intros _; eauto; fail).
  - intros [H|(c & e & H)]; discriminate H.
  - intros [H|(c & e & H)]; discriminate H.
Qed.

Lemma filter_head {A} (f : A -> bool) (xs : list A) y ys :
  List.filter f xs = y :: ys ->
  exists pre post,
    xs = pre ++ y :: post /\ Forall (fun x => f x = false) pre /\ f y = true.
Proof.
  induction xs as [|x xs IH]; [discriminate|].
  cbn [List.filter]. destruct (f x) eqn:E.
  - intros [= -> _]. exists [], xs. repeat split; [constructor|exact E].
  - intros H. destruct (IH H) as (pre & post & -> & Hpre & Hy).
    exists (x :: pre), post. repeat split; [now constructor|exact Hy].
Qed.

(** C8. From the results of the alternatives, in the caller's order:
    [resolveFirstElement] returns the locator of the first alternative
    that resolved without error (it has a locator, and no error text or
    an empty one), and never anything else; it throws exactly when every
    alternative failed (it has no locator, or an error text that is not
    empty), and the message of the error is then the caller's message
    followed by the error texts of all alternatives (["Unknown error"]
    for one without), so that it contains the error text of every
    alternative. With alternatives [A; B], A failing and B resolving, B's
    locator is returned; both failing, the message contains A's and B's
    error texts. [resolveDragElements] treats each of its two groups in
    this way, the start group first. *)
Theorem resolve_first_element_spec
    (results : list SelectorResolutionResult) (errorMessage : jsstring) :
  let noError (r : SelectorResolutionResult) :=
    error r = None \/ error r = Some [] in
  let failed (r : SelectorResolutionResult) :=
    locator r = None \/ exists c e, error r = Some (c :: e) in
  (forall pre r post l,
     results = pre ++ r :: post ->
     Forall failed pre -> locator r = Some l -> noError r ->
     resolveFirstElement results errorMessage = inr (Some l)) /\
  (forall returned,
     resolveFirstElement results errorMessage = inr returned ->
     exists pre r post l,
       results = pre ++ r :: post /\ Forall failed pre /\
       locator r = Some l /\ noError r /\ returned = Some l) /\
  ((exists msg, resolveFirstElement results errorMessage = inl msg) <->
   Forall failed results) /\
  (forall msg,
     resolveFirstElement results errorMessage = inl msg ->
     msg = errorMessage ++ lit ": "
           ++ join (lit ", ")
                (List.map (fun r => match error r with
                                    | Some (c :: e) => c :: e
                                    | _ => lit "Unknown error"
                                    end) results)) /\
  (forall msg r e,
     resolveFirstElement results errorMessage = inl msg ->
     In r results -> error r = Some e -> includes msg e = true) /\
  (forall A B l,
     results = [A; B] -> failed A -> locator B = Some l -> noError B ->
     resolveFirstElement results errorMessage = inr (Some l)) /\
  (forall A B a b,
     results = [A; B] -> failed A -> failed B ->
     error A = Some a -> error B = Some b ->
     exists msg, resolveFirstElement results errorMessage = inl msg /\
                 includes msg a = true /\ includes msg b = true) /\
  (forall endResults,
     resolveDragElements results endResults
     = match resolveFirstElement results
               (lit "Failed to resolve start element selectors") with
       | inl msg => inl msg
       | inr s =>
           match resolveFirstElement endResults
                   (lit "Failed to resolve end element selectors") with
           | inl msg => inl msg
           | inr e => inr (s, e)
           end
       end) /\
  (forall startResults,
     resolveDragElements startResults results
     = match resolveFirstElement startResults
               (lit "Failed to resolve start element selectors") with
       | inl msg => inl msg
       | inr s =>
           match resolveFirstElement results
                   (lit "Failed to resolve end element selectors") with
           | inl msg => inl msg
           | inr e => inr (s, e)
           end
       end).
Proof.
  cbv zeta.
  assert (Hfailed : forall rs,
            Forall (fun r => locator r = None \/
                             exists c e, error r = Some (c :: e)) rs <->
            Forall (fun x => successful x = false) rs).
  { intros rs. split; intros H; (eapply Forall_impl; [exact H|]);
      intros r Hr; now apply successful_false. }
  assert (Hinc : forall msg r e,
            resolveFirstElement results errorMessage = inl msg ->
            In r results -> error r = Some e -> includes msg e = true).
  { intros msg r e Hmsg Hin He.
    apply resolveFirstElement_inl in Hmsg. destruct Hmsg as [_ ->].
    destruct (errorText_error r e He) as [->|<-].
    - apply includes_nil.
    - now apply failureMessage_includes. }
  assert (Hfirst : forall pre r post l,
            Forall (fun r => locator r = None \/
                             exists c e, error r = Some (c :: e)) pre ->
            locator r = Some l -> error r = None \/ error r = Some [] ->
            resolveFirstElement (pre ++ r :: post) errorMessage
            = inr (Some l)).
  { intros pre r post l Hpre Hl Hr. rewrite <- Hl.
    apply resolveFirstElement_first; [now apply Hfailed|].
    apply successful_true. eauto. }
  split.
  { intros pre r post l -> Hpre Hl Hr. now apply Hfirst. }
  split.
  { intros returned. unfold resolveFirstElement.
    destruct (List.filter successful results) as [|first rest] eqn:E;
      [discriminate|].
    intros [= <-].
    destruct (filter_head _ _ _ _ E) as (pre & post & Hres & Hpre & Hf).
    apply successful_true in Hf. destruct Hf as (l & Hl & Hno).
    exists pre, first, post, l.
    split; [exact Hres|]. split; [now apply Hfailed|]. auto. }
  split.
  { rewrite Hfailed. split.
    - intros [msg Hmsg]. now apply resolveFirstElement_inl in Hmsg.
    - intros H. eexists. now apply resolveFirstElement_fails. }
  split.
  { intros msg Hmsg. apply resolveFirstElement_inl in Hmsg.
    destruct Hmsg as [_ ->]. reflexivity. }
  split; [exact Hinc|]. split.
  { intros A B l -> HA Hl HB.
    apply (Hfirst [A] B [] l); [|exact Hl|exact HB].
    constructor; [exact HA|constructor]. }
  split.
  { intros A B a b Hres HA HB Ha Hb.
    exists (failureMessage errorMessage results).
    assert (Hfail : resolveFirstElement results errorMessage
                    = inl (failureMessage errorMessage results)).
    { apply resolveFirstElement_fails, Hfailed. subst results.
      constructor; [exact HA|]. constructor; [exact HB|constructor]. }
    split; [exact Hfail|].
    split; [apply (Hinc _ A a Hfail)|apply (Hinc _ B b Hfail)];
      subst results; simpl; auto. }
  split; intros; apply resolveDragElements_two_groups.
Qed.

(** The theorem at two alternatives, the first failing with ["not found"],
    the second resolving to locator 7. *)
Lemma resolve_first_element_spec_witness :
  resolveFirstElement
    [ {| locator := None; error := Some (lit "not found") |};
      {| locator := Some 7; error := None |} ]
    defaultErrorMessage
  = inr (Some 7).
Proof.
  refine (proj1 (proj2 (proj2 (proj2 (proj2 (proj2
    (resolve_first_element_spec
       [ {| locator := None; error := Some (lit "not found") |};
         {| locator := Some 7; error := None |} ]
       defaultErrorMessage))))))
    _ _ 7 eq_refl _ eq_refl _).
  - left. reflexivity.
  - left. reflexivity.
Defined.

End Resolution.

(** ** The navigation tracker *)

Section NavigationTracker.
Import Config Navigation.
Local Open Scope Z_scope.

Variable T : Timeouts.

Abbreviation timeout := (DEFAULT_PAGE_TIMEOUT T).

Lemma checkComplete_spec t s s' resolved :
  checkComplete T t s = (s', resolved) ->
  lastNavigationStart s' = lastNavigationStart s /\
  navigationPromise s' = navigationPromise s /\
  (ns_isNavigating s' = true -> ns_isNavigating s = true) /\
  (ns_isNavigating s = true -> ns_isNavigating s' = false ->
   timeout < t - lastNavigationStart s) /\
  (resolved = true -> ns_isNavigating s' = false) /\
  (resolved = false -> t - lastNavigationStart s <= timeout).
Proof.
  unfold checkComplete. cbn [getNavigationTimeouts navigationTimeout].
  destruct (ns_isNavigating s) eqn:Hf; cbn [negb].
  - destruct (timeout <? t - lastNavigationStart s) eqn:E;
      intros [= <- <-]; cbn; rewrite ?Hf;
      repeat split; try congruence; try lia.
  - intros [= <- <-]. rewrite Hf. repeat split; congruence.
Qed.

Lemma runTimers_spec ws : forall s t s' ws',
  runTimers T t s ws = (s', ws') ->
  0 <= timeout ->
  Forall (watcherOk timeout (t - 1) (lastNavigationStart s)) ws ->
  lastNavigationStart s' = lastNavigationStart s /\
  navigationPromise s' = navigationPromise s /\
  Forall (watcherOk timeout t (lastNavigationStart s)) ws' /\
  (ns_isNavigating s' = true -> ns_isNavigating s = true) /\
  (ns_isNavigating s = true -> ns_isNavigating s' = false ->
   timeout < t - lastNavigationStart s) /\
  Forall2 (pollStep (t - 1) (ns_isNavigating s')) ws ws'.
Proof.
  induction ws as [|x ws IH]; intros s t s' ws' Hrun Hto Hok.
  - injection Hrun as <- <-. repeat split; try constructor; congruence.
  - inversion Hok as [|? ? Hx Hws]; subst.
    destruct x as [due|r]; cbn [runTimers] in Hrun.
    + destruct (due <=? t) eqn:Hdue.
      * destruct (checkComplete T t s) as [s1 resolved] eqn:Hcc.
        destruct (runTimers T t s1 ws) as [s2 rest'] eqn:Hrt.
        injection Hrun as <- <-.
        destruct (checkComplete_spec _ _ _ _ Hcc)
          as (Hl1 & Hp1 & Hf1 & Hc1 & Hr1 & Hn1).
        rewrite <- Hl1 in Hws.
        destruct (IH _ _ _ _ Hrt Hto Hws) as (Hl2 & Hp2 & Hok2 & Hf2 & Hc2 & Hps).
        rewrite Hl1 in *. cbn [watcherOk] in Hx.
        apply Z.leb_le in Hdue.
        split; [congruence|]. split; [congruence|]. split.
        { constructor; [|exact Hok2].
          destruct resolved; cbn [watcherOk getNavigationTimeouts checkInterval].
          - lia.
          - specialize (Hn1 eq_refl). lia. }
        split; [tauto|]. split.
        { intros Hs Hs2. destruct (ns_isNavigating s1) eqn:Hs1.
          - now apply Hc2.
          - now apply Hc1. }
        constructor; [|exact Hps].
        destruct resolved; cbn [pollStep]; [|exact I].
        split; [lia|].
        destruct (ns_isNavigating s2) eqn:Hs2; [|reflexivity].
        rewrite Hr1 in Hf2 by reflexivity. symmetry. now apply Hf2.
      * destruct (runTimers T t s ws) as [s2 rest'] eqn:Hrt.
        injection Hrun as <- <-.
        destruct (IH _ _ _ _ Hrt Hto Hws) as (Hl2 & Hp2 & Hok2 & Hf2 & Hc2 & Hps).
        apply Z.leb_gt in Hdue. cbn [watcherOk] in Hx.
        repeat split; try assumption.
        { constructor; [|exact Hok2]. cbn [watcherOk]. lia. }
        constructor; [exact I|exact Hps].
    + destruct (runTimers T t s ws) as [s2 rest'] eqn:Hrt.
      injection Hrun as <- <-.
      destruct (IH _ _ _ _ Hrt Hto Hws) as (Hl2 & Hp2 & Hok2 & Hf2 & Hc2 & Hps).
      cbn [watcherOk] in Hx.
      repeat split; try assumption.
      { constructor; [|exact Hok2]. cbn [watcherOk]. lia. }
      constructor; [reflexivity|exact Hps].
Qed.

Lemma pollStep_same t f x : pollStep t f x x.
Proof. destruct x; cbn; auto. Qed.

Lemma pollStep_trans t1 t2 f1 f2 x y z :
  pollStep t1 f1 x y -> pollStep t2 f2 y z ->
  t1 <= t2 -> (f2 = true -> f1 = true) ->
  pollStep t1 f2 x z.
Proof.
  destruct x as [d|r], y as [d'|r'], z as [d''|r'']; cbn;
    try congruence; try tauto.
  - intros _ [H1 H2] Hle Hf. split; [lia|exact H2].
  - intros [H1 H2] [= <-] Hle Hf. split; [exact H1|].
    destruct f2; [|reflexivity]. rewrite Hf in H2; congruence.
Qed.

Lemma watchersStep_trans t1 t2 f1 f2 ws1 ws2 ws3 :
  watchersStep t1 f1 ws1 ws2 -> watchersStep t2 f2 ws2 ws3 ->
  t1 <= t2 -> (f2 = true -> f1 = true) ->
  watchersStep t1 f2 ws1 ws3.
Proof.
  intros H12 H23 Hle Hf k x Hx.
  destruct (H12 k x Hx) as (y & Hy & Hxy).
  destruct (H23 k y Hy) as (z & Hz & Hyz).
  exists z. split; [exact Hz|]. eapply pollStep_trans; eauto.
Qed.

Lemma watchersStep_refl t f ws : watchersStep t f ws ws.
Proof. intros k x Hx. exists x. split; [exact Hx|apply pollStep_same]. Qed.

Lemma watchersStep_length t f ws ws' :
  watchersStep t f ws ws' -> (length ws <= length ws')%nat.
Proof.
  intros H. destruct (decide (length ws <= length ws')%nat) as [|Hgt]; [assumption|].
  assert (Hlt : (length ws' < length ws)%nat) by lia.
  destruct (lookup_lt_is_Some_2 ws (length ws') Hlt) as [x Hx].
  destruct (H _ _ Hx) as (x' & Hx' & _).
  apply lookup_lt_Some in Hx'. lia.
Qed.

Lemma tick_facts w :
  0 <= timeout -> wellFormed T w ->
  stepFacts T w (tick T w) /\
  now (tick T w) = now w + 1 /\
  lastNavigationStart (state (tick T w)) = lastNavigationStart (state w) /\
  navigationPromise (state (tick T w)) = navigationPromise (state w) /\
  (ns_isNavigating (state (tick T w)) = true ->
   ns_isNavigating (state w) = true) /\
  (ns_isNavigating (state w) = true ->
   ns_isNavigating (state (tick T w)) = false ->
   timeout < now (tick T w) - lastNavigationStart (state (tick T w))).
Proof.
  intros Hto (Hlast & Hws & Hk). unfold tick.
  destruct (runTimers T (now w + 1) (state w) (watchers w)) as [s ws] eqn:Hrt.
  cbn [now state watchers].
  destruct (runTimers_spec _ _ _ _ _ Hrt Hto) as (Hl & Hp & Hok & Hf & Hc & Hps).
  { now replace (now w + 1 - 1) with (now w) by lia. }
  replace (now w + 1 - 1) with (now w) in Hps by lia.
  rewrite Hl. repeat split; try assumption; try lia.
  - cbn [now state watchers]. lia.
  - cbn [now state watchers]. now rewrite Hl.
  - cbn [now state watchers]. rewrite Hp.
    destruct (navigationPromise (state w)); [|exact I].
    now rewrite <- (Forall2_length _ _ _ Hps).
  - cbn. lia.
  - cbn. lia.
  - cbn. intros k x Hx. eapply Forall2_lookup_l in Hps; eauto.
Qed.

Lemma elapse_facts n : forall w,
  0 <= timeout -> wellFormed T w ->
  stepFacts T w (elapse T n w) /\
  now (elapse T n w) = now w + Z.of_nat n /\
  lastNavigationStart (state (elapse T n w)) = lastNavigationStart (state w) /\
  navigationPromise (state (elapse T n w)) = navigationPromise (state w) /\
  (ns_isNavigating (state (elapse T n w)) = true ->
   ns_isNavigating (state w) = true) /\
  (ns_isNavigating (state w) = true ->
   ns_isNavigating (state (elapse T n w)) = false ->
   timeout < now (elapse T n w) - lastNavigationStart (state (elapse T n w))).
Proof.
  induction n as [|n IH]; intros w Hto Hwf.
  - cbn [elapse]. repeat split; try tauto; try lia; try congruence.
    + apply Hwf.
    + apply Hwf.
    + apply Hwf.
    + apply watchersStep_refl.
  - cbn [elapse].
    destruct (tick_facts w Hto Hwf) as ([Hwf1 Hn1 Hl1 Hw1] & Hnow1 & Hlast1 & Hp1 & Hf1 & Hc1).
    destruct (IH (tick T w) Hto Hwf1) as ([Hwf2 Hn2 Hl2 Hw2] & Hnow2 & Hlast2 & Hp2 & Hf2 & Hc2).
    split; [constructor|]; try assumption; try lia.
    { eapply watchersStep_trans; eauto. }
    split; [lia|]. split; [congruence|]. split; [congruence|].
    split; [tauto|].
    intros Hs Hs2.
    destruct (ns_isNavigating (state (tick T w))) eqn:E.
    + now apply Hc2.
    + specialize (Hc1 Hs eq_refl). lia.
Qed.

Lemma step_facts i w :
  0 <= timeout -> wellFormed T w -> stepFacts T w (step T w i).
Proof.
  intros Hto Hwf. destruct i as [ms| | | |]; cbn [step].
  - apply (elapse_facts _ w Hto Hwf).
  - destruct Hwf as (Hlast & Hws & Hk).
    constructor; cbn; try lia; [|intros k x Hx; exists x; split;
      [now apply lookup_app_l_Some|apply pollStep_same]].
    split; [cbn; lia|]. split; cbn.
    + apply Forall_app. split.
      * eapply Forall_impl; [exact Hws|]. intros [d|r]; cbn [watcherOk]; lia.
      * constructor; [|constructor]. cbn. lia.
    + rewrite length_app. cbn. lia.
  - destruct Hwf as (Hlast & Hws & Hk).
    constructor; cbn; try lia; [|apply watchersStep_refl].
    split; [exact Hlast|]. split; [exact Hws|exact Hk].
  - destruct Hwf as (Hlast & Hws & Hk).
    constructor; cbn; try lia; [|apply watchersStep_refl].
    split; [exact Hlast|]. split; [exact Hws|exact Hk].
  - destruct Hwf as (Hlast & Hws & Hk).
    assert (Hsame : forall b : bool,
      lastNavigationStart (if b then set_isNavigating false (state w) else state w)
      = lastNavigationStart (state w) /\
      navigationPromise (if b then set_isNavigating false (state w) else state w)
      = navigationPromise (state w)) by (intros []; split; reflexivity).
    unfold isNavigating. cbn [snd now state watchers].
    match goal with |- context [if ?b then _ else _] =>
      destruct (Hsame b) as [Hl Hp] end.
    constructor; cbn [now state watchers]; rewrite ?Hl; try lia;
      [|apply watchersStep_refl].
    split; cbn [now state watchers]; rewrite ?Hl, ?Hp; auto.
Qed.

Lemma pollStep_evolves t f x x' : pollStep t f x x' -> evolves t x x'.
Proof. destruct x, x'; cbn; tauto. Qed.

Lemma evolves_trans t1 t2 x y z :
  evolves t1 x y -> evolves t2 y z -> t1 <= t2 -> evolves t1 x z.
Proof.
  destruct x, y, z; cbn; try congruence; try tauto; lia.
Qed.

Lemma run_snoc items i w : run T (items ++ [i]) w = step T (run T items w) i.
Proof. unfold run. now rewrite fold_left_app. Qed.

Lemma run_facts items : forall w,
  0 <= timeout -> wellFormed T w -> runFacts T w (run T items w).
Proof.
  induction items as [|i items IH]; intros w Hto Hwf.
  - cbn [run fold_left]. constructor; try assumption; try lia.
    intros k x Hx. exists x. split; [exact Hx|]. destruct x; cbn; auto.
  - change (run T (i :: items) w) with (run T items (step T w i)).
    destruct (step_facts i w Hto Hwf) as [Hwf1 Hn1 Hl1 Hw1].
    destruct (IH _ Hto Hwf1) as [Hwf2 Hn2 Hl2 Hw2].
    constructor; try assumption; try lia.
    intros k x Hx. destruct (Hw1 k x Hx) as (y & Hy & Hxy).
    destruct (Hw2 k y Hy) as (z & Hz & Hyz).
    exists z. split; [exact Hz|].
    eapply evolves_trans; eauto using pollStep_evolves.
Qed.

Lemma init_wellFormed t0 : 0 <= t0 -> wellFormed T (init t0).
Proof. intros H. split; [exact H|]. split; [constructor|exact I]. Qed.

Lemma run_now items : forall w,
  0 <= timeout -> wellFormed T w ->
  now (run T items w) = now w + duration items.
Proof.
  induction items as [|i items IH]; intros w Hto Hwf; [cbn; lia|].
  change (run T (i :: items) w) with (run T items (step T w i)).
  rewrite IH by (trivial; apply (step_facts i w Hto Hwf)).
  destruct i as [ms| | | |]; cbn [step duration fold_right];
    try reflexivity.
  destruct (elapse_facts (Z.to_nat ms) w Hto Hwf) as (_ & -> & _).
  fold (duration items). lia.
Qed.

Lemma run_last items : forall w,
  0 <= timeout -> wellFormed T w -> noFrameNavigated items ->
  lastNavigationStart (state (run T items w)) = lastNavigationStart (state w)
  /\ navigationPromise (state (run T items w)) = navigationPromise (state w).
Proof.
  induction items as [|i items IH]; intros w Hto Hwf Hno; [split; reflexivity|].
  change (run T (i :: items) w) with (run T items (step T w i)).
  inversion Hno as [|? ? Hi Hrest]; subst.
  destruct (IH (step T w i) Hto (sf_wellFormed _ _ _ (step_facts i w Hto Hwf)) Hrest)
    as [-> ->].
  destruct i as [ms| | | |]; cbn [step]; try (split; reflexivity); try congruence.
  - destruct (elapse_facts (Z.to_nat ms) w Hto Hwf) as (_ & _ & -> & -> & _).
    split; reflexivity.
  - unfold isNavigating. cbn [snd state].
    match goal with |- context [if ?b then _ else _] => destruct b end;
      split; reflexivity.
Qed.

Lemma wellFormed_lookup w k x :
  wellFormed T w -> watchers w !! k = Some x ->
  watcherOk timeout (now w) (lastNavigationStart (state w)) x.
Proof.
  intros (_ & Hws & _) Hk. rewrite Forall_lookup in Hws. eauto.
Qed.

Lemma wellFormed_timersAhead w : wellFormed T w -> timersAhead w.
Proof.
  intros (_ & Hws & _). eapply Forall_impl; [exact Hws|].
  intros [d|r]; cbn; [lia|trivial].
Qed.

Lemma runTimers_idle ws : forall s t,
  ns_isNavigating s = false ->
  Forall (fun x => match x with
                   | Polling due => t - 1 < due
                   | Resolved _ => True
                   end) ws ->
  runTimers T t s ws = (s, List.map (idleUntil t) ws).
Proof.
  induction ws as [|x ws IH]; intros s t Hs Hws; [reflexivity|].
  inversion Hws as [|? ? Hx Hrest]; subst.
  destruct x as [d|r]; cbn [runTimers List.map idleUntil].
  - destruct (d <=? t) eqn:E.
    + unfold checkComplete. rewrite Hs. cbn [negb].
      rewrite (IH s t Hs Hrest). apply Z.leb_le in E.
      now replace d with t by lia.
    + now rewrite (IH s t Hs Hrest).
  - now rewrite (IH s t Hs Hrest).
Qed.

Lemma idleUntil_twice t1 t2 x :
  t1 <= t2 -> idleUntil t2 (idleUntil t1 x) = idleUntil t2 x.
Proof.
  intros Hle. destruct x as [d|r]; cbn; [|reflexivity].
  destruct (d <=? t1) eqn:E1; cbn.
  - apply Z.leb_le in E1. now replace (d <=? t2) with true by (symmetry; apply Z.leb_le; lia).
  - reflexivity.
Qed.

Lemma idleUntil_now w :
  timersAhead w -> List.map (idleUntil (now w)) (watchers w) = watchers w.
Proof.
  unfold timersAhead. induction 1 as [|x ws Hx _ IH]; [reflexivity|].
  cbn [List.map]. rewrite IH. f_equal. destruct x as [d|r]; cbn; [|reflexivity].
  now replace (d <=? now w) with false by (symmetry; apply Z.leb_gt; lia).
Qed.

Lemma timersAhead_idle t w :
  now w <= t ->
  Forall (fun x => match x with
                   | Polling due => t < due
                   | Resolved _ => True
                   end) (List.map (idleUntil t) (watchers w)).
Proof.
  intros _. induction (watchers w) as [|x ws IH]; [constructor|].
  cbn [List.map]. constructor; [|exact IH].
  destruct x as [d|r]; cbn; [|trivial].
  destruct (d <=? t) eqn:E; [trivial|]. now apply Z.leb_gt.
Qed.

Lemma elapse_idle n : forall w,
  ns_isNavigating (state w) = false -> timersAhead w ->
  elapse T n w
  = {| now := now w + Z.of_nat n; state := state w;
       watchers := List.map (idleUntil (now w + Z.of_nat n)) (watchers w) |}.
Proof.
  induction n as [|n IH]; intros w Hs Hahead.
  - cbn [elapse]. replace (now w + Z.of_nat 0) with (now w) by lia.
    rewrite idleUntil_now by exact Hahead. now destruct w.
  - cbn [elapse]. unfold tick at 1.
    rewrite (runTimers_idle _ _ _ Hs)
      by (replace (now w + 1 - 1) with (now w) by lia; exact Hahead).
    rewrite IH; cbn [now state watchers]; [|exact Hs|].
    + f_equal; [lia|]. rewrite List.map_map.
      apply List.map_ext. intros x.
      replace (now w + 1 + Z.of_nat n) with (now w + Z.of_nat (S n)) by lia.
      apply idleUntil_twice. lia.
    + apply (timersAhead_idle (now w + 1) w). lia.
Qed.

Lemma run_app items1 items2 w :
  run T (items1 ++ items2) w = run T items2 (run T items1 w).
Proof. unfold run. apply fold_left_app. Qed.

Lemma duration_nonneg items : 0 <= duration items.
Proof.
  induction items as [|i items IH]; [cbn; lia|].
  destruct i; cbn [duration fold_right]; fold (duration items); lia.
Qed.

Lemma run_idle items : forall w,
  ns_isNavigating (state w) = false -> timersAhead w -> quiet items ->
  ns_isNavigating (state (run T items w)) = false /\
  now (run T items w) = now w + duration items /\
  watchers (run T items w)
  = List.map (idleUntil (now w + duration items)) (watchers w).
Proof.
  induction items as [|i items IH]; intros w Hs Hahead Hq.
  - cbn. replace (now w + 0) with (now w) by lia.
    now rewrite idleUntil_now.
  - change (run T (i :: items) w) with (run T items (step T w i)).
    inversion Hq as [|? ? [Hi1 Hi2] Hrest]; subst.
    destruct i as [ms| | | |]; try congruence; cbn [step duration fold_right];
      fold (duration items).
    + rewrite (elapse_idle _ _ Hs Hahead).
      destruct (IH {| now := now w + Z.of_nat (Z.to_nat ms); state := state w;
                      watchers := List.map
                        (idleUntil (now w + Z.of_nat (Z.to_nat ms))) (watchers w) |})
        as (H1 & H2 & H3); cbn [now state watchers]; try assumption.
      { apply (timersAhead_idle _ w). cbn [now]. lia. }
      rewrite H1, H2, H3. cbn [now state watchers].
      split; [reflexivity|]. split; [lia|].
      rewrite List.map_map. apply List.map_ext. intros x.
      replace (now w + (Z.max 0 ms + duration items))
        with (now w + Z.of_nat (Z.to_nat ms) + duration items) by lia.
      apply idleUntil_twice.
      pose proof (duration_nonneg items). lia.
    + destruct (IH (_handleNavigationComplete w)) as (H1 & H2 & H3);
        cbn; try assumption; try reflexivity.
      rewrite H1, H2, H3. cbn. now repeat split.
    + assert (Hsame : snd (isNavigating T w) = w).
      { unfold isNavigating. rewrite Hs, andb_false_r. now destruct w. }
      rewrite Hsame. destruct (IH w) as (H1 & H2 & H3); try assumption.
      now repeat split.
Qed.

(** C6 (amended). Whatever happened to the tracker before, a call of
    [waitForNavigationComplete()] returns at once when no watcher exists
    (or the current one has resolved); otherwise, provided no further
    navigation starts while the caller waits, it returns at the latest one
    polling interval after the navigation timeout, measured from the last
    navigation start and hence also from the call, whether or not a
    completion event arrives; and it returns within one polling interval
    of a moment at which [isNavigating] is false, provided nothing sets it
    again in that interval. *)
Theorem waitForNavigationComplete_bounded
    (t0 : Z) (history future : list Item) :
  0 <= timeout -> 0 <= t0 ->
  let w := run T history (init t0) in
  (navigationPromise (state w) = None ->
   waitForNavigationComplete T w future = Some (now w)) /\
  (noFrameNavigated future -> timeout + 100 <= duration future ->
   exists r,
     waitForNavigationComplete T w future = Some r /\
     now w <= r <= now w + timeout + 100 /\
     r <= Z.max (now w) (lastNavigationStart (state w) + timeout + 100)) /\
  (forall before after,
     future = before ++ after ->
     ns_isNavigating (state (run T before w)) = false ->
     quiet after -> 100 <= duration after ->
     exists r,
       waitForNavigationComplete T w future = Some r /\
       now w <= r <= now (run T before w) + 100).
Proof.
  intros Hto Ht0 w.
  assert (Hwf : wellFormed T w)
    by (apply run_facts; [exact Hto|now apply init_wellFormed]).
  split.
  { intros Hnone. unfold waitForNavigationComplete. now rewrite Hnone. }
  split.
  { intros Hno Hdur.
    destruct (run_facts future w Hto Hwf) as [Hwf' Hnow' Hlast' Hev].
    pose proof (run_now future w Hto Hwf) as Hnow.
    destruct (run_last future w Hto Hwf Hno) as [Hlast _].
    pose proof Hwf as (Hle & _ & Hk).
    unfold waitForNavigationComplete.
    destruct (navigationPromise (state w)) as [k|];
      [|exists (now w); split; [reflexivity|lia]].
    destruct (lookup_lt_is_Some_2 _ _ Hk) as [x Hx]. rewrite Hx.
    destruct x as [d|r0]; [|exists (now w); split; [reflexivity|lia]].
    destruct (Hev k _ Hx) as (x' & Hx' & Hevol). rewrite Hx'.
    pose proof (wellFormed_lookup _ _ _ Hwf' Hx') as Hok.
    destruct x' as [d'|r]; cbn [evolves watcherOk] in Hevol, Hok.
    - exfalso. lia.
    - exists r. split; [reflexivity|]. lia. }
  intros before after -> Hs Hq Hdur.
  destruct (run_facts before w Hto Hwf) as [Hwf1 Hnow1 _ Hev1].
  destruct (run_idle after _ Hs (wellFormed_timersAhead _ Hwf1) Hq)
    as (_ & _ & Hws).
  pose proof Hwf as (_ & _ & Hk).
  unfold waitForNavigationComplete.
  destruct (navigationPromise (state w)) as [k|];
    [|exists (now w); split; [reflexivity|lia]].
  destruct (lookup_lt_is_Some_2 _ _ Hk) as [x Hx]. rewrite Hx.
  destruct x as [d|r0]; [|exists (now w); split; [reflexivity|lia]].
  destruct (Hev1 k _ Hx) as (x1 & Hx1 & Hevol).
  pose proof (wellFormed_lookup _ _ _ Hwf1 Hx1) as Hok.
  rewrite run_app, Hws, list_lookup_fmap, Hx1.
  destruct x1 as [d1|r1]; cbn [evolves watcherOk] in Hevol, Hok;
    cbn [fmap option_fmap option_map idleUntil].
  - replace (d1 <=? now (run T before w) + duration after) with true
      by (symmetry; apply Z.leb_le; lia).
    exists d1. split; [reflexivity|]. lia.
  - exists r1. split; [reflexivity|]. lia.
Qed.

Lemma navigationOpen_snoc items i :
  navigationOpen (items ++ [i])
  = match i with
    | FrameNavigated => true
    | Load => false
    | _ => navigationOpen items
    end.
Proof. unfold navigationOpen. rewrite fold_left_app. now destruct i. Qed.

Lemma sinceLastStart_snoc items i :
  sinceLastStart (items ++ [i])
  = match i with
    | FrameNavigated => Some 0
    | Elapse ms => option_map (fun e => e + Z.max 0 ms) (sinceLastStart items)
    | _ => sinceLastStart items
    end.
Proof. unfold sinceLastStart. rewrite fold_left_app. now destruct i. Qed.

Lemma isNavigating_value w :
  fst (isNavigating T w)
  = ns_isNavigating (state w)
    && negb (10000 <? now w - lastNavigationStart (state w)).
Proof.
  unfold isNavigating. cbn [fst getNavigationTimeouts staleTimeout].
  destruct (10000 <? now w - lastNavigationStart (state w));
    destruct (ns_isNavigating (state w)) eqn:E; cbn; rewrite ?E; reflexivity.
Qed.

Lemma flagOpen_snoc items i :
  flagOpen (items ++ [i])
  = match i with
    | FrameNavigated => true
    | DomContentLoaded => true
    | Load => false
    | _ => flagOpen items
    end.
Proof. unfold flagOpen. rewrite fold_left_app. now destruct i. Qed.

Lemma dclSinceStart_snoc items i :
  dclSinceStart (items ++ [i])
  = match i with
    | FrameNavigated => false
    | DomContentLoaded => true
    | _ => dclSinceStart items
    end.
Proof. unfold dclSinceStart. rewrite fold_left_app. now destruct i. Qed.

(** What holds of the tracker after any sequence of items. *)
Lemma tracker_invariant t0 items :
  0 <= timeout -> 0 <= t0 ->
  let w := run T items (init t0) in
  let elapsed := now w - lastNavigationStart (state w) in
  wellFormed T w /\
  (forall e, sinceLastStart items = Some e -> e = elapsed) /\
  (navigationOpen items = true -> sinceLastStart items <> None) /\
  (flagOpen items = true ->
   ns_isNavigating (state w) = true \/ timeout < elapsed \/ 10000 < elapsed) /\
  (ns_isNavigating (state w) = true -> flagOpen items = true) /\
  (dclSinceStart items = false -> ns_isNavigating (state w) = true ->
   navigationOpen items = true /\
   exists k d, navigationPromise (state w) = Some k /\
               watchers w !! k = Some (Polling d)).
Proof.
  intros Hto Ht0. induction items as [|i items IH] using rev_ind.
  - cbn. split; [now apply init_wellFormed|].
    repeat split; try discriminate.
  - rewrite run_snoc, navigationOpen_snoc, sinceLastStart_snoc,
      flagOpen_snoc, dclSinceStart_snoc.
    set (w0 := run T items (init t0)) in *. cbv zeta in IH.
    destruct IH as (Hwf & Hsince & Hopen & Hflag & Hset & Hwatch).
    pose proof (step_facts i w0 Hto Hwf) as [Hwf1 _ _ Hws].
    cbv zeta. split; [exact Hwf1|].
    destruct i as [ms| | | |]; cbn [step] in *.
    + destruct (elapse_facts (Z.to_nat ms) w0 Hto Hwf)
        as (_ & Hnow & Hlast & Hp & Hf & Hc).
      rewrite Hnow, Hlast in *.
      split.
      { intros e. destruct (sinceLastStart items) as [e0|]; [|discriminate].
        intros [= <-]. rewrite (Hsince e0 eq_refl). lia. }
      split.
      { intros H. destruct (sinceLastStart items); [discriminate|].
        now apply Hopen in H. }
      split.
      { intros H. destruct (Hflag H) as [H1|[H1|H1]]; [|right; lia|right; lia].
        destruct (ns_isNavigating (state (elapse T (Z.to_nat ms) w0))) eqn:E;
          [now left|right; left; now apply Hc]. }
      split; [intros Hs; exact (Hset (Hf Hs))|].
      intros Hno Hs.
      destruct (Hwatch Hno (Hf Hs)) as (Ho & k & d & Hk & Hd).
      split; [exact Ho|]. exists k.
      destruct (Hws k _ Hd) as (x' & Hx' & Hstep).
      destruct x' as [d'|r]; cbn [pollStep] in Hstep.
      * exists d'. split; [congruence|exact Hx'].
      * destruct Hstep as [_ Hfalse]. congruence.
    + cbn. split; [intros e [= <-]; lia|]. split; [discriminate|].
      split; [now left|]. split; [reflexivity|].
      intros _ _. split; [reflexivity|].
      exists (length (watchers w0)), (now w0 + 100). split; [reflexivity|].
      apply list_lookup_middle. reflexivity.
    + cbn. split; [exact Hsince|]. split; [discriminate|].
      split; [discriminate|]. split; discriminate.
    + cbn. split; [exact Hsince|]. split; [exact Hopen|].
      split; [now left|]. split; [reflexivity|]. discriminate.
    + unfold isNavigating. cbn [snd now state watchers getNavigationTimeouts staleTimeout].
      assert (Hl : forall b : bool,
                lastNavigationStart
                  (if b then set_isNavigating false (state w0) else state w0)
                = lastNavigationStart (state w0)) by now intros [].
      assert (Hp : forall b : bool,
                navigationPromise
                  (if b then set_isNavigating false (state w0) else state w0)
                = navigationPromise (state w0)) by now intros [].
      assert (Hb : forall b : bool,
                ns_isNavigating
                  (if b then set_isNavigating false (state w0) else state w0)
                = true -> ns_isNavigating (state w0) = true)
        by (intros []; [discriminate|trivial]).
      rewrite Hl, Hp.
      split; [exact Hsince|]. split; [exact Hopen|]. split.
      { intros H. destruct (Hflag H) as [H1|[H1|H1]]; [|now right; left|now right; right].
        destruct (10000 <? now w0 - lastNavigationStart (state w0)) eqn:E.
        - right; right. now apply Z.ltb_lt.
        - left. cbn. exact H1. }
      split; [intros Hs; exact (Hset (Hb _ Hs))|].
      intros Hno Hs. exact (Hwatch Hno (Hb _ Hs)).
Qed.





(** Whenever the navigation timeout is more than one polling interval
    short of the staleness threshold, the watcher clears the flag before
    the staleness threshold is reached: just before 10 seconds have passed
    since a start that nothing completed, [isNavigating()] returns false
    where the specification has it true. *)
Lemma isNavigating_short_timeout (t0 : Z) :
  0 <= timeout -> 0 <= t0 -> timeout + 100 <= 9999 ->
  fst (isNavigating T (run T [FrameNavigated; Elapse 9999] (init t0))) = false
  /\ spec_isNavigating [FrameNavigated; Elapse 9999] = true.
Proof.
  intros Hto Ht0 Hshort. split; [|reflexivity].
  destruct (tracker_invariant t0 [FrameNavigated; Elapse 9999] Hto Ht0)
    as (Hwf & Hsince & _ & _ & _ & Hwatch).
  rewrite isNavigating_value.
  destruct (ns_isNavigating _) eqn:Hf; [|reflexivity].
  destruct (Hwatch eq_refl eq_refl) as (_ & k & d & _ & Hd).
  pose proof (wellFormed_lookup _ _ _ Hwf Hd) as Hok. cbn [watcherOk] in Hok.
  pose proof (Hsince 9999 eq_refl) as He. lia.
Qed.

End NavigationTracker.

Section NavigationExamples.
Import Config Navigation.
Local Open Scope Z_scope.

(** The theorem for a tab that starts navigating at time 1000 and never
    completes, the caller waiting from time 1040 on. *)
Lemma waitForNavigationComplete_bounded_witness :
  exists r,
    waitForNavigationComplete sampleTimeouts
      (run sampleTimeouts [FrameNavigated; Elapse 40] (init 1000))
      [Elapse 6000] = Some r /\
    r <= 1040 + 5000 + 100.
Proof.
  assert (Hto : 0 <= DEFAULT_PAGE_TIMEOUT sampleTimeouts) by (cbn; lia).
  assert (Ht0 : 0 <= 1000) by lia.
  assert (Hno : noFrameNavigated [Elapse 6000])
    by (repeat constructor; discriminate).
  assert (Hdur : DEFAULT_PAGE_TIMEOUT sampleTimeouts + 100
                 <= duration [Elapse 6000]) by (cbn; lia).
  destruct (proj1 (proj2 (waitForNavigationComplete_bounded sampleTimeouts
                     1000 [FrameNavigated; Elapse 40] [Elapse 6000] Hto Ht0))
              Hno Hdur) as (r & Hr & Hb & _).
  exists r. split; [exact Hr|].
  replace (now (run sampleTimeouts [FrameNavigated; Elapse 40] (init 1000)))
    with 1040 in Hb by (vm_compute; reflexivity).
  cbn in Hb. lia.
Defined.

(** C6, as stated, fails when a navigation starts again while the caller
    waits: the watcher measures its timeout from the latest start. A
    navigation starts at time 1000, the caller waits from then on, a
    second navigation starts 5 seconds later and no completion event ever
    arrives; the caller resumes at time 11100, which is 10.1 seconds after
    its call and not within the 5.1 seconds of the claim. *)
Lemma waitForNavigationComplete_restart_counterexample :
  let w := run sampleTimeouts [FrameNavigated] (init 1000) in
  now w = 1000 /\
  waitForNavigationComplete sampleTimeouts w
    [Elapse 5000; FrameNavigated; Elapse 20000] = Some 11100 /\
  ~ (11100 <= now w + DEFAULT_PAGE_TIMEOUT sampleTimeouts + 100).
Proof.
  cbv zeta. split; [vm_compute; reflexivity|].
  split; [vm_compute; reflexivity|].
  replace (now (run sampleTimeouts [FrameNavigated] (init 1000)))
    with 1000 by (vm_compute; reflexivity).
  cbn. lia.
Qed.



End NavigationExamples.

(** ** The tab session *)

Section TabSession.
Import JS Config Session.

Lemma dispatch_closeNotifications w ev :
  closeNotifications (effects (dispatch w ev))
  = closeNotifications (effects w) + closeEvents [ev].
Proof.
  destruct ev; cbn [dispatch set_tab setModalState effects closeEvents
                    List.filter length]; try lia.
  - unfold _onClose, closeNotifications. cbn [effects].
    rewrite List.filter_app, length_app. reflexivity.
  - destruct (running w !! call); cbn [effects]; lia.
Qed.

Lemma deliver_closeNotifications evs : forall w,
  closeNotifications (effects (fold_left dispatch evs w))
  = closeNotifications (effects w) + closeEvents evs.
Proof.
  induction evs as [|ev evs IH]; intros w; [cbn; lia|].
  cbn [fold_left]. rewrite IH, dispatch_closeNotifications.
  unfold closeEvents. cbn [List.filter].
  destruct ev; cbn [length]; lia.
Qed.

(** C9 (amended). On the page's close event the session clears its
    console message history, its recent console messages and its
    request/response map, leaves its downloads list and its modal-state
    list as they are, and notifies the owning context once: after any
    events, the context has been notified as many times more as there were
    close events among them. *)
Theorem onClose_spec (w : World) (evs : list Event) :
  let w' := dispatch w EvClose in
  _consoleMessages (tab w') = [] /\
  _recentConsoleMessages (tab w') = [] /\
  _requests (tab w') = ∅ /\
  _downloads (tab w') = _downloads (tab w) /\
  _modalStates (tab w') = _modalStates (tab w) /\
  effects w' = effects w ++ [FxPageClosed] /\
  closeNotifications (effects (fold_left dispatch evs w))
  = closeNotifications (effects w) + closeEvents evs.
Proof.
  cbn. repeat split; try reflexivity. apply deliver_closeNotifications.
Qed.

(** C9, as stated, fails for the downloads list and the modal-state list:
    [_clearCollectedArtifacts] does not touch them. *)
Lemma onClose_downloads_modals_counterexample :
  let m := {| ms_type := dialog; ms_description := lit "alert"; ms_handle := 1 |} in
  let d := {| download := 1; finished := true; outputFile := lit "a.pdf" |} in
  let t := {| _lastTitle := lit "about:blank";
              _consoleMessages := []; _recentConsoleMessages := [];
              _requests := ∅; _modalStates := [m]; _downloads := [d];
              pageUrl := lit "about:blank" |} in
  let w := set_tab t (newWorld (lit "about:blank")) in
  _downloads (tab (dispatch w EvClose)) = [d] /\
  _modalStates (tab (dispatch w EvClose)) = [m].
Proof. cbn. split; reflexivity. Qed.

Lemma raceLoop_undecided pre : forall call var w tail,
  undecided call pre ->
  raceLoop call var w (pre ++ tail)
  = raceLoop call var (fold_left dispatch pre w) tail.
Proof.
  induction pre as [|ev pre IH]; intros call var w tail Hpre; [reflexivity|].
  inversion Hpre as [|? ? Hev Hrest]; subst.
  destruct ev as [m|rq|rq rs|m| |c s]; try contradiction;
    cbn [app raceLoop fold_left]; try (now apply IH).
  rewrite bool_decide_false by exact Hev. now apply IH.
Qed.

(** What the events before the decision leave in place: the listener of
    the call and its running action. *)
Lemma undecided_keeps pre : forall call w k,
  undecided call pre ->
  call ∈ modalStateListeners w ->
  running w !! call = Some k ->
  call ∈ modalStateListeners (fold_left dispatch pre w) /\
  running (fold_left dispatch pre w) !! call = Some k.
Proof.
  induction pre as [|ev pre IH]; intros call w k Hpre Hl Hr; [now split|].
  inversion Hpre as [|? ? Hev Hrest]; subst.
  cbn [fold_left]. apply IH; [exact Hrest| |].
  - destruct ev as [m|rq|rq rs|m| |c s]; try contradiction; cbn; try exact Hl.
    destruct (running w !! c); exact Hl.
  - destruct ev as [m|rq|rq rs|m| |c s]; try contradiction; cbn; try exact Hr.
    destruct (running w !! c) eqn:E; [|exact Hr].
    cbn. rewrite lookup_delete_ne by exact Hev. exact Hr.
Qed.

(** Calls made to collaborators stay on record. *)
Lemma effects_kept evs : forall w fx,
  fx ∈ effects w -> fx ∈ effects (fold_left dispatch evs w).
Proof.
  induction evs as [|ev evs IH]; intros w fx Hfx; [exact Hfx|].
  cbn [fold_left]. apply IH.
  destruct ev as [m|rq|rq rs|m| |c st]; cbn; try exact Hfx.
  - apply elem_of_app. now left.
  - destruct (running w !! c); exact Hfx.
Qed.

Lemma startRace_listening action w :
  calls w ∈ modalStateListeners (startRace action w) /\
  running (startRace action w) !! calls w = Some action.
Proof.
  split; cbn.
  - apply elem_of_app. right. apply list_elem_of_singleton. reflexivity.
  - apply lookup_insert_eq.
Qed.

(** The action of the call is the first to settle, and fulfils. *)
Lemma race_action_first action w pre a rest :
  modalStates (tab w) = [] ->
  undecided (calls w) pre ->
  let w0 := fold_left dispatch pre (startRace action w) in
  _raceAgainstModalStates action w
    (pre ++ EvSettled (calls w) (Fulfilled a) :: rest)
  = (RaceReturned [], snd (action a (tab w0)),
     actionWon (calls w) (fst (action a (tab w0))) w0, rest).
Proof.
  intros Hmodal Hpre. cbv zeta. unfold _raceAgainstModalStates. rewrite Hmodal.
  destruct (startRace_listening action w) as [Hl Hr].
  destruct (undecided_keeps pre _ _ _ Hpre Hl Hr) as [_ Hr0].
  rewrite raceLoop_undecided by exact Hpre.
  cbn [raceLoop]. rewrite bool_decide_true by reflexivity.
  set (w0 := fold_left dispatch pre (startRace action w)) in *.
  destruct (running w0 !! calls w) as [k|] eqn:E; [|congruence].
  assert (k = action) by congruence. subst k.
  now destruct (action a (tab w0)) as [t v].
Qed.

(** A modal state is added before the action of the call settles. *)
Lemma race_modal_first action w pre m rest :
  modalStates (tab w) = [] ->
  undecided (calls w) pre ->
  let w0 := fold_left dispatch pre (startRace action w) in
  _raceAgainstModalStates action w (pre ++ EvModal m :: rest)
  = (RaceReturned [m], None, setModalState m w0, rest) /\
  running (setModalState m w0) !! calls w = Some action.
Proof.
  intros Hmodal Hpre. cbv zeta. unfold _raceAgainstModalStates. rewrite Hmodal.
  destruct (startRace_listening action w) as [Hl Hr].
  destruct (undecided_keeps pre _ _ _ Hpre Hl Hr) as [Hl0 Hr0].
  rewrite raceLoop_undecided by exact Hpre.
  cbn [raceLoop]. rewrite bool_decide_true by exact Hl0.
  split; [reflexivity|exact Hr0].
Qed.

(** C1. If a modal state is present when [_raceAgainstModalStates] is
    called, the present list is returned at once and the action is not
    started (the world is as before). Otherwise the action is started and
    a listener registered; when the action is the first to settle,
    fulfilled, the call returns the empty list and the listener is
    removed; when a modal state is added first, the call returns exactly
    that modal state, whatever the action does later, and the action stays
    running: its continuation is run when it settles. When the action
    rejects first the call throws; when nothing happens the call stays
    pending. *)
Theorem race_against_modal_states_spec
    (action : Continuation) (w : World) (schedule : list Event) :
  let call := calls w in
  let result := _raceAgainstModalStates action w schedule in
  (modalStates (tab w) <> [] ->
   result = (RaceReturned (modalStates (tab w)), None, w, schedule)) /\
  (modalStates (tab w) = [] ->
   (forall pre a rest,
      schedule = pre ++ EvSettled call (Fulfilled a) :: rest ->
      undecided call pre ->
      let w0 := fold_left dispatch pre (startRace action w) in
      let after := actionWon call (fst (action a (tab w0))) w0 in
      result = (RaceReturned [], snd (action a (tab w0)), after, rest) /\
      (call ∉ modalStateListeners after) /\
      (FxActionStarted call ∈ effects after)) /\
   (forall pre m rest,
      schedule = pre ++ EvModal m :: rest ->
      undecided call pre ->
      let w0 := fold_left dispatch pre (startRace action w) in
      let after := setModalState m w0 in
      result = (RaceReturned [m], None, after, rest) /\
      running after !! call = Some action /\
      forall a, tab (dispatch after (EvSettled call (Fulfilled a)))
                = fst (action a (tab after))) /\
   (forall pre e rest,
      schedule = pre ++ EvSettled call (Rejected e) :: rest ->
      undecided call pre ->
      let w0 := fold_left dispatch pre (startRace action w) in
      result = (RaceThrew e, None, actionFailed call w0, rest)) /\
   (undecided call schedule ->
    result = (RacePending, None,
              fold_left dispatch schedule (startRace action w), []))).
Proof.
  cbv zeta. split.
  { unfold _raceAgainstModalStates.
    destruct (modalStates (tab w)); [congruence|reflexivity]. }
  intros Hmodal. split; [|split; [|split]].
  - intros pre a rest -> Hpre.
    split; [now apply race_action_first|]. split.
    + cbn. rewrite list_elem_of_In, filter_In. intros [_ Hneq].
      now rewrite Nat.eqb_refl in Hneq.
    + cbn [actionWon effects]. apply effects_kept.
      cbn. apply elem_of_app. right. now apply list_elem_of_singleton.
  - intros pre m rest -> Hpre.
    destruct (race_modal_first action w pre m rest Hmodal Hpre) as [Hres Hr0].
    split; [exact Hres|]. split; [exact Hr0|].
    intros a. cbn [dispatch]. cbv zeta in Hr0.
    set (after := setModalState m _) in *.
    destruct (running after !! calls w) as [k|] eqn:E; [|congruence].
    assert (k = action) by congruence. subst k. reflexivity.
  - intros pre e rest -> Hpre.
    unfold _raceAgainstModalStates. rewrite Hmodal.
    destruct (startRace_listening action w) as [Hl Hr].
    destruct (undecided_keeps pre _ _ _ Hpre Hl Hr) as [_ Hr0].
    rewrite raceLoop_undecided by exact Hpre.
    cbn [raceLoop]. rewrite bool_decide_true by reflexivity.
    set (w0 := fold_left dispatch pre (startRace action w)) in *.
    destruct (running w0 !! calls w) as [k|] eqn:E; [|congruence].
    reflexivity.
  - intros Hpre. unfold _raceAgainstModalStates. rewrite Hmodal.
    rewrite <- (app_nil_r schedule) at 1.
    now rewrite raceLoop_undecided.
Qed.

(** The theorem for a title read during which a console message arrives,
    then a dialog opens, and only then the title is answered. *)
Lemma race_against_modal_states_spec_witness :
  let m := {| ms_type := dialog; ms_description := lit "alert"; ms_handle := 1 |} in
  let c := {| cm_type := Some (lit "log"); cm_text := lit "hi";
              cm_rendered := lit "[LOG] hi" |} in
  fst (fst (fst (_raceAgainstModalStates updateTitleAction
                   (newWorld (lit "about:blank"))
                   [EvConsole c; EvModal m;
                    EvSettled 0 (Fulfilled (AnsTitle (lit "Home")))])))
  = RaceReturned [m].
Proof.
  cbv zeta.
  pose proof (race_against_modal_states_spec updateTitleAction
                (newWorld (lit "about:blank"))
                [EvConsole {| cm_type := Some (lit "log"); cm_text := lit "hi";
                              cm_rendered := lit "[LOG] hi" |};
                 EvModal {| ms_type := dialog; ms_description := lit "alert";
                            ms_handle := 1 |};
                 EvSettled 0 (Fulfilled (AnsTitle (lit "Home")))]) as H.
  cbv zeta in H. destruct H as [_ H].
  destruct (H eq_refl) as (_ & Hmodal & _).
  destruct (Hmodal [EvConsole {| cm_type := Some (lit "log"); cm_text := lit "hi";
                                 cm_rendered := lit "[LOG] hi" |}]
              {| ms_type := dialog; ms_description := lit "alert"; ms_handle := 1 |}
              [EvSettled 0 (Fulfilled (AnsTitle (lit "Home")))]
              eq_refl) as [Hres _].
  - repeat constructor.
  - rewrite Hres. reflexivity.
Defined.

(** *** Snapshots and the recent console buffer *)

Lemma captureAction_tab pattern maxLength a t :
  fst (captureAction pattern maxLength a t) = t.
Proof. unfold captureAction. now destruct a. Qed.

Lemma captureAction_snapshot pattern maxLength full url title t :
  exists snap,
    snd (captureAction pattern maxLength (AnsSnapshot full url title) t)
    = Some snap /\
    TabSnapshot.url snap = url /\ TabSnapshot.title snap = title /\
    TabSnapshot.modalStates snap = [] /\
    TabSnapshot.downloads snap = _downloads t.
Proof. cbn. eexists. split; [reflexivity|]. cbn. auto. Qed.

Lemma dispatch_recent w ev m :
  bystanders w ->
  bystanders (dispatch w ev) /\
  occurrences (_recentConsoleMessages (tab (dispatch w ev))) m
  <= occurrences (_recentConsoleMessages (tab w)) m
     + occurrences (consoleOf [ev]) m.
Proof.
  intros Hby.
  destruct ev as [c|rq|rq rs|ms| |call st]; cbn [dispatch consoleOf flat_map app];
    try (split; [exact Hby|cbn; lia]).
  - split; [exact Hby|]. cbn [set_tab tab _handleConsoleMessage
                              _recentConsoleMessages].
    rewrite count_occ_app. lia.
  - destruct (running w !! call) as [k|] eqn:E; [|split; [exact Hby|cbn; lia]].
    split.
    + intros c k' Hk'. cbn in Hk'.
      destruct (decide (c = call)) as [->|Hne].
      * rewrite lookup_delete_eq in Hk'. discriminate.
      * rewrite lookup_delete_ne in Hk' by congruence. eauto.
    + cbn [tab]. destruct st as [a|e]; [rewrite (Hby _ _ E)|]; cbn; lia.
Qed.

Lemma consoleOf_cons ev evs : consoleOf (ev :: evs) = consoleOf [ev] ++ consoleOf evs.
Proof. unfold consoleOf. cbn. now rewrite app_nil_r. Qed.

Lemma deliver_recent evs : forall w m,
  bystanders w ->
  bystanders (fold_left dispatch evs w) /\
  occurrences (_recentConsoleMessages (tab (fold_left dispatch evs w))) m
  <= occurrences (_recentConsoleMessages (tab w)) m
     + occurrences (consoleOf evs) m.
Proof.
  induction evs as [|ev evs IH]; intros w m Hby; [split; [exact Hby|cbn; lia]|].
  cbn [fold_left]. destruct (dispatch_recent w ev m Hby) as [Hby1 H1].
  destruct (IH _ m Hby1) as [Hby2 H2]. split; [exact Hby2|].
  rewrite consoleOf_cons, count_occ_app. lia.
Qed.

Lemma raceLoop_recent schedule : forall call var w r v w' rest m,
  raceLoop call var w schedule = (r, v, w', rest) ->
  bystanders w ->
  bystanders w' /\
  occurrences (_recentConsoleMessages (tab w')) m
  + occurrences (consoleOf rest) m
  <= occurrences (_recentConsoleMessages (tab w)) m
     + occurrences (consoleOf schedule) m.
Proof.
  induction schedule as [|ev schedule IH]; intros call var w r v w' rest m Hrun Hby.
  - injection Hrun as <- <- <- <-. split; [exact Hby|lia].
  - rewrite consoleOf_cons, count_occ_app.
    destruct (dispatch_recent w ev m Hby) as [Hby1 H1].
    assert (Hstep : forall r v w' rest,
              raceLoop call var (dispatch w ev) schedule = (r, v, w', rest) ->
              bystanders w' /\
              occurrences (_recentConsoleMessages (tab w')) m
              + occurrences (consoleOf rest) m
              <= occurrences (_recentConsoleMessages (tab w)) m
                 + (occurrences (consoleOf [ev]) m
                    + occurrences (consoleOf schedule) m)).
    { intros r0 v0 w0 rest0 H0. destruct (IH _ _ _ _ _ _ _ m H0 Hby1) as [Hb Hc].
      split; [exact Hb|lia]. }
    destruct ev as [c|rq|rq rs|ms| |c st]; cbn [raceLoop] in Hrun;
      try (now apply Hstep in Hrun).
    + destruct (bool_decide _); [|now apply Hstep in Hrun].
      injection Hrun as <- <- <- <-. split; [exact Hby1|]. cbn in *. lia.
    + destruct (bool_decide (c = call)) eqn:Hc; [|now apply Hstep in Hrun].
      apply bool_decide_eq_true in Hc. subst c.
      destruct (running w !! call) as [k|] eqn:E.
      * assert (Hby' : forall t, bystanders
                  {| tab := t; modalStateListeners := modalStateListeners w;
                     running := delete call (running w);
                     effects := effects w; calls := calls w |}).
        { intros t c k' Hk'. cbn in Hk'.
          destruct (decide (c = call)) as [->|Hne].
          - rewrite lookup_delete_eq in Hk'. discriminate.
          - rewrite lookup_delete_ne in Hk' by congruence. eauto. }
        destruct st as [a|e].
        -- pose proof (Hby _ _ E a (tab w)) as Hfst.
           destruct (k a (tab w)) as [t v0]. cbn in Hfst. subst t.
           injection Hrun as <- <- <- <-. split.
           ++ intros c k' Hk'. apply (Hby' (tab w) c k'). exact Hk'.
           ++ cbn. lia.
        -- injection Hrun as <- <- <- <-. split; [apply Hby'|]. cbn. lia.
      * destruct (IH _ _ _ _ _ _ _ m Hrun Hby) as [Hb Hc]. split; [exact Hb|].
        cbn. lia.
Qed.

Lemma startRace_bystanders action w :
  (forall a t, fst (action a t) = t) -> bystanders w ->
  bystanders (startRace action w).
Proof.
  intros Ha Hby c k Hk. cbn in Hk.
  destruct (decide (c = calls w)) as [->|Hne].
  - rewrite lookup_insert_eq in Hk. injection Hk as <-. exact Ha.
  - rewrite lookup_insert_ne in Hk by congruence. eauto.
Qed.

Lemma captureWith_recent action w schedule res w' rest m :
  (forall a t, fst (action a t) = t) -> bystanders w ->
  captureWith action w schedule = (res, w', rest) ->
  bystanders w' /\
  occurrences (consoleOfResult res) m
  + occurrences (_recentConsoleMessages (tab w')) m
  + occurrences (consoleOf rest) m
  <= occurrences (_recentConsoleMessages (tab w)) m
     + occurrences (consoleOf schedule) m.
Proof.
  intros Ha Hby. unfold captureWith, _raceAgainstModalStates.
  destruct (modalStates (tab w)) as [|m0 ms].
  - destruct (raceLoop _ _ _ _) as [[[r v] w1] rest1] eqn:Hrun.
    destruct (raceLoop_recent _ _ _ _ _ _ _ _ m Hrun
                (startRace_bystanders _ _ Ha Hby)) as [Hby1 Hc].
    cbn [startRace tab] in Hc.
    destruct r as [ms|e|]; [destruct v as [snap|]|..];
      intros [= <- <- <-]; (split; [exact Hby1|]); cbn; lia.
  - intros [= <- <- <-]. split; [exact Hby|]. cbn. lia.
Qed.

Lemma dispatch_set_effects fx w ev :
  exists fx', dispatch (set_effects fx w) ev = set_effects fx' (dispatch w ev).
Proof.
  destruct ev as [c|rq|rq rs|ms| |call st]; cbn [dispatch];
    try (exists fx; reflexivity).
  - exists (fx ++ [FxPageClosed]). reflexivity.
  - cbn [set_effects running]. destruct (running w !! call); exists fx; reflexivity.
Qed.

(** The calls on record have no bearing on what the events do to the
    rest of the world. *)
Lemma deliver_set_effects evs : forall fx w,
  exists fx',
    fold_left dispatch evs (set_effects fx w)
    = set_effects fx' (fold_left dispatch evs w).
Proof.
  induction evs as [|ev evs IH]; intros fx w; [now exists fx|].
  cbn [fold_left]. destruct (dispatch_set_effects fx w ev) as [fx1 ->].
  apply IH.
Qed.

Lemma navigate_world T url env w :
  let w2 := fold_left dispatch (navigateEvents env)
              {| tab := _clearCollectedArtifacts (tab w);
                 modalStateListeners := modalStateListeners w;
                 running := running w;
                 effects := effects w ++ [FxWaitForDownload; FxGoto url];
                 calls := calls w |} in
  tab (snd (navigate T url env w)) = tab w2 /\
  running (snd (navigate T url env w)) = running w2.
Proof.
  cbv zeta. unfold navigate, navigateEvents, throwsAtOnce.
  rewrite fold_left_app.
  destruct (gotoRejects env) as [message|].
  - destruct (negb _); [cbn [fold_left]; split; reflexivity|].
    destruct (downloadEvent env) as [after [d|]|]; try (split; reflexivity).
    destruct (after <? LONG_DELAY T)%Z; split; reflexivity.
  - match goal with
    | |- context [fold_left dispatch (afterGoto env) (set_effects ?fx ?w2)] =>
        destruct (deliver_set_effects (afterGoto env) fx w2) as [fx' Hfx]
    end.
    destruct (waitForLoadState _ _); cbn [snd]; rewrite Hfx; split; reflexivity.
Qed.

Lemma attached_option out m :
  occurrences (attached (option_list out)) m
  = occurrences (match out with
                 | Some snap => TabSnapshot.consoleMessages snap
                 | None => []
                 end) m.
Proof. destruct out; cbn; [now rewrite app_nil_r|reflexivity]. Qed.

Lemma arrivals_cons st steps : arrivals (st :: steps) = arrivals [st] ++ arrivals steps.
Proof. unfold arrivals. cbn [flat_map]. now rewrite app_nil_r. Qed.

Lemma arrivals_single st :
  arrivals [st]
  = match st with
    | Deliver ev => consoleOf [ev]
    | Capture _ _ during => consoleOf during
    | Navigate _ env => consoleOf (navigateEvents env)
    | ClearModal _ => []
    end.
Proof. unfold arrivals. cbn [flat_map]. apply app_nil_r. Qed.

Lemma sessionStep_recent T w st w1 out m :
  bystanders w ->
  sessionStep T w st = Some (w1, out) ->
  bystanders w1 /\
  occurrences (attached (option_list out)) m
  + occurrences (_recentConsoleMessages (tab w1)) m
  <= occurrences (_recentConsoleMessages (tab w)) m
     + occurrences (arrivals [st]) m.
Proof.
  intros Hby. rewrite arrivals_single, attached_option.
  destruct st as [ev|selector maxLength during|ms|url env]; cbn [sessionStep].
  - intros [= <- <-]. destruct (dispatch_recent w ev m Hby) as [H1 H2].
    split; [exact H1|]. cbn [count_occ]. lia.
  - unfold _captureSnapshotInternal.
    assert (Hcap : forall pattern res w' rest,
              captureWith (captureAction pattern maxLength) w during
              = (res, w', rest) ->
              bystanders (fold_left dispatch rest w') /\
              occurrences (consoleOfResult res) m
              + occurrences
                  (_recentConsoleMessages (tab (fold_left dispatch rest w'))) m
              <= occurrences (_recentConsoleMessages (tab w)) m
                 + occurrences (consoleOf during) m).
    { intros pattern res w' rest Hc.
      destruct (captureWith_recent _ _ _ _ _ _ m
                  (captureAction_tab pattern maxLength) Hby Hc) as [Hb1 Hc1].
      destruct (deliver_recent rest w' m Hb1) as [Hb2 Hc2].
      split; [exact Hb2|lia]. }
    destruct (selectorPattern selector) as [pattern|].
    + destruct (captureWith _ _ _) as [[res w'] rest] eqn:Hc.
      destruct (Hcap _ _ _ _ Hc) as [Hb Hn].
      destruct res as [snap|e|]; intros [= <- <-]; (split; [exact Hb|]);
        cbn [consoleOfResult count_occ] in *; lia.
    + destruct (modalStates (tab w)); [discriminate|].
      destruct (captureWith _ _ _) as [[res w'] rest] eqn:Hc.
      destruct (Hcap _ _ _ _ Hc) as [Hb Hn].
      destruct res as [snap|e|]; intros [= <- <-]; (split; [exact Hb|]);
        cbn [consoleOfResult count_occ] in *; lia.
  - intros [= <- <-]. split; [exact Hby|]. cbn. lia.
  - intros [= <- <-].
    destruct (navigate_world T url env w) as [Ht Hr]. cbv zeta in Ht, Hr.
    set (cleared := {| tab := _clearCollectedArtifacts (tab w);
                       modalStateListeners := modalStateListeners w;
                       running := running w;
                       effects := effects w ++ [FxWaitForDownload; FxGoto url];
                       calls := calls w |}) in *.
    assert (Hbc : bystanders cleared) by exact Hby.
    destruct (deliver_recent (navigateEvents env) cleared m Hbc) as [Hb Hc].
    split.
    + intros c k Hk. rewrite Hr in Hk. eauto.
    + rewrite Ht. cbn [count_occ cleared tab _clearCollectedArtifacts
                       _recentConsoleMessages] in *. lia.
Qed.

Lemma session_recent T steps : forall w w' snaps m,
  bystanders w ->
  session T w steps = Some (w', snaps) ->
  occurrences (attached snaps) m
  + occurrences (_recentConsoleMessages (tab w')) m
  <= occurrences (_recentConsoleMessages (tab w)) m
     + occurrences (arrivals steps) m.
Proof.
  induction steps as [|st steps IH]; intros w w' snaps m Hby.
  - intros [= <- <-]. cbn. lia.
  - cbn [session].
    destruct (sessionStep T w st) as [[w1 out]|] eqn:Hs; [|discriminate].
    destruct (session T w1 steps) as [[w2 outs]|] eqn:Hss; [|discriminate].
    intros [= <- <-].
    destruct (sessionStep_recent _ _ _ _ _ m Hby Hs) as [Hb1 H1].
    pose proof (IH _ _ _ m Hb1 Hss) as H2.
    rewrite arrivals_cons, count_occ_app.
    assert (Hout : occurrences
                     (attached match out with
                               | Some snap => snap :: outs
                               | None => outs
                               end) m
                   = occurrences (attached (option_list out)) m
                     + occurrences (attached outs) m).
    { rewrite attached_option. destruct out; [|reflexivity].
      unfold attached. cbn [flat_map]. apply count_occ_app. }
    rewrite Hout. lia.
Qed.

(** With a modal state present, [captureWith] returns the fallback
    snapshot and leaves the world and the schedule as they are, whatever
    its action. *)
Lemma captureWith_modal_present action w schedule :
  modalStates (tab w) <> [] ->
  captureWith action w schedule
  = (Captured
       {| TabSnapshot.url := pageUrl (tab w);
          TabSnapshot.title := [];
          TabSnapshot.ariaSnapshot := [];
          TabSnapshot.modalStates := modalStates (tab w);
          TabSnapshot.consoleMessages := [];
          TabSnapshot.downloads := [] |}, w, schedule).
Proof.
  intros Hne. unfold captureWith, _raceAgainstModalStates.
  destruct (modalStates (tab w)) as [|m ms] eqn:E; [congruence|reflexivity].
Qed.

(** A capture that starts with an empty buffer and during which no
    console message arrives returns no console message. *)
Lemma capture_nothing_new selector maxLength w schedule snap w' rest :
  bystanders w ->
  _recentConsoleMessages (tab w) = [] ->
  consoleOf schedule = [] ->
  _captureSnapshotInternal selector maxLength w schedule
  = Some (Captured snap, w', rest) ->
  TabSnapshot.consoleMessages snap = [].
Proof.
  intros Hby He Hnone Hres.
  assert (Hcap : exists pattern,
            captureWith (captureAction pattern maxLength) w schedule
            = (Captured snap, w', rest)).
  { unfold _captureSnapshotInternal in Hres.
    destruct (selectorPattern selector) as [pattern|].
    - exists pattern. congruence.
    - destruct (modalStates (tab w)); [discriminate|]. exists None. congruence. }
  destruct Hcap as [pattern Hcap].
  apply (count_occ_inv_nil ConsoleMessage_eq_dec). intros m.
  destruct (captureWith_recent _ _ _ _ _ _ m
              (captureAction_tab pattern maxLength) Hby Hcap) as [_ Hc].
  rewrite He, Hnone in Hc. cbn [consoleOfResult count_occ] in Hc. lia.
Qed.

(** C2. When a capture completes without a modal state interrupting it,
    the snapshot returned carries exactly the recent console buffer as it
    is at completion, and the buffer is empty afterwards; a capture that
    starts with an empty buffer and during which no console message
    arrives returns no console message. When a modal state interrupts the
    capture, or is present when it starts, the snapshot returned carries
    no console message and the buffer is left as it is. Over a whole
    session no console message is attached more often than it arrived: if
    the messages that arrive are all different, no message is attached to
    two snapshots. (The second and the last part are about tabs whose
    running actions leave the fields of the tab alone, as the actions of
    captures do.) *)
Theorem capture_console_drain
    (selector : option jsstring) (maxLength : option nat)
    (w : World) (schedule : list Event) :
  let call := calls w in
  let result := _captureSnapshotInternal selector maxLength w schedule in
  (forall pattern pre full url title rest,
     modalStates (tab w) = [] ->
     selectorPattern selector = Some pattern ->
     schedule = pre ++ EvSettled call (Fulfilled (AnsSnapshot full url title))
                       :: rest ->
     undecided call pre ->
     let w0 :=
       fold_left dispatch pre (startRace (captureAction pattern maxLength) w) in
     exists snap w',
       result = Some (Captured snap, w', rest) /\
       TabSnapshot.consoleMessages snap = _recentConsoleMessages (tab w0) /\
       _recentConsoleMessages (tab w') = [] /\
       TabSnapshot.modalStates snap = [] /\
       TabSnapshot.url snap = url /\ TabSnapshot.title snap = title) /\
  (forall snap w' rest,
     bystanders w ->
     _recentConsoleMessages (tab w) = [] ->
     consoleOf schedule = [] ->
     result = Some (Captured snap, w', rest) ->
     TabSnapshot.consoleMessages snap = []) /\
  (forall pattern pre m rest,
     modalStates (tab w) = [] ->
     selectorPattern selector = Some pattern ->
     schedule = pre ++ EvModal m :: rest ->
     undecided call pre ->
     let w0 :=
       fold_left dispatch pre (startRace (captureAction pattern maxLength) w) in
     exists snap,
       result = Some (Captured snap, setModalState m w0, rest) /\
       TabSnapshot.consoleMessages snap = [] /\
       TabSnapshot.modalStates snap = [m] /\
       _recentConsoleMessages (tab (setModalState m w0))
       = _recentConsoleMessages (tab w0)) /\
  (modalStates (tab w) <> [] ->
   exists snap,
     result = Some (Captured snap, w, schedule) /\
     TabSnapshot.consoleMessages snap = []) /\
  (forall T steps w' snaps,
     bystanders w ->
     session T w steps = Some (w', snaps) ->
     (forall m,
        occurrences (attached snaps) m
        + occurrences (_recentConsoleMessages (tab w')) m
        <= occurrences (_recentConsoleMessages (tab w)) m
           + occurrences (arrivals steps) m) /\
     (List.NoDup (_recentConsoleMessages (tab w) ++ arrivals steps) ->
      List.NoDup (attached snaps))).
Proof.
  cbv zeta. split; [|split; [|split; [|split]]].
  - intros pattern pre full url title rest Hmodal Hpat -> Hpre.
    unfold _captureSnapshotInternal. rewrite Hpat.
    pose proof (race_action_first (captureAction pattern maxLength) w pre
                  (AnsSnapshot full url title) rest Hmodal Hpre) as Hres.
    cbv zeta in Hres. unfold captureWith. rewrite Hres.
    set (w0 := fold_left dispatch pre
                 (startRace (captureAction pattern maxLength) w)).
    cbn [captureAction snd fst].
    eexists. eexists. split; [reflexivity|]. cbn. auto.
  - intros snap w' rest Hby He Hnone Hres.
    now apply (capture_nothing_new selector maxLength w schedule snap w' rest).
  - intros pattern pre m rest Hmodal Hpat -> Hpre.
    unfold _captureSnapshotInternal. rewrite Hpat.
    destruct (race_modal_first (captureAction pattern maxLength) w pre m rest
                Hmodal Hpre) as [Hres _].
    cbv zeta in Hres. unfold captureWith. rewrite Hres.
    eexists. split; [reflexivity|]. cbn. auto.
  - intros Hne. unfold _captureSnapshotInternal.
    destruct (selectorPattern selector) as [pattern|].
    + rewrite captureWith_modal_present by exact Hne.
      eexists. split; reflexivity.
    + destruct (modalStates (tab w)) eqn:E; [congruence|]. rewrite <- E in *.
      rewrite captureWith_modal_present by exact Hne.
      eexists. split; reflexivity.
  - intros T steps w' snaps Hby Hs.
    assert (Hcount : forall m,
              occurrences (attached snaps) m
              + occurrences (_recentConsoleMessages (tab w')) m
              <= occurrences (_recentConsoleMessages (tab w)) m
                 + occurrences (arrivals steps) m)
      by (intros m; eapply session_recent; eauto).
    split; [exact Hcount|].
    intros Hnd.
    apply (NoDup_count_occ ConsoleMessage_eq_dec). intros m.
    rewrite (NoDup_count_occ ConsoleMessage_eq_dec) in Hnd.
    specialize (Hnd m). rewrite count_occ_app in Hnd.
    specialize (Hcount m). lia.
Qed.

(** The theorem for a tab that received one console message and then
    takes a full snapshot that nothing interrupts. *)
Lemma capture_console_drain_witness :
  let c := {| cm_type := Some (lit "log"); cm_text := lit "hi";
              cm_rendered := lit "[LOG] hi" |} in
  let w := dispatch (newWorld (lit "https://example.test/")) (EvConsole c) in
  exists snap w',
    captureSnapshot w
      [EvSettled 0 (Fulfilled (AnsSnapshot (lit "- main") (lit "https://example.test/")
                                 (lit "Example")))]
    = Some (Captured snap, w', []) /\
    TabSnapshot.consoleMessages snap = [c] /\
    _recentConsoleMessages (tab w') = [].
Proof.
  cbv zeta.
  destruct (proj1 (capture_console_drain None None
              (dispatch (newWorld (lit "https://example.test/"))
                 (EvConsole {| cm_type := Some (lit "log"); cm_text := lit "hi";
                               cm_rendered := lit "[LOG] hi" |}))
              [EvSettled 0 (Fulfilled (AnsSnapshot (lit "- main")
                                         (lit "https://example.test/")
                                         (lit "Example")))])
            None [] (lit "- main") (lit "https://example.test/") (lit "Example")
            [] eq_refl eq_refl eq_refl (List.Forall_nil _))
    as (snap & w' & Hres & Hc & He & _).
  exists snap, w'. split; [exact Hres|]. split; [|exact He].
  rewrite Hc. reflexivity.
Defined.

(** C10. With a modal state present when the capture is called, the
    action is not started (the world is as before: no call to a
    collaborator, nothing running, the schedule untouched, the recent
    console buffer as it was), and the snapshot returned has the page's
    url, an empty title, an empty aria snapshot, the modal states present,
    no console message and no download. *)
Theorem capture_with_modal_present
    (selector : option jsstring) (maxLength : option nat)
    (w : World) (schedule : list Event) :
  modalStates (tab w) <> [] ->
  let fallback :=
    {| TabSnapshot.url := pageUrl (tab w);
       TabSnapshot.title := [];
       TabSnapshot.ariaSnapshot := [];
       TabSnapshot.modalStates := modalStates (tab w);
       TabSnapshot.consoleMessages := [];
       TabSnapshot.downloads := [] |} in
  capturePartialSnapshot selector maxLength w schedule
  = Some (Captured fallback, w, schedule) /\
  captureSnapshot w schedule = Some (Captured fallback, w, schedule).
Proof.
  intros Hne. cbv zeta.
  unfold capturePartialSnapshot, captureSnapshot, _captureSnapshotInternal.
  split.
  - destruct (selectorPattern selector) as [pattern|].
    + now rewrite captureWith_modal_present.
    + destruct (modalStates (tab w)) eqn:E; [congruence|]. rewrite <- E in *.
      now rewrite captureWith_modal_present.
  - cbn [selectorPattern]. now rewrite captureWith_modal_present.
Qed.

(** The theorem for a tab showing a dialog. *)
Lemma capture_with_modal_present_witness :
  let m := {| ms_type := dialog; ms_description := lit "alert"; ms_handle := 1 |} in
  let w := dispatch (newWorld (lit "https://example.test/")) (EvModal m) in
  captureSnapshot w []
  = Some (Captured
            {| TabSnapshot.url := lit "https://example.test/";
               TabSnapshot.title := [];
               TabSnapshot.ariaSnapshot := [];
               TabSnapshot.modalStates := [m];
               TabSnapshot.consoleMessages := [];
               TabSnapshot.downloads := [] |}, w, []).
Proof.
  cbv zeta.
  refine (proj2 (capture_with_modal_present None None
    (dispatch (newWorld (lit "https://example.test/"))
       (EvModal {| ms_type := dialog; ms_description := lit "alert";
                   ms_handle := 1 |})) [] _)).
  cbn. discriminate.
Defined.



End TabSession.

(** ** More about truncation *)

Section TruncationExcerpts.
Import JS Snapshot.

Lemma trimStart_suffix (s : jsstring) :
  exists pre, s = pre ++ trimStart s /\
              Forall (fun c => isWhiteSpace c = true) pre.
Proof.
  induction s as [|c s (pre & Hs & Hpre)].
  - exists []. split; [reflexivity|constructor].
  - simpl. destruct (isWhiteSpace c) eqn:E.
    + exists (c :: pre). split; [simpl; now rewrite <- Hs|now constructor].
    + exists []. split; [reflexivity|constructor].
Qed.

Lemma trimEnd_prefix (s : jsstring) :
  exists post, s = trimEnd s ++ post /\
               Forall (fun c => isWhiteSpace c = true) post.
Proof.
  destruct (trimStart_suffix (rev s)) as (pre & Hs & Hpre).
  exists (rev pre). split.
  - unfold trimEnd. rewrite <- rev_app_distr, <- Hs. symmetry. apply rev_involutive.
  - now apply List.Forall_rev.
Qed.

Lemma trim_excerpt (s : jsstring) :
  exists pre post, s = pre ++ trim s ++ post /\
                   Forall (fun c => isWhiteSpace c = true) pre /\
                   Forall (fun c => isWhiteSpace c = true) post.
Proof.
  destruct (trimStart_suffix s) as (pre & Hs & Hpre).
  destruct (trimEnd_prefix (trimStart s)) as (post & Ht & Hpost).
  exists pre, post. unfold trim. split; [|split; assumption].
  now rewrite <- Ht.
Qed.

Lemma truncate_length text maxLength :
  maxLength < length text ->
  length (_truncateAtWordBoundary text maxLength) <= maxLength.
Proof.
  intros Hlen. rewrite (truncate_cut _ _ Hlen).
  etransitivity; [apply trim_length|]. unfold substring0. rewrite length_take.
  pose proof (truncateIndex_le text maxLength). lia.
Qed.

(** X1. [_truncateAtWordBoundary] only ever removes: a text that fits is
    returned as it is (whitespace at its ends included); of a longer text
    the result is a contiguous piece, before which only whitespace was
    dropped and after which something was. *)
Theorem truncate_excerpt (text : jsstring) (maxLength : nat) :
  let result := _truncateAtWordBoundary text maxLength in
  (length text <= maxLength -> result = text) /\
  exists pre post,
    text = pre ++ result ++ post /\
    Forall (fun c => isWhiteSpace c = true) pre /\
    (maxLength < length text -> post <> []).
Proof.
  cbv zeta. split.
  { intros Hle. unfold _truncateAtWordBoundary.
    now rewrite (proj2 (Nat.leb_le _ _) Hle). }
  destruct (le_lt_dec (length text) maxLength) as [Hle|Hlt].
  - exists [], []. unfold _truncateAtWordBoundary.
    rewrite (proj2 (Nat.leb_le _ _) Hle), app_nil_r.
    split; [reflexivity|]. split; [constructor|lia].
  - pose proof (truncate_length _ _ Hlt) as Hbound.
    rewrite (truncate_cut _ _ Hlt) in *. unfold substring0 in *.
    set (i := truncateIndex text maxLength) in *.
    destruct (trim_excerpt (take i text)) as (pre & post & Ht & Hpre & _).
    exists pre, (post ++ drop i text).
    split; [|split; [exact Hpre|]].
    + rewrite <- (take_drop i text) at 1. rewrite Ht at 1.
      now rewrite <- !app_assoc.
    + intros _ Hnil. apply app_eq_nil in Hnil. destruct Hnil as [_ Hdrop].
      apply (f_equal length) in Hdrop. rewrite length_drop in Hdrop.
      pose proof (truncateIndex_le text maxLength). cbn in Hdrop. lia.
Qed.

(** X2. Truncating the result of a truncation again, to the same length,
    changes nothing. *)
Theorem truncate_idempotent (text : jsstring) (maxLength : nat) :
  _truncateAtWordBoundary (_truncateAtWordBoundary text maxLength) maxLength
  = _truncateAtWordBoundary text maxLength.
Proof.
  destruct (le_lt_dec (length text) maxLength) as [Hle|Hlt].
  - unfold _truncateAtWordBoundary.
    now rewrite !(proj2 (Nat.leb_le _ _) Hle).
  - pose proof (truncate_length _ _ Hlt) as Hbound.
    unfold _truncateAtWordBoundary at 1.
    now rewrite (proj2 (Nat.leb_le _ _) Hbound).
Qed.

End TruncationExcerpts.

(** ** More about extraction *)

Section ExtractionAliases.
Import JS Snapshot.

(** X3. A region may be named by its tag or by its role: for every entry of
    the table of [_extractPartialSnapshot], the tag and the role it stands
    for extract the same text from every tree, and the extraction is
    described for both. *)
Theorem extract_tag_or_role (fullSnapshot selector role : jsstring) :
  In (selector, role) selectorToRole ->
  _extractPartialSnapshot fullSnapshot selector
  = Some (extractWith (rolePattern role) fullSnapshot) /\
  _extractPartialSnapshot fullSnapshot role
  = _extractPartialSnapshot fullSnapshot selector.
Proof.
  unfold selectorToRole. simpl.
  intros [H|[H|[H|[H|[H|[H|[H|[]]]]]]]]; injection H as <- <-;
    (split; [|etransitivity; [|symmetry]]);
    apply extract_with_role; vm_compute; reflexivity.
Qed.

(** The theorem for [nav], which stands for the role [navigation]. *)
Lemma extract_tag_or_role_witness :
  _extractPartialSnapshot (lit "- navigation:") (lit "navigation")
  = _extractPartialSnapshot (lit "- navigation:") (lit "nav").
Proof.
  apply (extract_tag_or_role (lit "- navigation:") (lit "nav") (lit "navigation")).
  simpl. right. right. right. left. reflexivity.
Defined.

End ExtractionAliases.

Section ExtractionTwice.
Import JS Snapshot Lines.

Lemma split_lines_line (l : jsstring) : noLF l -> split_lines l = [l].
Proof.
  induction 1 as [|c l Hc _ IH]; [reflexivity|].
  simpl. rewrite (proj2 (N.eqb_neq _ _) Hc), IH. reflexivity.
Qed.

Lemma split_lines_app_LF (l s : jsstring) :
  noLF l -> split_lines (l ++ LF :: s) = l :: split_lines s.
Proof.
  induction 1 as [|c l Hc _ IH]; [reflexivity|].
  simpl. rewrite (proj2 (N.eqb_neq _ _) Hc), IH. reflexivity.
Qed.

Lemma split_lines_join (ls : list jsstring) :
  ls <> [] -> Forall noLF ls -> split_lines (join_lines ls) = ls.
Proof.
  induction ls as [|l ls IH]; [congruence|]. intros _ Hall.
  inversion Hall as [|? ? Hl Hls]; subst.
  destruct ls as [|l' ls'].
  - now apply split_lines_line.
  - change (join_lines (l :: l' :: ls')) with (l ++ LF :: join_lines (l' :: ls')).
    rewrite split_lines_app_LF by exact Hl. f_equal. now apply IH.
Qed.

Lemma split_lines_noLF (s : jsstring) : Forall noLF (split_lines s).
Proof.
  induction s as [|c s IH]; [repeat constructor|].
  simpl. destruct (c =? LF)%N eqn:E.
  - constructor; [constructor|exact IH].
  - apply N.eqb_neq in E. destruct (split_lines s) as [|l ls].
    + repeat constructor. exact E.
    + inversion IH; subst. constructor; [now constructor|assumption].
Qed.

Lemma trimStart_noLF (l : jsstring) : noLF l -> noLF (trimStart l).
Proof.
  induction 1 as [|c l Hc Hl IH]; [constructor|].
  simpl. destruct (isWhiteSpace c); [exact IH|now constructor].
Qed.

Lemma normalizeLine_noLF m (l : jsstring) : noLF l -> noLF (normalizeLine m l).
Proof.
  intros Hl. unfold normalizeLine. destruct (trim l); [exact Hl|].
  apply Forall_app. split; [|now apply trimStart_noLF].
  unfold repeatSpace. apply Forall_replicate. discriminate.
Qed.

Lemma trim_trimStart (l : jsstring) : trim (trimStart l) = trim l.
Proof. unfold trim. now rewrite trimStart_idem. Qed.

Lemma trim_spaces n (l : jsstring) : trim (repeatSpace n ++ trimStart l) = trim l.
Proof. unfold trim. now rewrite trimStart_spaces, trimStart_idem. Qed.

(** What [normalizeLine] leaves of a line: the same text after trimming,
    and, for a line that is not blank, the reduced indentation. *)
Lemma normalizeLine_facts m (l : jsstring) :
  trim (normalizeLine m l) = trim l /\
  (trim l <> [] ->
   indentOf (normalizeLine m l) = Z.max 0 (indentOf l - m) /\
   trimStart (normalizeLine m l) = trimStart l).
Proof.
  unfold normalizeLine. destruct (trim l) as [|c r] eqn:E.
  - split; [exact E|congruence].
  - split; [now rewrite trim_spaces|]. intros _.
    rewrite indentOf_spaces, trimStart_spaces, trimStart_idem.
    split; [lia|reflexivity].
Qed.

Lemma normalizeLine_again m (l : jsstring) :
  normalizeLine 0 (normalizeLine m l) = normalizeLine m l.
Proof.
  destruct (normalizeLine_facts m l) as [Htrim Hind].
  unfold normalizeLine at 1. rewrite Htrim.
  destruct (trim l) as [|c r] eqn:E.
  - reflexivity.
  - destruct Hind as [Hi Ht]; [discriminate|]. rewrite Hi, Ht, Z.sub_0_r.
    rewrite Z.max_r by lia. unfold normalizeLine. rewrite E. reflexivity.
Qed.

(** Extraction finds in its own result what it found in the tree. *)
Lemma extractWith_again role (fullSnapshot : jsstring) :
  extractWith (rolePattern role) (extractWith (rolePattern role) fullSnapshot)
  = extractWith (rolePattern role) fullSnapshot.
Proof.
  destruct (first_match_or_none (roleLine role) (split_lines fullSnapshot))
    as [Hno|(pre & l0 & tail & Hlines & Hpre & Hl0)].
  { rewrite (extractWith_no_match role fullSnapshot Hno).
    now apply extractWith_no_match. }
  destruct (subtree_split (indentOf l0) tail) as (sub & rest & -> & Hsub & Hrest).
  rewrite (extractWith_found role fullSnapshot pre l0 sub rest) by assumption.
  set (m := indentOf l0).
  assert (Hall : Forall noLF (l0 :: sub)).
  { pose proof (split_lines_noLF fullSnapshot) as H. rewrite Hlines in H.
    apply Forall_app in H. destruct H as [_ H].
    inversion H as [|? ? H0 H1]; subst. apply Forall_app in H1.
    constructor; [exact H0|apply H1]. }
  pose proof (roleLine_nonblank _ _ Hl0) as Hne0.
  destruct (normalizeLine_facts m l0) as [Ht0 Hi0].
  destruct (Hi0 Hne0) as [Hind0 _].
  assert (Hzero : indentOf (normalizeLine m l0) = 0%Z).
  { rewrite Hind0. subst m. lia. }
  rewrite (extractWith_found role _ [] (normalizeLine m l0)
             (List.map (normalizeLine m) sub) []).
  - rewrite Hzero.
    change (normalizeLine m l0 :: List.map (normalizeLine m) sub)
      with (List.map (normalizeLine m) (l0 :: sub)).
    rewrite List.map_map. f_equal. apply List.map_ext.
    intros l. apply normalizeLine_again.
  - rewrite app_nil_r. cbn [app].
    change (normalizeLine m l0 :: List.map (normalizeLine m) sub)
      with (List.map (normalizeLine m) (l0 :: sub)).
    apply split_lines_join; [discriminate|].
    apply List.Forall_map. eapply Forall_impl; [exact Hall|].
    intros l. apply normalizeLine_noLF.
  - constructor.
  - unfold roleLine in *. now rewrite Ht0.
  - rewrite Hzero. apply List.Forall_map.
    eapply Forall_impl; [exact Hsub|]. intros l Hl. cbv beta in *.
    destruct (normalizeLine_facts m l) as [_ Hi].
    destruct (trim l) as [|c r] eqn:E.
    + rewrite normalizeLine_blank by exact E.
      pose proof (indentOf_nonneg l0). lia.
    + destruct Hi as [-> _]; [discriminate|]. subst m. lia.
  - exact I.
Qed.

(** X4. Extraction is idempotent: extracting a region from the text that an
    extraction of the same region returned gives that text again. *)
Theorem extract_idempotent (fullSnapshot selector extracted : jsstring) :
  _extractPartialSnapshot fullSnapshot selector = Some extracted ->
  _extractPartialSnapshot extracted selector = Some extracted.
Proof.
  unfold _extractPartialSnapshot, selectorRolePattern, compileRolePattern.
  destruct (expectedRole selector) as [role|]; [|discriminate].
  destruct (existsb isRegexMeta role); [discriminate|].
  intros [= <-]. f_equal. apply extractWith_again.
Qed.

(** The theorem at a tree with a [main] region inside a [document]: the
    region extracted from it is found again in the extracted text. *)
Lemma extract_idempotent_witness :
  _extractPartialSnapshot
    (lit "- main [ref=e3]:
  - heading
  - paragraph") (lit "main")
  = Some (lit "- main [ref=e3]:
  - heading
  - paragraph").
Proof.
  apply (extract_idempotent
           (lit "- document:
  - main [ref=e3]:
    - heading
    - paragraph
  - contentinfo:
    - text") (lit "main")).
  vm_compute. reflexivity.
Defined.

End ExtractionTwice.

(** ** More about element resolution *)

Section ResolutionOrder.
Import JS Selectors.

(** X5. Once an alternative resolved, the outcome of [resolveFirstElement]
    depends neither on the alternatives that follow it, nor on failed
    alternatives put before it, nor on the error message prefix. *)
Theorem resolveFirstElement_stable
    (results pre more : list SelectorResolutionResult)
    (errorMessage errorMessage' : jsstring) (l : option nat) :
  resolveFirstElement results errorMessage = inr l ->
  Forall (fun x => successful x = false) pre ->
  resolveFirstElement (pre ++ results ++ more) errorMessage' = inr l.
Proof.
  unfold resolveFirstElement. intros Hres Hpre.
  rewrite !List.filter_app, (proj2 (filter_nil_Forall pre) Hpre).
  cbn [app]. destruct (List.filter successful results) as [|r rs];
    [discriminate|exact Hres].
Qed.

(** The theorem for an alternative that resolved to locator 7, a failed
    alternative put before it and another resolved one after it. *)
Lemma resolveFirstElement_stable_witness :
  resolveFirstElement
    ([ {| locator := None; error := Some (lit "not found") |} ]
     ++ [ {| locator := Some 7; error := None |} ]
     ++ [ {| locator := Some 8; error := None |} ])
    (lit "Failed to resolve the target")
  = inr (Some 7).
Proof.
  apply (resolveFirstElement_stable
           [ {| locator := Some 7; error := None |} ] _ _ defaultErrorMessage).
  - reflexivity.
  - repeat constructor.
Defined.

End ResolutionOrder.

(** ** More about the navigation tracker *)

Section NavigationTimers.
Import Config Navigation.
Local Open Scope Z_scope.

Variable T : Timeouts.

Lemma runTimers_length ws : forall t s,
  length (snd (runTimers T t s ws)) = length ws.
Proof.
  induction ws as [|x ws IH]; intros t s; [reflexivity|].
  destruct x as [due|r]; cbn [runTimers].
  - destruct (due <=? t).
    + destruct (checkComplete T t s) as [s1 resolved].
      specialize (IH t s1). destruct (runTimers T t s1 ws). cbn in *. now rewrite IH.
    + specialize (IH t s). destruct (runTimers T t s ws). cbn in *. now rewrite IH.
  - specialize (IH t s). destruct (runTimers T t s ws). cbn in *. now rewrite IH.
Qed.

Lemma elapse_length n : forall w,
  length (watchers (elapse T n w)) = length (watchers w).
Proof.
  induction n as [|n IH]; intros w; [reflexivity|].
  cbn [elapse]. rewrite IH. unfold tick.
  pose proof (runTimers_length (watchers w) (now w + 1) (state w)) as H.
  destruct (runTimers T (now w + 1) (state w) (watchers w)). exact H.
Qed.

Lemma run_length items : forall w,
  length (watchers (run T items w))
  = (length (watchers w)
     + length (List.filter (fun i => match i with
                                     | FrameNavigated => true
                                     | _ => false
                                     end) items))%nat.
Proof.
  induction items as [|i items IH]; intros w; [cbn; lia|].
  change (run T (i :: items) w) with (run T items (step T w i)).
  rewrite IH. destruct i as [ms| | | |]; cbn [step List.filter length].
  - rewrite elapse_length. reflexivity.
  - cbn [_handleNavigationStart watchers]. rewrite length_app. cbn. lia.
  - reflexivity.
  - reflexivity.
  - reflexivity.
Qed.

(** X6. Polling stops. Every navigation start arms one polling timer and none
    is ever cancelled: there are as many watchers as navigation starts.
    Once the navigation timeout and one polling interval have passed
    without a further navigation start, not one of their timers is
    pending any more: each watcher resolved, at the latest one polling
    interval after the timeout counted from the last navigation start. *)
Theorem polling_stops (t0 : Z) (history future : list Item) :
  0 <= DEFAULT_PAGE_TIMEOUT T -> 0 <= t0 ->
  noFrameNavigated future ->
  DEFAULT_PAGE_TIMEOUT T + 100 <= duration future ->
  let w := run T future (run T history (init t0)) in
  length (watchers w)
  = length (List.filter (fun i => match i with
                                  | FrameNavigated => true
                                  | _ => false
                                  end) history) /\
  Forall (fun x => exists r,
            x = Resolved r /\
            r <= lastNavigationStart (state w) + DEFAULT_PAGE_TIMEOUT T + 100)
    (watchers w).
Proof.
  intros Hto Ht0 Hno Hdur w. split.
  { subst w. rewrite !run_length. cbn [init watchers length].
    assert (Hnone : List.filter (fun i => match i with
                                          | FrameNavigated => true
                                          | _ => false
                                          end) future = []).
    { clear Hdur. induction Hno as [|i items Hi _ IH]; [reflexivity|].
      cbn [List.filter]. destruct i; try congruence; exact IH. }
    rewrite Hnone. cbn. lia. }
  set (w0 := run T history (init t0)) in *.
  assert (Hwf0 : wellFormed T w0)
    by (apply run_facts; [exact Hto|now apply init_wellFormed]).
  pose proof (run_facts T future w0 Hto Hwf0) as [Hwf _ _ _].
  pose proof (run_now T future w0 Hto Hwf0) as Hnow.
  destruct (run_last T future w0 Hto Hwf0 Hno) as [Hlast _].
  fold w in Hwf, Hnow, Hlast.
  destruct Hwf0 as (Hle0 & _ & _). destruct Hwf as (_ & Hws & _).
  eapply Forall_impl; [exact Hws|].
  intros [due|r]; cbn [watcherOk].
  - intros [H1 H2]. exfalso. lia.
  - intros [H1 H2]. exists r. split; [reflexivity|lia].
Qed.

End NavigationTimers.

Section NavigationTimersExample.
Import Config Navigation.
Local Open Scope Z_scope.

(** The theorem for two navigation starts 40 ms apart, none completed,
    and 6 seconds of silence after them. *)
Lemma polling_stops_witness :
  Forall (fun x => exists r, x = Resolved r /\ r <= 1040 + 5000 + 100)
    (watchers (run sampleTimeouts [Elapse 6000]
                 (run sampleTimeouts [FrameNavigated; Elapse 40; FrameNavigated]
                    (init 1000)))).
Proof.
  assert (Hto : 0 <= DEFAULT_PAGE_TIMEOUT sampleTimeouts) by (cbn; lia).
  assert (Ht0 : 0 <= 1000) by lia.
  assert (Hno : noFrameNavigated [Elapse 6000])
    by (repeat constructor; discriminate).
  assert (Hdur : DEFAULT_PAGE_TIMEOUT sampleTimeouts + 100
                 <= duration [Elapse 6000]) by (cbn; lia).
  exact (proj2 (polling_stops sampleTimeouts 1000
                  [FrameNavigated; Elapse 40; FrameNavigated] [Elapse 6000]
                  Hto Ht0 Hno Hdur)).
Defined.

End NavigationTimersExample.

(** ** What a session keeps *)

Section SessionInvariants.
Import JS Config Session Invariants.

Lemma delete_bystanders w call t :
  bystanders w ->
  bystanders {| tab := t; modalStateListeners := modalStateListeners w;
                running := delete call (running w);
                effects := effects w; calls := calls w |}.
Proof.
  intros Hby c k Hk. cbn in Hk.
  destruct (decide (c = call)) as [->|Hne].
  - rewrite lookup_delete_eq in Hk. discriminate.
  - rewrite lookup_delete_ne in Hk by congruence. eauto.
Qed.

Lemma dispatch_bystanders w ev : bystanders w -> bystanders (dispatch w ev).
Proof.
  intros Hby. destruct ev as [c|rq|rq rs|ms| |call st]; cbn [dispatch];
    try exact Hby.
  destruct (running w !! call) as [k|]; [|exact Hby].
  now apply delete_bystanders.
Qed.

Variable I : Tab -> Prop.
Variable mayClear : ModalState -> Prop.
Hypothesis HI : kept I mayClear.

Lemma dispatch_kept w ev :
  bystanders w -> I (tab w) -> I (tab (dispatch w ev)).
Proof.
  intros Hby Hw. destruct ev as [c|rq|rq rs|ms| |call st]; cbn [dispatch].
  - now apply (kept_console _ _ HI).
  - now apply (kept_requests _ _ HI).
  - now apply (kept_requests _ _ HI).
  - now apply (kept_modal _ _ HI).
  - now apply (kept_artifacts _ _ HI).
  - destruct (running w !! call) as [k|] eqn:E; [|exact Hw].
    cbn [tab]. destruct st as [a|e]; [|exact Hw].
    now rewrite (Hby _ _ E).
Qed.

Lemma deliver_kept evs : forall w,
  bystanders w -> I (tab w) ->
  bystanders (fold_left dispatch evs w) /\ I (tab (fold_left dispatch evs w)).
Proof.
  induction evs as [|ev evs IH]; intros w Hby Hw; [now split|].
  cbn [fold_left]. apply IH; [now apply dispatch_bystanders|now apply dispatch_kept].
Qed.

Lemma raceLoop_kept schedule : forall call var w r v w' rest,
  raceLoop call var w schedule = (r, v, w', rest) ->
  bystanders w -> I (tab w) ->
  bystanders w' /\ I (tab w').
Proof.
  induction schedule as [|ev schedule IH]; intros call var w r v w' rest Hrun Hby Hw.
  - injection Hrun as <- <- <- <-. now split.
  - pose proof (dispatch_bystanders w ev Hby) as Hby1.
    pose proof (dispatch_kept w ev Hby Hw) as Hw1.
    destruct ev as [c|rq|rq rs|ms| |c st]; cbn [raceLoop] in Hrun;
      try (now apply (IH _ _ _ _ _ _ _ Hrun Hby1 Hw1)).
    + destruct (bool_decide _); [|now apply (IH _ _ _ _ _ _ _ Hrun Hby1 Hw1)].
      injection Hrun as <- <- <- <-. now split.
    + destruct (bool_decide (c = call)) eqn:Hc;
        [|now apply (IH _ _ _ _ _ _ _ Hrun Hby1 Hw1)].
      apply bool_decide_eq_true in Hc. subst c.
      destruct (running w !! call) as [k|] eqn:E;
        [|now apply (IH _ _ _ _ _ _ _ Hrun Hby Hw)].
      destruct st as [a|e].
      * pose proof (Hby _ _ E a (tab w)) as Hfst.
        destruct (k a (tab w)) as [t v0]. cbn in Hfst. subst t.
        injection Hrun as <- <- <- <-.
        split; [|exact Hw].
        intros c k' Hk'. apply (delete_bystanders w call (tab w) Hby c k'). exact Hk'.
      * injection Hrun as <- <- <- <-.
        split; [now apply delete_bystanders|exact Hw].
Qed.

Lemma captureWith_kept action w schedule res w' rest :
  (forall a t, fst (action a t) = t) -> bystanders w -> I (tab w) ->
  captureWith action w schedule = (res, w', rest) ->
  bystanders w' /\ I (tab w').
Proof.
  intros Ha Hby Hw. unfold captureWith, _raceAgainstModalStates.
  destruct (modalStates (tab w)) as [|m0 ms].
  - destruct (raceLoop _ _ _ _) as [[[r v] w1] rest1] eqn:Hrun.
    destruct (raceLoop_kept _ _ _ _ _ _ _ _ Hrun
                (startRace_bystanders _ _ Ha Hby) Hw) as [Hby1 Hw1].
    destruct r as [ms|e|]; [destruct v as [snap|]|..];
      intros [= <- <- <-]; (split; [exact Hby1|]); try exact Hw1.
    cbn [set_tab tab]. now apply (kept_drain _ _ HI).
  - intros [= <- <- <-]. now split.
Qed.

Lemma sessionStep_kept T w st w1 out :
  bystanders w -> I (tab w) ->
  match st with ClearModal m => mayClear m | _ => True end ->
  sessionStep T w st = Some (w1, out) ->
  bystanders w1 /\ I (tab w1).
Proof.
  intros Hby Hw Hst.
  destruct st as [ev|selector maxLength during|ms|url env]; cbn [sessionStep].
  - intros [= <- <-].
    split; [now apply dispatch_bystanders|now apply dispatch_kept].
  - unfold _captureSnapshotInternal.
    assert (Hcap : forall pattern res w' rest,
              captureWith (captureAction pattern maxLength) w during
              = (res, w', rest) ->
              bystanders (fold_left dispatch rest w') /\
              I (tab (fold_left dispatch rest w'))).
    { intros pattern res w' rest Hc.
      destruct (captureWith_kept _ _ _ _ _ _
                  (captureAction_tab pattern maxLength) Hby Hw Hc) as [Hb1 Hw1].
      now apply deliver_kept. }
    destruct (selectorPattern selector) as [pattern|].
    + destruct (captureWith _ _ _) as [[res w'] rest] eqn:Hc.
      pose proof (Hcap _ _ _ _ Hc) as Hk.
      destruct res as [snap|e|]; intros [= <- <-]; exact Hk.
    + destruct (modalStates (tab w)); [discriminate|].
      destruct (captureWith _ _ _) as [[res w'] rest] eqn:Hc.
      pose proof (Hcap _ _ _ _ Hc) as Hk.
      destruct res as [snap|e|]; intros [= <- <-]; exact Hk.
  - intros [= <- <-]. split; [exact Hby|].
    cbn [set_tab tab]. now apply (kept_clearModal _ _ HI).
  - intros [= <- <-].
    destruct (navigate_world T url env w) as [Ht Hr]. cbv zeta in Ht, Hr.
    set (cleared := {| tab := _clearCollectedArtifacts (tab w);
                       modalStateListeners := modalStateListeners w;
                       running := running w;
                       effects := effects w ++ [FxWaitForDownload; FxGoto url];
                       calls := calls w |}) in *.
    assert (Hbc : bystanders cleared) by exact Hby.
    assert (Hwc : I (tab cleared)) by (cbn; now apply (kept_artifacts _ _ HI)).
    destruct (deliver_kept (navigateEvents env) cleared Hbc Hwc) as [Hb Hc].
    split.
    + intros c k Hk. rewrite Hr in Hk. eauto.
    + now rewrite Ht.
Qed.

Lemma session_kept T steps : forall w w' snaps,
  bystanders w -> I (tab w) -> clearsOnly mayClear steps ->
  session T w steps = Some (w', snaps) ->
  bystanders w' /\ I (tab w').
Proof.
  induction steps as [|st steps IH]; intros w w' snaps Hby Hw Hsteps.
  - intros [= <- <-]. now split.
  - cbn [session]. inversion Hsteps as [|? ? Hst Hrest]; subst.
    destruct (sessionStep T w st) as [[w1 out]|] eqn:Hs; [|discriminate].
    destruct (session T w1 steps) as [[w2 outs]|] eqn:Hss; [|discriminate].
    intros [= <- <-].
    destruct (sessionStep_kept _ _ _ _ _ Hby Hw Hst Hs) as [Hb1 Hw1].
    now apply (IH _ _ _ Hb1 Hw1 Hrest Hss).
Qed.

End SessionInvariants.

(** ** The console history and the snapshots *)

Section ConsoleHistory.
Import JS Config Session Invariants.

Lemma recentInHistory_kept : kept recentInHistory (fun _ => True).
Proof.
  constructor; unfold recentInHistory; cbn; intros; try assumption.
  - now apply suffix_app.
  - apply suffix_nil.
  - apply suffix_nil.
Qed.

Lemma newWorld_bystanders url : bystanders (newWorld url).
Proof. intros c k Hk. cbn in Hk. rewrite lookup_empty in Hk. discriminate. Qed.

Lemma clearsOnly_any steps : clearsOnly (fun _ => True) steps.
Proof. apply Forall_forall. intros s _. now destruct s. Qed.

(** X7. Whatever a session did to a new tab, the recent console messages are
    the last entries of the history [consoleMessages()]; and when a
    capture then returns a snapshot, the console messages attached to it
    are the last entries of the history as it is at that moment. *)
Theorem attached_messages_in_history
    (T : Timeouts) (url : jsstring) (steps : list Step)
    (w : World) (snaps : list TabSnapshot.t)
    (selector : option jsstring) (maxLength : option nat)
    (during : list Event) (snap : TabSnapshot.t) (w' : World)
    (rest : list Event) :
  session T (newWorld url) steps = Some (w, snaps) ->
  _captureSnapshotInternal selector maxLength w during
  = Some (Captured snap, w', rest) ->
  recentInHistory (tab w) /\
  TabSnapshot.consoleMessages snap `suffix_of` consoleMessages (tab w').
Proof.
  intros Hsession Hcapture.
  destruct (session_kept _ _ recentInHistory_kept T steps _ _ _
              (newWorld_bystanders url) (suffix_nil _) (clearsOnly_any steps)
              Hsession) as [Hby Hw].
  split; [exact Hw|].
  assert (Hcap : exists pattern,
            captureWith (captureAction pattern maxLength) w during
            = (Captured snap, w', rest)).
  { unfold _captureSnapshotInternal in Hcapture.
    destruct (selectorPattern selector) as [pattern|].
    - exists pattern. congruence.
    - destruct (modalStates (tab w)); [discriminate|]. exists None. congruence. }
  destruct Hcap as [pattern Hcap].
  unfold captureWith, _raceAgainstModalStates in Hcap.
  destruct (modalStates (tab w)) as [|m0 ms].
  - destruct (raceLoop _ _ _ _) as [[[r v] w1] rest1] eqn:Hrun.
    destruct (raceLoop_kept _ _ recentInHistory_kept _ _ _ _ _ _ _ _ Hrun
                (startRace_bystanders _ _ (captureAction_tab pattern maxLength) Hby)
                Hw) as [_ Hw1].
    revert Hcap. destruct r as [ms|e|]; [destruct v as [snap1|]|..];
      intros [= <- <- <-]; cbn; [exact Hw1|apply suffix_nil].
  - injection Hcap as <- <- <-. cbn. apply suffix_nil.
Qed.

(** The theorem for a new tab to which two console messages are
    delivered, the second while the capture is under way. *)
Lemma attached_messages_in_history_witness :
  let a := {| cm_type := Some (lit "log"); cm_text := lit "a";
              cm_rendered := lit "[LOG] a" |} in
  let b := {| cm_type := Some (lit "log"); cm_text := lit "b";
              cm_rendered := lit "[LOG] b" |} in
  let w := dispatch (newWorld (lit "about:blank")) (EvConsole a) in
  match _captureSnapshotInternal None None w
          [EvConsole b;
           EvSettled 0 (Fulfilled (AnsSnapshot (lit "- main") (lit "about:blank")
                                     (lit "Home")))] with
  | Some (Captured snap, w', _) =>
      TabSnapshot.consoleMessages snap `suffix_of` consoleMessages (tab w')
  | _ => False
  end.
Proof.
  cbv zeta.
  set (a := {| cm_type := Some (lit "log"); cm_text := lit "a";
               cm_rendered := lit "[LOG] a" |}).
  set (w := dispatch (newWorld (lit "about:blank")) (EvConsole a)).
  assert (Hs : session sampleTimeouts (newWorld (lit "about:blank"))
                 [Deliver (EvConsole a)] = Some (w, [])) by reflexivity.
  destruct (_captureSnapshotInternal None None w _)
    as [[[[snap|e|] w'] rest]|] eqn:E;
    try (vm_compute in E; discriminate E).
  exact (proj2 (attached_messages_in_history _ _ _ _ _ _ _ _ _ _ _ Hs E)).
Defined.

End ConsoleHistory.

(** ** Dialogs block the page's JavaScript *)

Section ModalBlocking.
Import JS Config Session Modal Invariants.

Lemma present_kept (m : ModalState) :
  kept (fun t => m ∈ _modalStates t) (fun m' => m' <> m).
Proof.
  constructor; cbn; intros; try assumption.
  - apply elem_of_app. now left.
  - apply list_elem_of_In, filter_In. split; [now apply list_elem_of_In|].
    apply negb_true_iff, bool_decide_eq_false. congruence.
Qed.

Lemma javaScriptBlocked_dialog (m : ModalState) (t : Tab) :
  m ∈ _modalStates t -> ms_type m = dialog -> _javaScriptBlocked t = true.
Proof.
  intros Hin Hm. unfold _javaScriptBlocked. apply existsb_exists.
  exists m. split; [now apply list_elem_of_In|now apply bool_decide_eq_true].
Qed.

(** X8. From the moment a dialog is shown until [clearModalState] is called
    with its modal state, whatever else the session does (events,
    captures, navigations, other modal states cleared), the page's
    JavaScript counts as blocked and [waitForTimeout] waits on a timer of
    its own instead of evaluating one in the page. A file chooser does
    not block: on a tab that is not blocked, [waitForTimeout] evaluates
    its timer in the page also after a file chooser opened. *)
Theorem dialog_blocks_page_timers
    (T : Timeouts) (w : World) (type message : jsstring) (handle : nat)
    (steps : list Step) (w' : World) (snaps : list TabSnapshot.t) (time : Z) :
  bystanders w ->
  clearsOnly (fun m' => m' <> dialogState type message handle) steps ->
  session T (_dialogShown type message handle w) steps = Some (w', snaps) ->
  _javaScriptBlocked (tab w') = true /\
  waitForTimeout time (tab w') = LocalTimer time /\
  (forall free chooser,
     _javaScriptBlocked (tab free) = false ->
     waitForTimeout time (tab (onFileChooser chooser free)) = PageTimer time).
Proof.
  intros Hby Hsteps Hsession.
  set (m := dialogState type message handle) in *.
  assert (Hin : m ∈ _modalStates (tab (_dialogShown type message handle w))).
  { cbn. apply elem_of_app. right. now apply list_elem_of_singleton. }
  destruct (session_kept _ _ (present_kept m) T steps _ w' snaps
              (dispatch_bystanders w (EvModal m) Hby) Hin Hsteps Hsession)
    as [_ Hin'].
  assert (Hb : _javaScriptBlocked (tab w') = true)
    by now apply (javaScriptBlocked_dialog m).
  split; [exact Hb|]. split.
  - unfold waitForTimeout. now rewrite Hb.
  - intros free chooser Hfree. unfold waitForTimeout, _javaScriptBlocked in *.
    cbn [onFileChooser setModalState tab set_modalStates _modalStates].
    now rewrite existsb_app, Hfree.
Qed.

(** The theorem for an [alert] shown on a new tab, after which a console
    message arrives and a file chooser opens and is cleared. *)
Lemma dialog_blocks_page_timers_witness :
  let chooser := {| ms_type := fileChooser; ms_description := lit "File chooser";
                    ms_handle := 2 |} in
  let c := {| cm_type := Some (lit "log"); cm_text := lit "hi";
              cm_rendered := lit "[LOG] hi" |} in
  match session sampleTimeouts
          (_dialogShown (lit "alert") (lit "Hello") 1 (newWorld (lit "about:blank")))
          [Deliver (EvConsole c); Deliver (EvModal chooser); ClearModal chooser] with
  | Some (w', _) => waitForTimeout 250 (tab w') = LocalTimer 250
  | None => False
  end.
Proof.
  cbv zeta.
  destruct (session _ _ _) as [[w' snaps]|] eqn:E;
    [|vm_compute in E; discriminate E].
  refine (proj1 (proj2 (dialog_blocks_page_timers _ _ _ _ _ _ _ _ 250
                          (newWorld_bystanders _) _ E))).
  repeat constructor; discriminate.
Defined.

End ModalBlocking.

(** ** Navigation and the console buffers *)

Section NavigateConsole.
Import JS Config Session Invariants.

Lemma deliver_console evs : forall w,
  bystanders w ->
  _consoleMessages (tab w) = _recentConsoleMessages (tab w) ->
  let w' := fold_left dispatch evs w in
  _consoleMessages (tab w') = _recentConsoleMessages (tab w') /\
  _consoleMessages (tab w') `suffix_of` _consoleMessages (tab w) ++ consoleOf evs /\
  (closeEvents evs = 0 ->
   _consoleMessages (tab w') = _consoleMessages (tab w) ++ consoleOf evs).
Proof.
  induction evs as [|ev evs IH]; intros w Hby Heq; cbv zeta.
  - cbn. rewrite app_nil_r. now repeat split.
  - cbn [fold_left]. rewrite consoleOf_cons.
    pose proof (dispatch_bystanders w ev Hby) as Hby1.
    assert (Hstep : _consoleMessages (tab (dispatch w ev))
                    = _recentConsoleMessages (tab (dispatch w ev)) /\
                    ((ev = EvClose /\ _consoleMessages (tab (dispatch w ev)) = []) \/
                     (closeEvents [ev] = 0 /\
                      _consoleMessages (tab (dispatch w ev))
                      = _consoleMessages (tab w) ++ consoleOf [ev]))).
    { destruct ev as [c|rq|rq rs|ms| |call st]; cbn [dispatch].
      - cbn. split; [now rewrite Heq|right; now split].
      - cbn. rewrite app_nil_r. split; [exact Heq|right; now split].
      - cbn. rewrite app_nil_r. split; [exact Heq|right; now split].
      - cbn. rewrite app_nil_r. split; [exact Heq|right; now split].
      - cbn. split; [reflexivity|left; now split].
      - destruct (running w !! call) as [k|] eqn:E.
        + cbn [tab]. destruct st as [a|e]; [rewrite (Hby _ _ E)|];
            cbn; rewrite app_nil_r; (split; [exact Heq|right; now split]).
        + cbn. rewrite app_nil_r. split; [exact Heq|right; now split]. }
    destruct Hstep as [Heq1 Hcases].
    destruct (IH _ Hby1 Heq1) as (H1 & H2 & H3). cbv zeta in H1, H2, H3.
    split; [exact H1|].
    assert (Hclose : closeEvents (ev :: evs) = closeEvents [ev] + closeEvents evs).
    { unfold closeEvents. cbn [List.filter]. destruct ev; cbn [length]; lia. }
    destruct Hcases as [[-> Hnil]|[Hno Hcons]].
    + rewrite Hnil in H2. cbn [app] in H2. split.
      * cbn [consoleOf flat_map app]. now apply suffix_app_r.
      * rewrite Hclose. cbn. discriminate.
    + rewrite Hcons in H2, H3. rewrite <- app_assoc in H2, H3. split; [exact H2|].
      rewrite Hclose, Hno. exact H3.
Qed.

(** X9. [navigate] starts the console history afresh: when it is over,
    whatever its outcome, the history [consoleMessages()] and the recent
    console messages are the same list, made of messages that arrived
    while [navigate] was under way: while [page.goto] was awaited and,
    unless [page.goto] rejected with a message that has neither
    "net::ERR_ABORTED" nor "Download is starting" in it, while what
    [navigate] awaits after it was awaited. They are all of these
    messages, in order of arrival, when the page was not closed
    meanwhile. Nothing that arrived before the navigation is left to be
    attached to a later snapshot. *)
Theorem navigate_resets_console
    (T : Timeouts) (url : jsstring) (env : NavigateEnv) (w : World) :
  bystanders w ->
  let w' := snd (navigate T url env w) in
  let delivered :=
    duringGoto env
    ++ match gotoRejects env with
       | Some message =>
           if includes message (lit "net::ERR_ABORTED")
              || includes message (lit "Download is starting")
           then afterGoto env else []
       | None => afterGoto env
       end in
  consoleMessages (tab w') = _recentConsoleMessages (tab w') /\
  consoleMessages (tab w') `suffix_of` consoleOf delivered /\
  (closeEvents delivered = 0 ->
   consoleMessages (tab w') = consoleOf delivered).
Proof.
  intros Hby. cbv zeta.
  destruct (navigate_world T url env w) as [Ht _]. cbv zeta in Ht.
  unfold consoleMessages. rewrite Ht.
  set (cleared := {| tab := _clearCollectedArtifacts (tab w);
                     modalStateListeners := modalStateListeners w;
                     running := running w;
                     effects := effects w ++ [FxWaitForDownload; FxGoto url];
                     calls := calls w |}).
  assert (Hbc : bystanders cleared) by exact Hby.
  replace (duringGoto env ++ _) with (navigateEvents env).
  - exact (deliver_console (navigateEvents env) cleared Hbc eq_refl).
  - unfold navigateEvents, throwsAtOnce, mightBeDownload.
    destruct (gotoRejects env) as [message|]; [|reflexivity].
    now destruct (_ || _).
Qed.

(** The theorem for a tab with one console message in its buffers, and a
    navigation during which two others arrive, one while [page.goto] is
    awaited and one while the load state is waited for. *)
Lemma navigate_resets_console_witness :
  let a := {| cm_type := Some (lit "log"); cm_text := lit "a";
              cm_rendered := lit "[LOG] a" |} in
  let b := {| cm_type := Some (lit "log"); cm_text := lit "b";
              cm_rendered := lit "[LOG] b" |} in
  let c := {| cm_type := Some (lit "log"); cm_text := lit "c";
              cm_rendered := lit "[LOG] c" |} in
  let env := {| gotoRejects := None; duringGoto := [EvConsole b];
                downloadEvent := DownloadNever; loadAfter := Some 20%Z;
                afterGoto := [EvConsole c] |} in
  let w := dispatch (newWorld (lit "about:blank")) (EvConsole a) in
  consoleMessages (tab (snd (navigate sampleTimeouts (lit "https://example.test/")
                               env w)))
  = [b; c].
Proof.
  cbv zeta.
  refine (proj2 (proj2 (navigate_resets_console sampleTimeouts
                          (lit "https://example.test/") _ _ _)) _).
  - apply dispatch_bystanders, newWorld_bystanders.
  - reflexivity.
Defined.

End NavigateConsole.

(** ** Requests and responses *)

Section Requests.
Import JS Config Session Invariants.

Lemma deliver_requests rq evs : forall w,
  bystanders w -> silentAbout rq evs ->
  _requests (tab (fold_left dispatch evs w)) !! rq = _requests (tab w) !! rq.
Proof.
  induction evs as [|ev evs IH]; intros w Hby Hevs; [reflexivity|].
  inversion Hevs as [|? ? Hev Hrest]; subst.
  cbn [fold_left]. rewrite IH by (trivial; now apply dispatch_bystanders).
  destruct ev as [c|r|r rs|ms| |call st]; try contradiction; cbn [dispatch];
    try reflexivity.
  - cbn. now apply lookup_insert_ne.
  - cbn. now apply lookup_insert_ne.
  - destruct (running w !! call) as [k|] eqn:E; [|reflexivity].
    cbn [tab]. destruct st as [a|e]; [|reflexivity].
    now rewrite (Hby _ _ E).
Qed.

(** X10. What [requests()] holds for a request is decided by the last event
    about it: null after its [request] event, the response after its
    [response] event (a [request] event that comes later puts null back),
    and nothing after the page closed; until then the entry is kept,
    whatever else is delivered. *)
Theorem request_entry_follows_last_event
    (w : World) (rq : nat) (evs : list Event) :
  bystanders w -> silentAbout rq evs ->
  let after ev := _requests (tab (fold_left dispatch evs (dispatch w ev))) in
  after (EvRequest rq) !! rq = Some None /\
  (forall rs, after (EvResponse rq rs) !! rq = Some (Some rs)) /\
  after EvClose !! rq = None.
Proof.
  intros Hby Hevs. cbv zeta beta.
  rewrite deliver_requests by (trivial; now apply dispatch_bystanders).
  split; [cbn; apply lookup_insert_eq|]. split.
  - intros rs.
    rewrite deliver_requests by (trivial; now apply dispatch_bystanders).
    cbn. apply lookup_insert_eq.
  - rewrite deliver_requests by (trivial; now apply dispatch_bystanders).
    cbn. apply lookup_empty.
Qed.

(** The theorem for a response to request 1 after which a console
    message and the response to another request arrive. *)
Lemma request_entry_follows_last_event_witness :
  let c := {| cm_type := Some (lit "log"); cm_text := lit "hi";
              cm_rendered := lit "[LOG] hi" |} in
  _requests (tab (fold_left dispatch [EvConsole c; EvResponse 2 8]
                    (dispatch (newWorld (lit "about:blank")) (EvResponse 1 7))))
  !! 1 = Some (Some 7).
Proof.
  cbv zeta.
  refine (proj1 (proj2 (request_entry_follows_last_event
                          (newWorld (lit "about:blank")) 1 _
                          (newWorld_bystanders _) _)) 7).
  repeat constructor. discriminate.
Defined.

End Requests.

(** ** The length of a captured snapshot *)

Section CaptureLength.
Import JS Config Session Invariants.

Lemma dispatch_running w ev call k :
  running (dispatch w ev) !! call = Some k -> running w !! call = Some k.
Proof.
  destruct ev as [c|rq|rq rs|ms| |c st]; cbn [dispatch]; try (cbn; tauto).
  destruct (running w !! c) as [k'|] eqn:E; [|tauto].
  cbn. intros H. apply lookup_delete_Some in H. tauto.
Qed.

(** The value a race leaves in the variable of its caller is the one it
    had or one that the action of the call assigned. *)
Lemma raceLoop_assigned (P : option TabSnapshot.t -> Prop) schedule :
  forall call var w r v w' rest,
    raceLoop call var w schedule = (r, v, w', rest) ->
    P var ->
    (forall k a t, running w !! call = Some k -> P (snd (k a t))) ->
    P v.
Proof.
  induction schedule as [|ev schedule IH]; intros call var w r v w' rest Hrun Hvar Hk.
  - now injection Hrun as <- <- <- <-.
  - assert (Hk1 : forall k a t, running (dispatch w ev) !! call = Some k ->
                                P (snd (k a t))).
    { intros k a t H. apply Hk. now apply dispatch_running in H. }
    destruct ev as [c|rq|rq rs|ms| |c st]; cbn [raceLoop] in Hrun;
      try (now apply (IH _ _ _ _ _ _ _ Hrun Hvar Hk1)).
    + destruct (bool_decide _); [|now apply (IH _ _ _ _ _ _ _ Hrun Hvar Hk1)].
      now injection Hrun as <- <- <- <-.
    + destruct (bool_decide (c = call)) eqn:Hc;
        [|now apply (IH _ _ _ _ _ _ _ Hrun Hvar Hk1)].
      destruct (running w !! call) as [k|] eqn:E;
        [|apply (IH _ _ _ _ _ _ _ Hrun Hvar); intros; congruence].
      destruct st as [a|e].
      * pose proof (Hk k a (tab w) eq_refl) as Hv.
        destruct (k a (tab w)) as [t v0]. now injection Hrun as <- <- <- <-.
      * now injection Hrun as <- <- <- <-.
Qed.

Lemma captureAction_within pattern n a t :
  0 < n -> ariaWithin n (snd (captureAction pattern (Some n) a t)).
Proof.
  intros Hn. unfold captureAction.
  destruct a as [full url title|title|]; cbn [snd ariaWithin]; try exact I.
  destruct n as [|n]; [lia|]. cbn [TabSnapshot.ariaSnapshot].
  set (snapshot := match pattern with
                   | Some pat => Snapshot.extractWith pat full
                   | None => full
                   end).
  destruct (S n <? length snapshot) eqn:E.
  - apply Nat.ltb_lt in E. now apply truncate_length.
  - now apply Nat.ltb_ge in E.
Qed.

(** A capture whose action assigns snapshots of at most [n] characters
    returns such a snapshot. *)
Lemma captureWith_within action n w schedule snap w' rest :
  (forall a t, ariaWithin n (snd (action a t))) ->
  captureWith action w schedule = (Captured snap, w', rest) ->
  length (TabSnapshot.ariaSnapshot snap) <= n.
Proof.
  intros Haction Hcap. unfold captureWith, _raceAgainstModalStates in Hcap.
  destruct (modalStates (tab w)) as [|m0 ms].
  - destruct (raceLoop _ _ _ _) as [[[r v] w1] rest1] eqn:Hrun.
    assert (Hv : ariaWithin n v).
    { apply (raceLoop_assigned (ariaWithin n) _ _ _ _ _ _ _ _ Hrun); [exact I|].
      intros k a t Hk. cbn in Hk. rewrite lookup_insert_eq in Hk.
      injection Hk as <-. apply Haction. }
    revert Hcap. destruct r as [ms|e|]; [destruct v as [snap1|]|..];
      intros [= <- <- <-]; cbn; [exact Hv|lia].
  - injection Hcap as <- <- <-. cbn. lia.
Qed.

(** The action a described capture runs. *)
Lemma capture_action selector maxLength w schedule res :
  _captureSnapshotInternal selector maxLength w schedule = Some res ->
  exists pattern,
    captureWith (captureAction pattern maxLength) w schedule = res.
Proof.
  unfold _captureSnapshotInternal.
  destruct (selectorPattern selector) as [pattern|].
  - exists pattern. congruence.
  - destruct (modalStates (tab w)); [discriminate|]. exists None. congruence.
Qed.

(** X11. A snapshot captured with a positive [maxLength] never carries a text
    longer than [maxLength], whatever the selector, the answer of the page
    and the events delivered meanwhile. *)
Theorem capture_respects_maxLength
    (selector : option jsstring) (n : nat) (w : World)
    (schedule : list Event) (snap : TabSnapshot.t) (w' : World)
    (rest : list Event) :
  0 < n ->
  _captureSnapshotInternal selector (Some n) w schedule
  = Some (Captured snap, w', rest) ->
  length (TabSnapshot.ariaSnapshot snap) <= n.
Proof.
  intros Hn Hcapture.
  destruct (capture_action _ _ _ _ _ Hcapture) as [pattern Hcap].
  apply (captureWith_within _ _ _ _ _ _ _ (fun a t => captureAction_within
                                             pattern n a t Hn) Hcap).
Qed.

(** The theorem for a capture of the [main] region with [maxLength] 12 on
    a new tab. *)
Lemma capture_respects_maxLength_witness :
  match _captureSnapshotInternal (Some (lit "main")) (Some 12)
          (newWorld (lit "about:blank"))
          [EvSettled 0 (Fulfilled (AnsSnapshot
             (lit "- main: a long paragraph of text") (lit "about:blank")
             (lit "Home")))] with
  | Some (Captured snap, _, _) => length (TabSnapshot.ariaSnapshot snap) <= 12
  | _ => False
  end.
Proof.
  destruct (_captureSnapshotInternal _ _ _ _)
    as [[[[snap|e|] w'] rest]|] eqn:E;
    try (vm_compute in E; discriminate E).
  apply (capture_respects_maxLength _ 12 _ _ _ _ _ ltac:(lia) E).
Defined.

End CaptureLength.

(** ** Custom element references *)

Section CustomRefs.
Import JS Refs.
Local Open Scope N_scope.

Lemma digitsOf_inj u : forall v, digitsOf u = digitsOf v -> u = v.
Proof.
  induction u as [|u IH|u IH|u IH|u IH|u IH|u IH|u IH|u IH|u IH|u IH];
    intros [|v|v|v|v|v|v|v|v|v|v]; cbn [digitsOf]; try discriminate;
    try reflexivity; intros [= H]; f_equal; now apply IH.
Qed.

Lemma numberToString_inj n m : numberToString n = numberToString m -> n = m.
Proof.
  unfold numberToString. intros H. apply digitsOf_inj in H.
  rewrite <- (DecimalN.Unsigned.of_to n), H. apply DecimalN.Unsigned.of_to.
Qed.

Lemma digitsOf_no_underscore u : Forall (fun c => c <> UNDERSCORE) (digitsOf u).
Proof. induction u; cbn [digitsOf]; constructor; try assumption; discriminate. Qed.

(** Two ways of cutting a string at an occurrence of [x] after which [x]
    does not occur leave the same end. *)
Lemma before_first (x : N) (a b c d : jsstring) :
  Forall (fun y => y <> x) a -> Forall (fun y => y <> x) b ->
  a ++ x :: c = b ++ x :: d -> a = b.
Proof.
  intros Ha. revert b. induction Ha as [|y a Hy _ IH]; intros b Hb Heq.
  - destruct b as [|z b]; [reflexivity|].
    inversion Hb; subst. cbn in Heq. congruence.
  - destruct b as [|z b]; cbn in Heq; [congruence|].
    inversion Hb; subst. injection Heq as <- Heq. f_equal. now apply IH.
Qed.

Lemma after_last (x : N) (a b c d : jsstring) :
  Forall (fun y => y <> x) c -> Forall (fun y => y <> x) d ->
  a ++ x :: c = b ++ x :: d -> c = d.
Proof.
  intros Hc Hd Heq. apply (f_equal (@rev N)) in Heq.
  rewrite !rev_app_distr in Heq. cbn [rev] in Heq. rewrite <- !app_assoc in Heq.
  cbn [app] in Heq. apply before_first in Heq; try now apply List.Forall_rev.
  rewrite <- (rev_involutive c), Heq. apply rev_involutive.
Qed.

Lemma numbered_inj id n m : numbered id n -> numbered id m -> n = m.
Proof.
  intros [s1 H1] [s2 H2]. rewrite H1 in H2.
  apply after_last in H2; try apply digitsOf_no_underscore.
  now apply numberToString_inj.
Qed.

Lemma getNextCustomRefId_numbered options st :
  numbered (fst (getNextCustomRefId options st))
    (increment (_customRefCounter st)) /\
  _customRefCounter (snd (getNextCustomRefId options st))
  = increment (_customRefCounter st) /\
  _customRefMappings (snd (getNextCustomRefId options st))
  = _customRefMappings st.
Proof.
  unfold getNextCustomRefId.
  destruct options as [[[[|c id]|]]|]; cbn [fst snd _customRefCounter
                                              _customRefMappings];
    (split; [|split; reflexivity]).
  - now exists (lit "element").
  - exists (lit "batch_" ++ (c :: id) ++ lit "_element").
    now rewrite <- !app_assoc.
  - now exists (lit "element").
  - now exists (lit "element").
Qed.

Lemma callAll_numbered calls : forall st,
  _customRefCounter st + N.of_nat (length calls) <= COUNTER_LIMIT ->
  _customRefCounter st <= _customRefCounter (snd (callAll calls st))
  <= _customRefCounter st + N.of_nat (length calls) /\
  Forall (fun id => exists n,
            _customRefCounter st < n
            <= _customRefCounter (snd (callAll calls st)) /\
            numbered id n) (fst (callAll calls st)) /\
  NoDup (fst (callAll calls st)).
Proof.
  induction calls as [|call calls IH]; intros st Hbound.
  - cbn. split; [lia|]. split; constructor.
  - assert (Hlen : N.of_nat (length (call :: calls))
                   = 1 + N.of_nat (length calls)) by (cbn [length]; lia).
    rewrite Hlen in *.
    destruct call as [ref selector|ref| |options]; cbn [callAll].
    + destruct (IH (registerCustomRef ref selector st)) as (H1 & H2 & H3);
        cbn [registerCustomRef _customRefCounter] in *; [lia|].
      split; [lia|]. split; assumption.
    + destruct (IH (unregisterCustomRef ref st)) as (H1 & H2 & H3);
        cbn [unregisterCustomRef _customRefCounter] in *; [lia|].
      split; [lia|]. split; assumption.
    + destruct (IH (clearCustomRefs st)) as (H1 & H2 & H3);
        cbn [clearCustomRefs _customRefCounter] in *; [lia|].
      split; [lia|]. split; assumption.
    + destruct (getNextCustomRefId_numbered options st) as (Hid & Hc & _).
      destruct (getNextCustomRefId options st) as [id st1].
      cbn [fst snd] in *.
      assert (Hinc : increment (_customRefCounter st) = _customRefCounter st + 1).
      { unfold increment.
        destruct (_customRefCounter st <? COUNTER_LIMIT) eqn:E; [reflexivity|].
        apply N.ltb_ge in E. lia. }
      rewrite Hinc in *.
      destruct (IH st1) as (H1 & H2 & H3); [lia|].
      destruct (callAll calls st1) as [ids st2]. cbn [fst snd] in *.
      split; [lia|]. split.
      * constructor.
        -- exists (_customRefCounter st + 1). split; [lia|exact Hid].
        -- eapply Forall_impl; [exact H2|].
           intros id' (n & Hn & Hid'). exists n. split; [lia|exact Hid'].
      * apply NoDup_cons. split; [|exact H3].
        intros Hin. rewrite Forall_forall in H2.
        destruct (H2 _ Hin) as (n & Hn & Hid').
        pose proof (numbered_inj _ _ _ Hid Hid'). lia.
Qed.

(** X12. No two calls of [getNextCustomRefId] return the same identifier,
    whatever their batch identifiers and whatever is registered,
    unregistered or cleared in between ([clearCustomRefs] does not reset
    the counter), as long as the counter stays within 2^53. Each
    identifier ends with an underscore and the decimal digits of the
    value the counter took for it. At 2^53 the counter no longer moves and
    identifiers repeat. *)
Theorem custom_ref_ids_unique (calls : list RefCall) (st : RefState) :
  _customRefCounter st + N.of_nat (length calls) <= COUNTER_LIMIT ->
  NoDup (fst (callAll calls st)) /\
  Forall (fun id => exists n,
            _customRefCounter st < n
            <= _customRefCounter (snd (callAll calls st)) /\
            numbered id n) (fst (callAll calls st)) /\
  (forall options limit,
     _customRefCounter limit = COUNTER_LIMIT ->
     fst (getNextCustomRefId options (snd (getNextCustomRefId options limit)))
     = fst (getNextCustomRefId options limit)).
Proof.
  intros Hbound. destruct (callAll_numbered calls st Hbound) as (_ & H2 & H3).
  split; [exact H3|]. split; [exact H2|].
  intros options limit Hlimit.
  destruct (getNextCustomRefId_numbered options limit) as (_ & Hc & _).
  unfold getNextCustomRefId at 1 3. rewrite Hc.
  unfold increment. rewrite Hlimit. cbn [N.ltb N.compare Pos.compare].
  replace (COUNTER_LIMIT <? COUNTER_LIMIT) with false
    by (symmetry; apply N.ltb_irrefl).
  destruct options as [[[[|c id]|]]|]; reflexivity.
Qed.

(** The theorem for three identifiers, one of them in a batch, with a
    registration and a clearing in between. *)
Lemma custom_ref_ids_unique_witness :
  fst (callAll [NextId None;
                Register (lit "element_1") (lit "#submit");
                NextId (Some {| batchId := Some (lit "b1") |});
                Clear;
                NextId None] newRefState)
  = [lit "element_1"; lit "batch_b1_element_2"; lit "element_3"] /\
  NoDup [lit "element_1"; lit "batch_b1_element_2"; lit "element_3"].
Proof.
  assert (E : fst (callAll [NextId None;
                            Register (lit "element_1") (lit "#submit");
                            NextId (Some {| batchId := Some (lit "b1") |});
                            Clear;
                            NextId None] newRefState)
              = [lit "element_1"; lit "batch_b1_element_2"; lit "element_3"])
    by (vm_compute; reflexivity).
  split; [exact E|]. rewrite <- E.
  apply custom_ref_ids_unique. vm_compute. discriminate.
Defined.

End CustomRefs.

(** ** Locators for the elements of a tool call *)

Section RefLocators.
Import JS Locators.

Lemma selectorsOf_all params selectors :
  List.map selector params = List.map Some selectors ->
  selectorsOf params = inr selectors.
Proof.
  revert selectors. induction params as [|p params IH]; intros [|s selectors];
    cbn [List.map selectorsOf]; try discriminate; [reflexivity|].
  intros [= Hp Hrest]. now rewrite Hp, (IH _ Hrest).
Qed.

Lemma refLocator_ok result param :
  failed result = false ->
  exists l, locator result = Some l /\
            refLocator result param
            = inr {| described := l; description := element param |}.
Proof.
  unfold refLocator, failed. intros H.
  destruct (locator result) as [l|].
  - exists l. split; [reflexivity|]. now destruct (error result) as [[|c e]|].
  - now destruct (error result) as [[|c e]|].
Qed.

Lemma describeFrom_ok results : forall params,
  Forall (fun r => failed r = false) results ->
  length results <= length params ->
  exists ls,
    describeFrom results params = inr ls /\
    length ls = length results /\
    forall i r, results !! i = Some r ->
      exists p l, params !! i = Some p /\ locator r = Some l /\
                  ls !! i = Some {| described := l; description := element p |}.
Proof.
  induction results as [|r results IH]; intros params Hok Hlen.
  - exists []. repeat split. intros i r Hr. rewrite lookup_nil in Hr. discriminate.
  - inversion Hok as [|? ? Hr Hrest]; subst.
    destruct params as [|p params]; [cbn in Hlen; lia|].
    destruct (IH params Hrest) as (ls & Hls & Hlength & Hat); [cbn in Hlen; lia|].
    destruct (refLocator_ok r p Hr) as (l & Hl & Href).
    exists ({| described := l; description := element p |} :: ls).
    cbn [describeFrom]. rewrite Href, Hls. split; [reflexivity|].
    split; [cbn; lia|].
    intros [|i] r' Hr'; cbn in Hr'.
    + injection Hr' as <-. exists p, l. now repeat split.
    + apply Hat. exact Hr'.
Qed.

Lemma describeFrom_long results : forall params,
  Forall (fun r => failed r = false) results ->
  length params < length results ->
  describeFrom results params = inl TypeError.
Proof.
  induction results as [|r results IH]; intros params Hok Hlen;
    [cbn in Hlen; lia|].
  inversion Hok as [|? ? Hr Hrest]; subst.
  destruct params as [|p params]; [reflexivity|].
  cbn [describeFrom]. destruct (refLocator_ok r p Hr) as (l & _ & ->).
  rewrite IH; [reflexivity|exact Hrest|cbn in Hlen; lia].
Qed.

Lemma describeFrom_fail pre : forall r post params p,
  Forall (fun x => failed x = false) pre -> failed r = true ->
  params !! length pre = Some p ->
  describeFrom (pre ++ r :: post) params
  = inl (ErrorMessage (failureText (element p) r)).
Proof.
  induction pre as [|x pre IH]; intros r post params p Hpre Hr Hp.
  - destruct params as [|q params]; [discriminate|]. cbn in Hp.
    injection Hp as ->. cbn [app describeFrom]. unfold refLocator.
    now rewrite Hr.
  - inversion Hpre as [|? ? Hx Hrest]; subst.
    destruct params as [|q params]; [discriminate|]. cbn in Hp.
    cbn [app describeFrom]. destruct (refLocator_ok x q Hx) as (l & _ & ->).
    now rewrite (IH r post params p Hrest Hr Hp).
Qed.

(** X13. [refLocators] checks the selectors before it resolves anything: when
    a parameter has no selector, the error names the first such element,
    whatever the resolver would answer. *)
Theorem refLocators_missing_selector
    (resolveSelectors : list nat -> Thrown + list EnhancedSelectorResult)
    (pre post : list LocatorParam) (p : LocatorParam) :
  Forall (fun q => selector q <> None) pre -> selector p = None ->
  refLocators resolveSelectors (pre ++ p :: post)
  = inl (ErrorMessage (lit "Missing selector for element: " ++ element p)).
Proof.
  intros Hpre Hp. unfold refLocators.
  assert (H : selectorsOf (pre ++ p :: post)
              = inl (ErrorMessage (lit "Missing selector for element: "
                                   ++ element p))).
  { induction Hpre as [|q pre Hq _ IH]; cbn [app selectorsOf].
    - now rewrite Hp.
    - destruct (selector q); [|congruence]. now rewrite IH. }
  now rewrite H.
Qed.

(** The theorem for two parameters, the second without a selector. *)
Lemma refLocators_missing_selector_witness :
  refLocators (fun _ => inr [])
    ([ {| element := lit "Submit button"; selector := Some 1 |} ]
     ++ {| element := lit "Name field"; selector := None |} :: [])
  = inl (ErrorMessage (lit "Missing selector for element: Name field")).
Proof.
  apply (refLocators_missing_selector (fun _ => inr [])
           [ {| element := lit "Submit button"; selector := Some 1 |} ] []
           {| element := lit "Name field"; selector := None |}).
  - repeat constructor. discriminate.
  - reflexivity.
Defined.

Lemma failed_false (r : EnhancedSelectorResult) :
  failed r = false <->
  exists l, locator r = Some l /\ (error r = None \/ error r = Some []).
Proof.
  unfold failed. destruct r as [[l|] [[|c e]|] alts]; cbn; split;
    try discriminate; try (intros _; eauto; fail).
  - intros (l' & _ & [H|H]); discriminate H.
  - intros (l' & H & _). discriminate H.
  - intros (l' & H & _). discriminate H.
  - intros (l' & H & _). discriminate H.
Qed.

Lemma failed_true (r : EnhancedSelectorResult) :
  failed r = true <->
  locator r = None \/ exists c e, error r = Some (c :: e).
Proof.
  unfold failed. destruct r as [[l|] [[|c e]|] alts]; cbn; split;
    try discriminate; try (intros _; eauto; fail).
  - intros [H|(c & e & H)]; discriminate H.
  - intros [H|(c & e & H)]; discriminate H.
Qed.

(** X14. [refLocators] is all or nothing. Every parameter having its selector
    and the resolver having answered: when every result has a locator and
    no error (no error text, or an empty one), the locators are returned
    in the order of the results, each described with the name of the
    parameter at its position (as many as there are results, if these are
    fewer than the parameters; with more results than parameters the call
    fails with a [TypeError]); otherwise nothing is returned and the error
    thrown is about the first result that has no locator or has an error:
    its message is [Failed to resolve selector for element], the name of
    the parameter at that position in double quotes, a colon, the error
    text of the result ([Unknown error] when it has none) and, when the
    result has alternatives, [. Alternatives: ] with their JSON text. With
    one parameter the outcome is the one of [refLocator]. *)
Theorem refLocators_all_or_nothing
    (resolveSelectors : list nat -> Thrown + list EnhancedSelectorResult)
    (params : list LocatorParam) (selectors : list nat)
    (results : list EnhancedSelectorResult) :
  List.map selector params = List.map Some selectors ->
  resolveSelectors selectors = inr results ->
  let resolved (r : EnhancedSelectorResult) :=
    exists l, locator r = Some l /\ (error r = None \/ error r = Some []) in
  let unresolved (r : EnhancedSelectorResult) :=
    locator r = None \/ exists c e, error r = Some (c :: e) in
  (Forall resolved results ->
   length results <= length params ->
   exists ls,
     refLocators resolveSelectors params = inr ls /\
     length ls = length results /\
     forall i r, results !! i = Some r ->
       exists p l, params !! i = Some p /\ locator r = Some l /\
                   ls !! i = Some {| described := l; description := element p |}) /\
  (Forall resolved results ->
   length params < length results ->
   refLocators resolveSelectors params = inl TypeError) /\
  (forall pre r post p,
     results = pre ++ r :: post ->
     Forall resolved pre -> unresolved r ->
     params !! length pre = Some p ->
     refLocators resolveSelectors params
     = inl (ErrorMessage
              (lit "Failed to resolve selector for element "
               ++ 34%N :: element p ++ 34%N :: lit ": "
               ++ match error r with
                  | Some (c :: e) => c :: e
                  | _ => lit "Unknown error"
                  end
               ++ match alternatives r with
                  | Some json => lit ". Alternatives: " ++ json
                  | None => []
                  end))) /\
  (forall p r,
     params = [p] -> results = [r] ->
     refLocators resolveSelectors params
     = match refLocator r p with
       | inl e => inl e
       | inr l => inr [l]
       end).
Proof.
  intros Hsel Hres. cbv zeta. unfold refLocators.
  rewrite (selectorsOf_all _ _ Hsel), Hres.
  assert (Hok : forall rs,
            Forall (fun r => exists l, locator r = Some l /\
                                       (error r = None \/ error r = Some []))
              rs ->
            Forall (fun r => failed r = false) rs).
  { intros rs H. eapply Forall_impl; [exact H|].
    intros r Hr. now apply failed_false. }
  split; [intros H Hlen; apply describeFrom_ok; [now apply Hok|exact Hlen]|].
  split; [intros H Hlen; apply describeFrom_long; [now apply Hok|exact Hlen]|].
  split.
  - intros pre r post p -> Hpre Hr Hp.
    rewrite (describeFrom_fail pre r post params p (Hok _ Hpre)
               (proj2 (failed_true r) Hr) Hp).
    unfold failureText. do 2 f_equal.
    repeat (rewrite <- app_assoc || rewrite <- app_comm_cons). reflexivity.
  - intros p r -> ->. cbn [describeFrom].
    now destruct (refLocator r p).
Qed.

(** The theorem for two parameters of which the second does not
    resolve. *)
Lemma refLocators_all_or_nothing_witness :
  let params := [ {| element := lit "Submit button"; selector := Some 1 |};
                  {| element := lit "Name field"; selector := Some 2 |} ] in
  let missing := {| locator := None; error := Some (lit "no match");
                    alternatives := Some (lit "[7]") |} in
  let results := [ {| locator := Some 11; error := None; alternatives := None |};
                   missing ] in
  refLocators (fun _ => inr results) params
  = inl (ErrorMessage
           (lit "Failed to resolve selector for element "
            ++ 34%N :: lit "Name field"
            ++ 34%N :: lit ": no match. Alternatives: [7]")).
Proof.
  cbv zeta.
  rewrite (proj1 (proj2 (proj2
             (refLocators_all_or_nothing
                (fun _ => inr [ {| locator := Some 11; error := None;
                                   alternatives := None |};
                                {| locator := None;
                                   error := Some (lit "no match");
                                   alternatives := Some (lit "[7]") |} ])
                [ {| element := lit "Submit button"; selector := Some 1 |};
                  {| element := lit "Name field"; selector := Some 2 |} ]
                [1; 2] _ eq_refl eq_refl)))
             [ {| locator := Some 11; error := None; alternatives := None |} ]
             {| locator := None; error := Some (lit "no match");
                alternatives := Some (lit "[7]") |}
             [] {| element := lit "Name field"; selector := Some 2 |}
             eq_refl
             ltac:(repeat constructor; exists 11; split;
                   [reflexivity|now left])
             ltac:(left; reflexivity)
             eq_refl).
  reflexivity.
Defined.

End RefLocators.

(** ** Snapshots on request *)

Section SnapshotOnRequest.
Import JS Session Expectation Invariants.

Lemma capture_unset (maxLength : option nat) w schedule :
  match maxLength with Some (S _) => False | _ => True end ->
  forall selector,
    match selector with Some (_ :: _) => False | _ => True end ->
    capturePartialSnapshot selector maxLength w schedule
    = captureSnapshot w schedule.
Proof.
  intros Hm selector Hs.
  destruct selector as [[|c s]|]; try contradiction;
    destruct maxLength as [[|n]|]; try contradiction; reflexivity.
Qed.

(** X15. [handleSnapshotExpectation] does nothing unless [includeSnapshot] is
    true: no capture is started and the response is left as it is.
    Otherwise what it sets on the response is what
    [capturePartialSnapshot(selector, maxLength)] returns, also when
    neither option is given (the call of [captureSnapshot()] it makes then
    is the same capture). In particular, with a modal state present the
    response gets the snapshot that lists the modal states, and nothing is
    asked of the page; and a snapshot set for a positive [maxLength] has a
    text of at most that length. *)
Theorem handleSnapshotExpectation_spec
    (expectation : option Expectation) (response : option TabSnapshot.t)
    (w : World) (schedule : list Event) :
  let result := handleSnapshotExpectation expectation response w schedule in
  let '(selector, maxLength) := requested expectation in
  (wantsSnapshot expectation = false ->
   result = Some (Handled, response, w, schedule)) /\
  (wantsSnapshot expectation = true ->
   result
   = respond response (capturePartialSnapshot selector maxLength w schedule) /\
   (modalStates (tab w) <> [] ->
    exists snap,
      result = Some (Handled, Some snap, w, schedule) /\
      TabSnapshot.modalStates snap = modalStates (tab w) /\
      TabSnapshot.ariaSnapshot snap = []) /\
   (forall n snap w' rest,
      maxLength = Some n -> 0 < n ->
      result = Some (Handled, Some snap, w', rest) ->
      length (TabSnapshot.ariaSnapshot snap) <= n)).
Proof.
  cbv zeta.
  destruct (requested expectation) as [selector maxLength] eqn:Hreq.
  split.
  { intros Hno. unfold handleSnapshotExpectation.
    destruct expectation as [e|]; [|reflexivity]. now rewrite Hno. }
  intros Hyes.
  assert (Hres : handleSnapshotExpectation expectation response w schedule
                 = respond response
                     (capturePartialSnapshot selector maxLength w schedule)).
  { unfold handleSnapshotExpectation.
    destruct expectation as [[include options]|]; [|discriminate].
    rewrite Hyes. cbn [snapshotOptions requested] in *.
    destruct options as [[sel ml]|]; cbn [Expectation.selector
                                          Expectation.maxLength] in *;
      injection Hreq as <- <-; [|reflexivity].
    destruct (anyOption sel ml) eqn:Hany; [reflexivity|].
    f_equal. symmetry. unfold anyOption in Hany.
    apply capture_unset.
    - destruct sel as [[|c s]|], ml as [[|n]|]; try discriminate; exact I.
    - destruct sel as [[|c s]|]; try discriminate; exact I. }
  split; [exact Hres|]. split.
  - intros Hmodal. rewrite Hres.
    unfold capturePartialSnapshot, _captureSnapshotInternal.
    eexists.
    destruct (selectorPattern selector) as [pattern|].
    + rewrite captureWith_modal_present by exact Hmodal.
      cbn [respond]. split; [reflexivity|]. split; reflexivity.
    + destruct (modalStates (tab w)) as [|m ms] eqn:E; [congruence|].
      rewrite captureWith_modal_present by (rewrite E; discriminate).
      cbn [respond]. rewrite E. split; [reflexivity|]. split; reflexivity.
  - intros n snap w' rest -> Hn. rewrite Hres.
    unfold capturePartialSnapshot.
    destruct (_captureSnapshotInternal selector (Some n) w schedule)
      as [[[res w1] rest1]|] eqn:Hcapture; [|discriminate].
    destruct (capture_action _ _ _ _ _ Hcapture) as [pattern Hcap].
    destruct res as [snap1|e|]; cbn [respond]; intros [= <- <- <-].
    apply (captureWith_within _ _ _ _ _ _ _ (fun a t => captureAction_within
                                               pattern n a t Hn) Hcap).
Qed.

(** The theorem for a request of the [main] region on a new tab on which
    a dialog is open. *)
Lemma handleSnapshotExpectation_spec_witness :
  let m := {| ms_type := dialog; ms_description := lit "alert"; ms_handle := 1 |} in
  let w := dispatch (newWorld (lit "about:blank")) (EvModal m) in
  let expectation :=
    Some {| includeSnapshot := Some true;
            snapshotOptions := Some {| selector := Some (lit "main");
                                       maxLength := None |} |} in
  exists snap,
    handleSnapshotExpectation expectation None w []
    = Some (Handled, Some snap, w, []) /\
    TabSnapshot.modalStates snap = [m].
Proof.
  cbv zeta.
  pose proof (handleSnapshotExpectation_spec
                (Some {| includeSnapshot := Some true;
                         snapshotOptions := Some {| selector := Some (lit "main");
                                                    maxLength := None |} |})
                None
                (dispatch (newWorld (lit "about:blank"))
                   (EvModal {| ms_type := dialog; ms_description := lit "alert";
                               ms_handle := 1 |})) []) as H.
  cbv zeta in H. cbn [requested] in H.
  destruct H as [_ H]. destruct (H eq_refl) as (_ & Hmodal & _).
  destruct Hmodal as (snap & Hres & Hm & _); [discriminate|].
  exists snap. split; [exact Hres|exact Hm].
Defined.

End SnapshotOnRequest.

(** ** The downloads list *)

Section DownloadsList.
Import JS Session Downloads.

Lemma sameDownload_refl e : sameDownload e e.
Proof. now repeat split. Qed.

Lemma sameDownload_trans e1 e2 e3 :
  sameDownload e1 e2 -> sameDownload e2 e3 -> sameDownload e1 e3.
Proof.
  intros (H1 & H2 & H3) (H4 & H5 & H6). repeat split; try congruence. auto.
Qed.

Lemma finish_grows index l i e :
  l !! i = Some e ->
  exists e', finish index l !! i = Some e' /\ sameDownload e e'.
Proof.
  intros Hi. unfold finish. destruct (l !! index) as [entry|] eqn:E.
  - destruct (decide (i = index)) as [->|Hne].
    + eexists. split.
      * apply list_lookup_insert_eq. now apply lookup_lt_Some in E.
      * assert (entry = e) by congruence. subst entry. now repeat split.
    + exists e. split; [|apply sameDownload_refl].
      now rewrite list_lookup_insert_ne by congruence.
  - exists e. split; [exact Hi|apply sameDownload_refl].
Qed.

Lemma finishedCount_insert (l : list DownloadEntry) : forall index e,
  finishedCount (<[index := e]> l) <= S (finishedCount l).
Proof.
  unfold finishedCount.
  induction l as [|x l IH]; intros index e.
  - destruct index; cbn; lia.
  - destruct index as [|index].
    + cbn. destruct (finished e), (finished x); cbn; lia.
    + specialize (IH index e). cbn in *.
      destruct (finished x); cbn in *; [apply le_n_S|]; exact IH.
Qed.

Lemma dispatch_grows w ev :
  (forall i e, _downloads w !! i = Some e ->
     exists e', _downloads (dispatch w ev) !! i = Some e' /\ sameDownload e e') /\
  length (_downloads (dispatch w ev)) <= length (_downloads w) + filesGiven [ev] /\
  finishedCount (_downloads (dispatch w ev))
  <= finishedCount (_downloads w) + savesDone [ev].
Proof.
  assert (Hsame : forall i e, _downloads w !! i = Some e ->
            exists e', _downloads w !! i = Some e' /\ sameDownload e e').
  { intros i e Hi. exists e. split; [exact Hi|apply sameDownload_refl]. }
  pose proof (finishedCount_insert (_downloads w)) as Hins.
  unfold finishedCount in *.
  destruct ev as [d|j path|j ok]; cbn [dispatch].
  - cbn. split; [exact Hsame|]. split; lia.
  - destruct (suspended w !! j) as [[d|index]|];
      [destruct path as [file|]|..]; cbn [_downloads];
      try (split; [exact Hsame|]; split; lia).
    split; [|split].
    + intros i e Hi. exists e. split; [|apply sameDownload_refl].
      now apply lookup_app_l_Some.
    + rewrite length_app. cbn. lia.
    + rewrite List.filter_app, length_app. cbn. lia.
  - destruct (suspended w !! j) as [[d|index]|]; cbn [_downloads];
      try (split; [exact Hsame|]; split; lia).
    destruct ok; [|split; [exact Hsame|]; split; lia].
    split; [|split].
    + intros i e Hi. now apply finish_grows.
    + unfold finish. destruct (_downloads w !! index);
        rewrite ?length_insert; lia.
    + unfold finish. destruct (_downloads w !! index) as [entry|]; [|lia].
      cbn [savesDone List.filter length].
      specialize (Hins index {| download := download entry; finished := true;
                                outputFile := outputFile entry |}). lia.
Qed.

Lemma deliver_keeps_entry evs : forall w i e,
  _downloads w !! i = Some e ->
  exists e', _downloads (fold_left dispatch evs w) !! i = Some e' /\
             sameDownload e e'.
Proof.
  induction evs as [|ev evs IH]; intros w i e Hi.
  - exists e. split; [exact Hi|apply sameDownload_refl].
  - cbn [fold_left]. destruct (dispatch_grows w ev) as (H1 & _ & _).
    destruct (H1 i e Hi) as (e1 & Hi1 & Hs1).
    destruct (IH (dispatch w ev) i e1 Hi1) as (e2 & Hi2 & Hs2).
    exists e2. split; [exact Hi2|]. eapply sameDownload_trans; eauto.
Qed.

(** X16. The downloads list only grows: whatever is delivered, an entry stays
    at its position, for the same download and the same file, and stays
    finished once it is; there are at most as many new entries as output
    files were handed out, and at most as many newly finished entries as
    saves succeeded (a rejected [outputFile] adds no entry, a rejected
    save finishes none). *)
Theorem downloads_only_grow (w : World) (evs : list Event) :
  let w' := fold_left dispatch evs w in
  (forall i e, _downloads w !! i = Some e ->
     exists e', _downloads w' !! i = Some e' /\ sameDownload e e') /\
  length (_downloads w') <= length (_downloads w) + filesGiven evs /\
  finishedCount (_downloads w')
  <= finishedCount (_downloads w) + savesDone evs.
Proof.
  cbv zeta. split; [intros i e; apply deliver_keeps_entry|].
  revert w. induction evs as [|ev evs IH]; intros w; [cbn; lia|].
  cbn [fold_left]. destruct (dispatch_grows w ev) as (_ & H2 & H3).
  destruct (IH (dispatch w ev)) as (H5 & H6).
  assert (Hf : filesGiven (ev :: evs) = filesGiven [ev] + filesGiven evs).
  { unfold filesGiven. cbn [List.filter].
    destruct ev as [d|j [file|]|j ok]; cbn [length]; lia. }
  assert (Hs : savesDone (ev :: evs) = savesDone [ev] + savesDone evs).
  { unfold savesDone. cbn [List.filter].
    destruct ev as [d|j path|j [|]]; cbn [length]; lia. }
  split; lia.
Qed.

Lemma dispatch_suspended w ev i stage :
  i < invocations w -> suspended w !! i = Some stage ->
  notFor i [ev] ->
  i < invocations (dispatch w ev) /\
  suspended (dispatch w ev) !! i = Some stage.
Proof.
  intros Hlt Hi Hev. inversion Hev as [|? ? Hne _]; subst.
  destruct ev as [d|j path|j ok]; cbn [dispatch].
  - cbn. split; [lia|]. rewrite lookup_insert_ne by lia. exact Hi.
  - destruct (suspended w !! j) as [[d|index]|];
      [destruct path as [file|]|..]; cbn; (split; [exact Hlt|]);
      rewrite ?lookup_insert_ne, ?lookup_delete_ne by congruence; exact Hi.
  - destruct (suspended w !! j) as [[d|index]|]; cbn; (split; [exact Hlt|]);
      rewrite ?lookup_delete_ne by congruence; exact Hi.
Qed.

Lemma deliver_suspended evs : forall w i stage,
  i < invocations w -> suspended w !! i = Some stage ->
  notFor i evs ->
  i < invocations (fold_left dispatch evs w) /\
  suspended (fold_left dispatch evs w) !! i = Some stage.
Proof.
  induction evs as [|ev evs IH]; intros w i stage Hlt Hi Hevs; [now split|].
  inversion Hevs as [|? ? Hev Hrest]; subst. cbn [fold_left].
  destruct (dispatch_suspended w ev i stage Hlt Hi) as [Hlt1 Hi1];
    [now repeat constructor|].
  now apply IH.
Qed.

(** X17. A download completes: after a [download] event, once the output file
    was handed out to its invocation and its save succeeded, whatever
    else was delivered in between for other downloads, the list holds
    the entry of that download with that file, marked as finished, and
    the invocation is over. *)
Theorem download_completes
    (w : World) (d : nat) (file : jsstring) (evs1 evs2 : list Event) :
  let i := invocations w in
  notFor i evs1 -> notFor i evs2 ->
  let w' := fold_left dispatch
              (EvDownload d :: evs1 ++ EvOutputFile i (Some file)
                 :: evs2 ++ [EvSaved i true]) w in
  (exists index,
     _downloads w' !! index
     = Some {| download := d; finished := true; outputFile := file |}) /\
  suspended w' !! i = None.
Proof.
  intros i H1 H2. cbv zeta. cbn [fold_left].
  rewrite fold_left_app. cbn [fold_left]. rewrite fold_left_app. cbn [fold_left].
  set (w0 := dispatch w (EvDownload d)).
  assert (Hlt0 : i < invocations w0) by (cbn; lia).
  assert (Hi0 : suspended w0 !! i = Some (AwaitingOutputFile d))
    by (cbn; apply lookup_insert_eq).
  destruct (deliver_suspended evs1 w0 i _ Hlt0 Hi0 H1) as [Hlt1 Hi1].
  set (w1 := fold_left dispatch evs1 w0) in *.
  set (w2 := dispatch w1 (EvOutputFile i (Some file))).
  assert (Hw2 : _downloads w2 !! length (_downloads w1)
                = Some {| download := d; finished := false; outputFile := file |}
                /\ suspended w2 !! i = Some (AwaitingSave (length (_downloads w1)))
                /\ i < invocations w2).
  { subst w2. cbn [dispatch]. rewrite Hi1. cbn. split; [|split].
    - apply list_lookup_middle. reflexivity.
    - apply lookup_insert_eq.
    - exact Hlt1. }
  destruct Hw2 as (Hentry & Hi2 & Hlt2).
  destruct (deliver_suspended evs2 w2 i _ Hlt2 Hi2 H2) as [Hlt3 Hi3].
  destruct (deliver_keeps_entry evs2 w2 _ _ Hentry) as (e & He & Hd & Hf & _).
  set (w3 := fold_left dispatch evs2 w2) in *.
  cbn [download outputFile] in Hd, Hf.
  cbn [dispatch]. rewrite Hi3. cbn [_downloads suspended]. split.
  - exists (length (_downloads w1)). unfold finish. rewrite He.
    rewrite list_lookup_insert_eq by (now apply lookup_lt_Some in He).
    now rewrite Hd, Hf.
  - apply lookup_delete_eq.
Qed.

(** The theorem for two downloads whose steps interleave. *)
Lemma download_completes_witness :
  exists index,
    _downloads (fold_left dispatch
                  (EvDownload 7 :: [EvDownload 8; EvOutputFile 1 (Some (lit "b.pdf"))]
                     ++ EvOutputFile 0 (Some (lit "a.pdf"))
                     :: [EvSaved 1 false] ++ [EvSaved 0 true]) newWorld)
    !! index
    = Some {| download := 7; finished := true; outputFile := lit "a.pdf" |}.
Proof.
  refine (proj1 (download_completes newWorld 7 (lit "a.pdf")
                   [EvDownload 8; EvOutputFile 1 (Some (lit "b.pdf"))]
                   [EvSaved 1 false] _ _)).
  - repeat constructor; discriminate.
  - repeat constructor; discriminate.
Defined.

End DownloadsList.

(** ** Modal states as markdown *)

Section ModalStatesMarkdown.
Import JS Session Modal.

Lemma push_all (tools : list Tool) (states : list ModalState) :
  forall result,
    fold_left (fun result state => result ++ [renderModalState tools state])
      states result
    = result ++ List.map (renderModalState tools) states.
Proof.
  induction states as [|state states IH]; intros result; cbn [fold_left List.map].
  - now rewrite app_nil_r.
  - rewrite IH, <- app_assoc. reflexivity.
Qed.

(** The filter of [renderModalStates] changes nothing to what [find]
    finds. *)
Lemma toolFor_find (tools : list Tool) (state : ModalState) :
  toolFor tools state
  = List.find (fun t => bool_decide (clearsModalState t = Some (ms_type state)))
      tools.
Proof.
  unfold toolFor. induction tools as [|t tools IH]; [reflexivity|].
  cbn [List.filter List.find]. destruct (clearsModalState t) as [ty|] eqn:E.
  - rewrite bool_decide_true by eauto. cbn [List.find]. rewrite E.
    destruct (bool_decide (Some ty = Some (ms_type state))); [reflexivity|exact IH].
  - rewrite bool_decide_false by (intros [? ?]; discriminate).
    rewrite bool_decide_false by discriminate. exact IH.
Qed.

(** X18. [modalStatesMarkdown] lists every pending modal state: after the
    heading comes one line for each modal state, in the order in which
    they were set. The line is [- [], the description of the state,
    []: can be handled by the ], then in double quotes the [schema.name]
    of the first tool of the context whose [clearsModalState] is the type
    of the state, or [undefined] when the context has no such tool, then
    [ tool]. The line that says that no modal state is present comes
    exactly when there is none. *)
Theorem modalStatesMarkdown_lists_every_state (tools : list Tool) (t : Tab) :
  let lines := modalStatesMarkdown tools t in
  lines !! 0 = Some (lit "### Modal state") /\
  (modalStates t = [] ->
   lines = [lit "### Modal state"; lit "- There is no modal state present"]) /\
  (modalStates t <> [] -> length lines = S (length (modalStates t))) /\
  (forall i state,
     modalStates t !! i = Some state ->
     lines !! S i
     = Some (lit "- [" ++ ms_description state
             ++ lit "]: can be handled by the "
             ++ 34%N
                :: match List.find
                           (fun tool =>
                              bool_decide (clearsModalState tool
                                           = Some (ms_type state))) tools with
                   | Some tool => schema_name tool
                   | None => lit "undefined"
                   end
             ++ 34%N :: lit " tool")).
Proof.
  cbv zeta. unfold modalStatesMarkdown, renderModalStates.
  rewrite push_all. destruct (modalStates t) as [|m ms] eqn:E.
  - cbn. split; [reflexivity|]. split; [reflexivity|]. split; [congruence|].
    intros i state Hi. rewrite lookup_nil in Hi. discriminate.
  - cbn [length Nat.eqb]. split; [reflexivity|]. split; [discriminate|].
    split; [intros _; cbn [app length]; now rewrite length_map|].
    intros i state Hi.
    change (([lit "### Modal state"]
             ++ List.map (renderModalState tools) (m :: ms)) !! S i)
      with (List.map (renderModalState tools) (m :: ms) !! i).
    change (List.map (renderModalState tools) (m :: ms))
      with (renderModalState tools <$> (m :: ms)).
    rewrite list_lookup_fmap, Hi. cbn [fmap option_fmap option_map].
    unfold renderModalState, toolName. now rewrite toolFor_find.
Qed.

End ModalStatesMarkdown.

(** ** Setting and clearing a modal state *)

Section ModalRoundTrip.
Import JS Session.

Lemma filter_others (m : ModalState) (l : list ModalState) :
  m ∉ l ->
  List.filter (fun state => negb (bool_decide (state = m))) l = l.
Proof.
  induction l as [|x l IH]; intros Hm; [reflexivity|].
  cbn [List.filter]. apply not_elem_of_cons in Hm. destruct Hm as [Hne Hm].
  rewrite bool_decide_false by congruence. cbn [negb]. now rewrite IH.
Qed.

(** X19. Clearing a modal state undoes setting it: when the state is not
    pending yet, [setModalState] followed by [clearModalState] leaves the
    fields of the tab as they were. In general [clearModalState] removes
    the state and nothing else: the other modal states stay, and clearing
    a state that is not pending changes nothing. *)
Theorem clearModalState_undoes_setModalState (w : World) (m : ModalState) :
  (m ∉ _modalStates (tab w) ->
   clearModalState m (tab (setModalState m w)) = tab w) /\
  (forall other,
     other ∈ _modalStates (clearModalState m (tab w))
     <-> other ∈ _modalStates (tab w) /\ other <> m) /\
  (m ∉ _modalStates (tab w) -> clearModalState m (tab w) = tab w).
Proof.
  split; [|split].
  - intros Hm. destruct w as [t ls r fx c]. destruct t. cbn in *.
    unfold clearModalState, set_modalStates. cbn. f_equal.
    rewrite List.filter_app, filter_others by exact Hm. cbn [List.filter].
    rewrite bool_decide_true by reflexivity. cbn. apply app_nil_r.
  - intros other. cbn. rewrite !list_elem_of_In, filter_In.
    rewrite negb_true_iff, bool_decide_eq_false. tauto.
  - intros Hm. destruct w as [t ls r fx c]. destruct t. cbn in *.
    unfold clearModalState, set_modalStates. cbn. f_equal.
    now apply filter_others.
Qed.

(** The theorem for a dialog on a new tab. *)
Lemma clearModalState_undoes_setModalState_witness :
  let m := {| ms_type := dialog; ms_description := lit "alert"; ms_handle := 1 |} in
  clearModalState m (tab (setModalState m (newWorld (lit "about:blank"))))
  = tab (newWorld (lit "about:blank")).
Proof.
  cbv zeta.
  apply (proj1 (clearModalState_undoes_setModalState
                  (newWorld (lit "about:blank")) _)).
  cbn. apply not_elem_of_nil.
Defined.

End ModalRoundTrip.

(** ** No console message is lost *)

Section NoMessageLost.
Import JS Config Session Invariants.

Lemma dispatch_exact w ev :
  bystanders w -> ev <> EvClose ->
  _recentConsoleMessages (tab (dispatch w ev))
  = _recentConsoleMessages (tab w) ++ consoleOf [ev] /\
  _consoleMessages (tab (dispatch w ev))
  = _consoleMessages (tab w) ++ consoleOf [ev].
Proof.
  intros Hby Hev.
  destruct ev as [c|rq|rq rs|ms| |call st]; cbn [dispatch]; try congruence;
    try (cbn; now rewrite !app_nil_r).
  - cbn. now split.
  - destruct (running w !! call) as [k|] eqn:E; [|cbn; now rewrite !app_nil_r].
    cbn [tab]. destruct st as [a|e]; [rewrite (Hby _ _ E)|];
      cbn; now rewrite !app_nil_r.
Qed.

Lemma deliver_exact evs : forall w,
  bystanders w -> stayOpen evs ->
  _recentConsoleMessages (tab (fold_left dispatch evs w))
  = _recentConsoleMessages (tab w) ++ consoleOf evs /\
  _consoleMessages (tab (fold_left dispatch evs w))
  = _consoleMessages (tab w) ++ consoleOf evs.
Proof.
  induction evs as [|ev evs IH]; intros w Hby Hevs.
  - cbn. now rewrite !app_nil_r.
  - inversion Hevs as [|? ? Hev Hrest]; subst. cbn [fold_left].
    destruct (dispatch_exact w ev Hby Hev) as [H1 H2].
    destruct (IH _ (dispatch_bystanders w ev Hby) Hrest) as [H3 H4].
    rewrite H3, H4, H1, H2, (consoleOf_cons ev evs), <- !app_assoc. now split.
Qed.

Lemma raceLoop_exact schedule : forall call var w r v w' rest,
  raceLoop call var w schedule = (r, v, w', rest) ->
  bystanders w -> stayOpen schedule ->
  stayOpen rest /\
  _recentConsoleMessages (tab w') ++ consoleOf rest
  = _recentConsoleMessages (tab w) ++ consoleOf schedule /\
  _consoleMessages (tab w') ++ consoleOf rest
  = _consoleMessages (tab w) ++ consoleOf schedule.
Proof.
  induction schedule as [|ev schedule IH];
    intros call var w r v w' rest Hrun Hby Hsched.
  - injection Hrun as <- <- <- <-. now repeat split.
  - inversion Hsched as [|? ? Hev Hrest]; subst.
    rewrite (consoleOf_cons ev schedule).
    destruct (dispatch_exact w ev Hby Hev) as [H1 H2].
    pose proof (dispatch_bystanders w ev Hby) as Hby1.
    assert (Hstep : forall r v w' rest,
              raceLoop call var (dispatch w ev) schedule = (r, v, w', rest) ->
              stayOpen rest /\
              _recentConsoleMessages (tab w') ++ consoleOf rest
              = _recentConsoleMessages (tab w) ++ consoleOf [ev] ++ consoleOf schedule /\
              _consoleMessages (tab w') ++ consoleOf rest
              = _consoleMessages (tab w) ++ consoleOf [ev] ++ consoleOf schedule).
    { intros r0 v0 w0 rest0 H0.
      destruct (IH _ _ _ _ _ _ _ H0 Hby1 Hrest) as (Ha & Hb & Hc).
      rewrite Hb, Hc, H1, H2, <- !app_assoc. now repeat split. }
    assert (Hdone : stayOpen schedule /\
              _recentConsoleMessages (tab (dispatch w ev)) ++ consoleOf schedule
              = _recentConsoleMessages (tab w) ++ consoleOf [ev] ++ consoleOf schedule /\
              _consoleMessages (tab (dispatch w ev)) ++ consoleOf schedule
              = _consoleMessages (tab w) ++ consoleOf [ev] ++ consoleOf schedule).
    { rewrite H1, H2, <- !app_assoc. now repeat split. }
    destruct ev as [c|rq|rq rs|ms| |c st]; cbn [raceLoop] in Hrun;
      try (now apply Hstep in Hrun).
    + destruct (bool_decide _); [|now apply Hstep in Hrun].
      injection Hrun as <- <- <- <-. exact Hdone.
    + destruct (bool_decide (c = call)) eqn:Hc; [|now apply Hstep in Hrun].
      apply bool_decide_eq_true in Hc. subst c.
      cbn [dispatch] in Hdone, Hstep.
      destruct (running w !! call) as [k|] eqn:E.
      * destruct st as [a|e].
        -- pose proof (Hby _ _ E a (tab w)) as Hfst.
           destruct (k a (tab w)) as [t v0]. cbn [fst] in Hfst, Hdone. subst t.
           injection Hrun as <- <- <- <-. exact Hdone.
        -- injection Hrun as <- <- <- <-. exact Hdone.
      * now apply Hstep in Hrun.
Qed.

Lemma captureWith_exact action w schedule res w' rest :
  (forall a t, fst (action a t) = t) -> bystanders w -> stayOpen schedule ->
  captureWith action w schedule = (res, w', rest) ->
  stayOpen rest /\
  consoleOfResult res ++ _recentConsoleMessages (tab w') ++ consoleOf rest
  = _recentConsoleMessages (tab w) ++ consoleOf schedule /\
  _consoleMessages (tab w') ++ consoleOf rest
  = _consoleMessages (tab w) ++ consoleOf schedule.
Proof.
  intros Ha Hby Hsched. unfold captureWith, _raceAgainstModalStates.
  destruct (modalStates (tab w)) as [|m0 ms].
  - destruct (raceLoop _ _ _ _) as [[[r v] w1] rest1] eqn:Hrun.
    destruct (raceLoop_exact _ _ _ _ _ _ _ _ Hrun
                (startRace_bystanders _ _ Ha Hby) Hsched) as (H1 & H2 & H3).
    cbn [startRace tab] in H2, H3.
    destruct r as [ms|e|]; [destruct v as [snap|]|..];
      intros [= <- <- <-]; cbn [consoleOfResult TabSnapshot.consoleMessages
                                set_tab tab set_recentConsoleMessages
                                _recentConsoleMessages _consoleMessages app];
      now repeat split.
  - intros [= <- <- <-]. now repeat split.
Qed.

(** X20. No console message is lost. As long as the page is not closed and
    [navigate] is not called, whatever else a session does (events,
    captures that complete, fail, stay pending or lose against a modal
    state, modal states cleared): the console messages attached to the
    snapshots returned, followed by the recent console messages left in
    the tab, are the recent console messages there were at the start
    followed by all the messages that arrived, in their order of
    arrival; and the history [consoleMessages()] is the one at the start
    followed by the same arrivals. *)
Theorem no_console_message_lost
    (T : Timeouts) (steps : list Step) (w w' : World)
    (snaps : list TabSnapshot.t) :
  bystanders w -> keepsConsole steps ->
  session T w steps = Some (w', snaps) ->
  attached snaps ++ _recentConsoleMessages (tab w')
  = _recentConsoleMessages (tab w) ++ arrivals steps /\
  consoleMessages (tab w') = consoleMessages (tab w) ++ arrivals steps.
Proof.
  revert w w' snaps.
  induction steps as [|st steps IH]; intros w w' snaps Hby Hsteps.
  - intros [= <- <-]. cbn. now rewrite !app_nil_r.
  - inversion Hsteps as [|? ? Hst Hrest]; subst. cbn [session].
    destruct (sessionStep T w st) as [[w1 out]|] eqn:Hs; [|discriminate].
    destruct (session T w1 steps) as [[w2 outs]|] eqn:Hss; [|discriminate].
    intros [= <- <-].
    assert (Hone : bystanders w1 /\
              attached (option_list out) ++ _recentConsoleMessages (tab w1)
              = _recentConsoleMessages (tab w) ++ arrivals [st] /\
              consoleMessages (tab w1) = consoleMessages (tab w) ++ arrivals [st]).
    { rewrite arrivals_single. unfold consoleMessages.
      destruct st as [ev|selector maxLength during|ms|url env];
        cbn [sessionStep] in Hs; [| | |contradiction].
      - injection Hs as <- <-. split; [now apply dispatch_bystanders|].
        now apply dispatch_exact.
      - destruct (_captureSnapshotInternal selector maxLength w during)
          as [[[res wc] rest]|] eqn:Hcapture; [|discriminate].
        destruct (capture_action _ _ _ _ _ Hcapture) as [pattern Hcap].
        destruct (captureWith_exact _ _ _ _ _ _
                    (captureAction_tab pattern maxLength) Hby Hst Hcap)
          as (Hopen & H1 & H2).
        destruct (captureWith_kept (fun _ => True) (fun _ => True)
                    ltac:(now constructor) _ _ _ _ _ _
                    (captureAction_tab pattern maxLength) Hby I Hcap) as [Hbc _].
        destruct (deliver_exact rest wc Hbc Hopen) as [H3 H4].
        assert (Hw1 : w1 = fold_left dispatch rest wc
                      /\ attached (option_list out) = consoleOfResult res).
        { destruct res as [snap|e|]; injection Hs as <- <-;
            (split; [reflexivity|]); cbn; now rewrite ?app_nil_r. }
        destruct Hw1 as [-> ->].
        split; [now apply deliver_kept with (I := fun _ => True)
                                            (mayClear := fun _ => True)|].
        rewrite H3, H4. split; [now rewrite <- H1|exact H2].
      - injection Hs as <- <-. split; [exact Hby|].
        cbn. now rewrite !app_nil_r. }
    destruct Hone as (Hby1 & H1 & H2).
    destruct (IH _ _ _ Hby1 Hrest Hss) as [H3 H4].
    rewrite arrivals_cons, H4, H2, !app_assoc, <- H1.
    split; [|reflexivity].
    rewrite <- !app_assoc, <- H3.
    destruct out as [snap|]; unfold attached, option_list;
      cbn [option_rect flat_map app]; rewrite ?app_nil_r, <- ?app_assoc;
      reflexivity.
Qed.

(** The theorem for a capture that a dialog interrupts after a console
    message arrived, followed, the dialog cleared, by a capture that
    completes. *)
Lemma no_console_message_lost_witness :
  let m := {| ms_type := dialog; ms_description := lit "alert"; ms_handle := 1 |} in
  let c := {| cm_type := Some (lit "log"); cm_text := lit "hi";
              cm_rendered := lit "[LOG] hi" |} in
  let answer := Fulfilled (AnsSnapshot (lit "- main") (lit "about:blank")
                             (lit "Home")) in
  let steps := [Capture None None [EvConsole c; EvModal m; EvSettled 0 answer];
                ClearModal m;
                Capture None None [EvSettled 1 answer]] in
  match session sampleTimeouts (newWorld (lit "about:blank")) steps with
  | Some (w', snaps) => attached snaps ++ _recentConsoleMessages (tab w') = [c]
  | None => False
  end.
Proof.
  cbv zeta.
  destruct (session _ _ _) as [[w' snaps]|] eqn:E;
    [|vm_compute in E; discriminate E].
  refine (proj1 (no_console_message_lost _ _ _ _ _
                   (newWorld_bystanders _) _ E)).
  repeat constructor; discriminate.
Defined.

End NoMessageLost.

(** ** The title of the page *)

Section PageTitle.
Import JS Session.

(** X21. [updateTitle] records the title the page answers, also when the
    answer comes late. With no modal state pending, when the answer is
    the first thing to decide the race, [updateTitle] returns with
    [lastTitle()] being the title answered; when a modal state is set
    first, [updateTitle] returns at once, and the title is still recorded
    when the answer arrives afterwards. With a modal state pending, the
    page is not asked and nothing changes. *)
Theorem updateTitle_records_title
    (w : World) (pre rest : list Event) (title : jsstring) :
  modalStates (tab w) = [] -> undecided (calls w) pre ->
  let answered := EvSettled (calls w) (Fulfilled (AnsTitle title)) in
  (exists w',
     updateTitle w (pre ++ answered :: rest) = (RaceReturned [], w', rest) /\
     _lastTitle (tab w') = title) /\
  (forall m, exists w',
     updateTitle w (pre ++ EvModal m :: rest) = (RaceReturned [m], w', rest) /\
     _lastTitle (tab (dispatch w' answered)) = title) /\
  (forall blocked schedule,
     modalStates (tab blocked) <> [] ->
     updateTitle blocked schedule
     = (RaceReturned (modalStates (tab blocked)), blocked, schedule)).
Proof.
  intros Hmodal Hpre. cbv zeta. split; [|split].
  - unfold updateTitle.
    rewrite (race_action_first updateTitleAction w pre _ rest Hmodal Hpre).
    eexists. split; reflexivity.
  - intros m. unfold updateTitle.
    destruct (race_modal_first updateTitleAction w pre m rest Hmodal Hpre)
      as [Hres Hrun].
    cbv zeta in Hres, Hrun. rewrite Hres.
    eexists. split; [reflexivity|].
    cbn [dispatch]. set (after := setModalState m _) in *.
    destruct (running after !! calls w) as [k|] eqn:E; [|congruence].
    assert (k = updateTitleAction) by congruence. subst k. reflexivity.
  - intros blocked schedule Hblocked.
    unfold updateTitle, _raceAgainstModalStates.
    destruct (modalStates (tab blocked)); [congruence|reflexivity].
Qed.

(** The theorem for a title read during which a dialog opens, the title
    being answered afterwards. *)
Lemma updateTitle_records_title_witness :
  let m := {| ms_type := dialog; ms_description := lit "alert"; ms_handle := 1 |} in
  exists w',
    updateTitle (newWorld (lit "about:blank")) ([] ++ EvModal m :: [])
    = (RaceReturned [m], w', []) /\
    _lastTitle (tab (dispatch w' (EvSettled 0 (Fulfilled (AnsTitle (lit "Home"))))))
    = lit "Home".
Proof.
  cbv zeta.
  apply (proj1 (proj2 (updateTitle_records_title (newWorld (lit "about:blank"))
                         [] [] (lit "Home") eq_refl (List.Forall_nil _)))).
Defined.

End PageTitle.
